(** * gh-recon: organisation reconnaissance pipeline (main.go)

    A shallow embedding of [main.go] of package [ghrecon] and the
    properties of its discovery-and-extraction pipeline.

    - [Regexp]   : the backtracking matcher behind [regexp.FindString] and
                   the URL normaliser [_ExtractUrl];
    - [Json]     : the part of [encoding/json] that fills the tagged structs;
    - [Api]      : the HTTP operations and the repository set builder;
    - [Flatten]  : the tree flattener inside [ParseRepository];
    - [Dispatch] : the hook loop and the goroutine fan-out of [FullRecon]. *)

From Stdlib Require Import ZArith String Ascii List Lia Bool DecimalString.
From stdpp Require Import base gmap strings list.

Set Default Proof Using "Type".

(* ===================================================================== *)
(** * Regular expressions, as [regexp] runs them                         *)
(* ===================================================================== *)

Module Regexp.

(** Go strings are byte sequences; the pattern of [_ExtractUrl] only names
    ASCII bytes, and its negated class accepts every byte of a multi-byte
    rune, so matching byte by byte gives the same match boundaries. *)
Definition text := list ascii.

(** The syntax tree of [regexp/syntax], restricted to the operators the
    pattern uses.  [x+], [x?] and [x{n,m}] are the derived forms the
    simplifier of [regexp/syntax] rewrites them to. *)
Inductive regexp : Type :=
| EmptyMatch                         (* matches the empty string *)
| CharClass (p : ascii -> bool)      (* one byte of the class *)
| Concat (r1 r2 : regexp)
| Alternate (r1 r2 : regexp)         (* prefers r1 *)
| Star (r : regexp).                 (* greedy *)

Definition Plus (r : regexp) : regexp := Concat r (Star r).
Definition Quest (r : regexp) : regexp := Alternate r EmptyMatch.

(** [x{n,m}] is n copies of x followed by m-n nested optional copies:
    x{2,5} = xx(x(x(x)?)?)? *)
Fixpoint QuestNest (r : regexp) (extra : nat) : regexp :=
  match extra with
  | O => EmptyMatch
  | S O => Quest r
  | S e => Quest (Concat r (QuestNest r e))
  end.

Fixpoint Repeat (r : regexp) (min : nat) (extra : nat) : regexp :=
  match min with
  | O => QuestNest r extra
  | S n => match n, extra with
           | O, O => r
           | _, _ => Concat r (Repeat r n extra)
           end
  end.

Definition Literal (c : ascii) : regexp := CharClass (Ascii.eqb c).

Fixpoint LiteralString (s : text) : regexp :=
  match s with
  | [] => EmptyMatch
  | [c] => Literal c
  | c :: s' => Concat (Literal c) (LiteralString s')
  end.

(** The language of a regular expression. *)
Inductive matches : regexp -> text -> Prop :=
| MEmpty : matches EmptyMatch []
| MClass p c : p c = true -> matches (CharClass p) [c]
| MConcat r1 r2 w1 w2 :
    matches r1 w1 -> matches r2 w2 -> matches (Concat r1 r2) (w1 ++ w2)
| MAltL r1 r2 w : matches r1 w -> matches (Alternate r1 r2) w
| MAltR r1 r2 w : matches r2 w -> matches (Alternate r1 r2) w
| MStarNil r : matches (Star r) []
| MStarApp r w1 w2 :
    matches r w1 -> matches (Star r) w2 -> matches (Star r) (w1 ++ w2).

(** The leftmost-first (backtracking) search of Go's [regexp]: [exec r s k]
    tries the ways [r] can match a prefix of [s] in priority order and hands
    the rest of the text to the continuation [k]; the first way whose
    continuation succeeds wins.  An iteration of a star that consumes
    nothing is not repeated. *)
Fixpoint exec (r : regexp) (s : text) (k : text -> option text) : option text :=
  match r with
  | EmptyMatch => k s
  | CharClass p =>
      match s with
      | c :: s' => if p c then k s' else None
      | [] => None
      end
  | Concat r1 r2 => exec r1 s (fun s1 => exec r2 s1 k)
  | Alternate r1 r2 =>
      match exec r1 s k with
      | Some x => Some x
      | None => exec r2 s k
      end
  | Star r1 =>
      (fix star (fuel : nat) (s : text) {struct fuel} : option text :=
         match fuel with
         | O => k s
         | S fuel' =>
             match exec r1 s (fun s1 =>
                     if (length s1 <? length s)%nat then star fuel' s1 else None) with
             | Some x => Some x
             | None => k s
             end
         end) (length s) s
  end.

(** A compiled pattern: [anchored] records a leading [^], with which a
    match can only start at offset 0. *)
Record Regexp := { anchored : bool; body : regexp }.

(** The rest of the text after the match that starts at offset 0. *)
Definition match_at (r : regexp) (s : text) : option text := exec r s Some.

(** The matched text, when the match at the start of [s] leaves [rest]. *)
Definition matched (s rest : text) : text := take (length s - length rest) s.

Fixpoint search (r : regexp) (s : text) : option text :=
  match match_at r s with
  | Some rest => Some (matched s rest)
  | None => match s with
            | [] => None
            | _ :: s' => search r s'
            end
  end.

(** The method [FindString] of a compiled pattern: the text of the leftmost
    match, or the empty string when there is none. *)
Definition FindString (re : Regexp) (s : string) : string :=
  let t := list_ascii_of_string s in
  let found := if anchored re
               then match match_at (body re) t with
                    | Some rest => Some (matched t rest)
                    | None => None
                    end
               else search (body re) t in
  match found with
  | Some m => string_of_list_ascii m
  | None => EmptyString
  end.

(** ** The character classes of the pattern *)

Definition in_range (lo hi : nat) (c : ascii) : bool :=
  ((lo <=? nat_of_ascii c) && (nat_of_ascii c <=? hi))%nat.

(** [\w] is [0-9A-Za-z_]. *)
Definition word (c : ascii) : bool :=
  in_range 48 57 c || in_range 65 90 c || in_range 97 122 c || Ascii.eqb c "_".

(** [[a-z]] *)
Definition lower (c : ascii) : bool := in_range 97 122 c.

(** [\s] is [\t\n\f\r ]. *)
Definition space (c : ascii) : bool :=
  let n := nat_of_ascii c in
  ((n =? 9) || (n =? 10) || (n =? 12) || (n =? 13) || (n =? 32))%nat.

(** The negated class of the path segments: every byte except the double
    quote, the single quote, [\s], [>], [<], the backslash, and the two
    braces. *)
Definition segment_char (c : ascii) : bool :=
  negb ((nat_of_ascii c =? 34)%nat || Ascii.eqb c "'" || space c
        || Ascii.eqb c ">" || Ascii.eqb c "<" || Ascii.eqb c "\"
        || Ascii.eqb c "{" || Ascii.eqb c "}").

(** ** The pattern of [_ExtractUrl]

    [^https?://(\w+\.)+[a-z]{2,5}(/C+)*] where [C] is the negated class
    [segment_char]. *)

Definition scheme : regexp :=
  Concat (LiteralString (list_ascii_of_string "http"))
    (Concat (Quest (Literal "s")) (LiteralString (list_ascii_of_string "://"))).

Definition label : regexp := Concat (Plus (CharClass word)) (Literal ".").
Definition labels : regexp := Plus label.
Definition tld : regexp := Repeat (CharClass lower) 2 3.
Definition segment : regexp := Concat (Literal "/") (Plus (CharClass segment_char)).
Definition path : regexp := Star segment.

Definition urlPattern : Regexp :=
  {| anchored := true;
     body := Concat scheme (Concat labels (Concat tld path)) |}.

Definition _ExtractUrl (url : string) : string := FindString urlPattern url.

(** A text of the form scheme://host(/path-segment)*, as the pattern has it. *)
Definition valid_url (w : text) : Prop := matches (body urlPattern) w.

(** The loop of a star in [exec], by its fuel. *)
Definition star_loop (r : regexp) (k : text -> option text) : nat -> text -> option text :=
  fix star (fuel : nat) (s : text) {struct fuel} : option text :=
    match fuel with
    | O => k s
    | S fuel' =>
        match exec r s (fun s1 =>
                if (length s1 <? length s)%nat then star fuel' s1 else None) with
        | Some x => Some x
        | None => k s
        end
    end.

(** A continuation that never returns more than it was given. *)
Definition shrinking (k : text -> option text) : Prop :=
  forall s x, k s = Some x -> length x <= length s.

(** The search from a part of the pattern to its end: the rest after the
    path, after the top-level domain and the path, after the labels of the
    host and what follows them. *)
Definition after_path : text -> option text := fun s => exec path s Some.
Definition after_tld : text -> option text := fun s => exec tld s after_path.
Definition after_labels : text -> option text := fun s => exec labels s after_tld.

End Regexp.

Import Regexp.

(* ===================================================================== *)
(** * The data model                                                      *)
(* ===================================================================== *)

(** [type User struct]; the field [Type] is spelled [Type_] here. *)
Module User.
Record t := Build
  { Login : string; Id : Z; Type_ : string; ReposUrl : string }.
Definition zero : t :=
  {| Login := ""; Id := 0; Type_ := ""; ReposUrl := "" |}.
End User.

(** [type Repository struct] *)
Module Repository.
Record t := Build
  { Id : Z; Owner : User.t; Name : string; FullName : string; Url : string }.
Definition zero : t :=
  {| Id := 0; Owner := User.zero; Name := ""; FullName := ""; Url := "" |}.
End Repository.

(** [type Organization struct] *)
Module Organization.
Record t := Build
  { Id : Z; Login : string; ReposUrl : string; MembersUrl : string }.
Definition zero : t :=
  {| Id := 0; Login := ""; ReposUrl := ""; MembersUrl := "" |}.
End Organization.

(** The address of a [Repository] variable ([*Repository]). *)
Definition addr := nat.

(** [type TargetFile struct]; [Repo] is a pointer, [None] being nil. *)
Module TargetFile.
Record t := Build
  { Filename : string; Data : string; Repo : option addr }.
Definition zero : t := {| Filename := ""; Data := ""; Repo := None |}.
End TargetFile.

(** How a Go function ends: a value, [log.Fatal] (the message is logged and
    the process exits), or a run-time panic. *)
Inductive Outcome (A : Type) : Type :=
| Ok (a : A)
| Fatal (msg : string)
| Panic (msg : string).
Arguments Ok {A} a.
Arguments Fatal {A} msg.
Arguments Panic {A} msg.

(* ===================================================================== *)
(** * encoding/json, as far as the three structs need it                  *)
(* ===================================================================== *)

Module Json.

(** A parsed JSON document.  A number literal without fraction and exponent
    is [JInt]; any other number literal is [JFloat] and keeps its text. *)
#[warnings="-register-all"] Inductive JSON : Type :=
| JNull
| JBool (b : bool)
| JInt (z : Z)
| JFloat (lit : string)
| JString (s : string)
| JArray (elems : list JSON)
| JObject (members : list (string * JSON)).

(** Keys are matched to the field tags case-insensitively.  The tags are
    lower-case ASCII, so folding a key means lowering [A-Z] and mapping the
    two non-ASCII runes that fold to ASCII letters: U+017F (bytes C5 BF) to
    [s] and U+212A (bytes E2 84 AA) to [k]. *)
Definition lower_byte (c : ascii) : ascii :=
  let n := nat_of_ascii c in
  if ((65 <=? n) && (n <=? 90))%nat then ascii_of_nat (n + 32) else c.

Fixpoint fold_bytes (s : list ascii) : list ascii :=
  match s with
  | [] => []
  | c :: s1 =>
      match s1 with
      | c2 :: s2 =>
          if ((nat_of_ascii c =? 197) && (nat_of_ascii c2 =? 191))%nat
          then "s"%char :: fold_bytes s2
          else
            match s2 with
            | c3 :: s3 =>
                if ((nat_of_ascii c =? 226) && (nat_of_ascii c2 =? 132)
                    && (nat_of_ascii c3 =? 170))%nat
                then "k"%char :: fold_bytes s3
                else lower_byte c :: fold_bytes s1
            | [] => lower_byte c :: fold_bytes s1
            end
      | [] => [lower_byte c]
      end
  end.

Definition key_is (tag key : string) : bool :=
  String.eqb (string_of_list_ascii (fold_bytes (list_ascii_of_string key))) tag.

(** [int] is 64 bits wide. *)
Definition fits_int (z : Z) : bool := ((- 2 ^ 63 <=? z) && (z <? 2 ^ 63))%Z.

(** Decoding a value into a field: [null] leaves the field as it is, a
    value of the wrong kind is an [UnmarshalTypeError] ([None]). *)
Definition into_int (v : JSON) (old : Z) : option Z :=
  match v with
  | JNull => Some old
  | JInt z => if fits_int z then Some z else None
  | _ => None
  end.

Definition into_string (v : JSON) (old : string) : option string :=
  match v with
  | JNull => Some old
  | JString s => Some s
  | _ => None
  end.

(** An object fills a struct member by member, in document order; a key
    that matches no tag is skipped. *)
Definition into_struct {T : Type} (set_field : T -> string -> JSON -> option T)
    (v : JSON) (old : T) : option T :=
  match v with
  | JNull => Some old
  | JObject members =>
      fold_left (fun acc kv =>
                   match acc with
                   | Some x => set_field x (fst kv) (snd kv)
                   | None => None
                   end) members (Some old)
  | _ => None
  end.

Definition set_User_field (u : User.t) (key : string) (v : JSON) : option User.t :=
  if key_is "login" key then
    match into_string v (User.Login u) with
    | Some s => Some (User.Build s (User.Id u) (User.Type_ u) (User.ReposUrl u))
    | None => None
    end
  else if key_is "id" key then
    match into_int v (User.Id u) with
    | Some z => Some (User.Build (User.Login u) z (User.Type_ u) (User.ReposUrl u))
    | None => None
    end
  else if key_is "type" key then
    match into_string v (User.Type_ u) with
    | Some s => Some (User.Build (User.Login u) (User.Id u) s (User.ReposUrl u))
    | None => None
    end
  else if key_is "repos_url" key then
    match into_string v (User.ReposUrl u) with
    | Some s => Some (User.Build (User.Login u) (User.Id u) (User.Type_ u) s)
    | None => None
    end
  else Some u.

Definition into_User : JSON -> User.t -> option User.t := into_struct set_User_field.

Definition set_Repository_field (r : Repository.t) (key : string) (v : JSON)
  : option Repository.t :=
  let '(Repository.Build id owner name full url) := r in
  if key_is "id" key then
    match into_int v id with
    | Some z => Some (Repository.Build z owner name full url)
    | None => None
    end
  else if key_is "owner" key then
    match into_User v owner with
    | Some u => Some (Repository.Build id u name full url)
    | None => None
    end
  else if key_is "name" key then
    match into_string v name with
    | Some s => Some (Repository.Build id owner s full url)
    | None => None
    end
  else if key_is "full_name" key then
    match into_string v full with
    | Some s => Some (Repository.Build id owner name s url)
    | None => None
    end
  else if key_is "clone_url" key then
    match into_string v url with
    | Some s => Some (Repository.Build id owner name full s)
    | None => None
    end
  else Some r.

Definition into_Repository : JSON -> Repository.t -> option Repository.t :=
  into_struct set_Repository_field.

Definition set_Organization_field (o : Organization.t) (key : string) (v : JSON)
  : option Organization.t :=
  let '(Organization.Build id login repos members) := o in
  if key_is "id" key then
    match into_int v id with
    | Some z => Some (Organization.Build z login repos members)
    | None => None
    end
  else if key_is "login" key then
    match into_string v login with
    | Some s => Some (Organization.Build id s repos members)
    | None => None
    end
  else if key_is "repos_url" key then
    match into_string v repos with
    | Some s => Some (Organization.Build id login s members)
    | None => None
    end
  else if key_is "members_url" key then
    match into_string v members with
    | Some s => Some (Organization.Build id login repos s)
    | None => None
    end
  else Some o.

Definition into_Organization : JSON -> Organization.t -> option Organization.t :=
  into_struct set_Organization_field.

(** An array fills a slice element by element, each from its zero value;
    [null] gives the nil slice. *)
Fixpoint into_elems {T : Type} (into : JSON -> T -> option T) (zero : T)
    (elems : list JSON) : option (list T) :=
  match elems with
  | [] => Some []
  | v :: rest =>
      match into v zero, into_elems into zero rest with
      | Some x, Some xs => Some (x :: xs)
      | _, _ => None
      end
  end.

Definition into_slice {T : Type} (into : JSON -> T -> option T) (zero : T)
    (v : JSON) : option (list T) :=
  match v with
  | JNull => Some []
  | JArray elems => into_elems into zero elems
  | _ => None
  end.

Section Unmarshal.

(** The syntax of JSON text is left to the parser: [parse body] is [None]
    exactly when [body] is not valid JSON. *)
Variable parse : string -> option JSON.

(** [json.Unmarshal(body, &v)], for the three targets of main.go; [None] is
    a non-nil error. *)
Definition Unmarshal {T : Type} (into : JSON -> option T) (body : string) : option T :=
  match parse body with
  | Some v => into v
  | None => None
  end.

Definition Unmarshal_Organization : string -> option Organization.t :=
  Unmarshal (fun v => into_Organization v Organization.zero).
Definition Unmarshal_Users : string -> option (list User.t) :=
  Unmarshal (into_slice into_User User.zero).
Definition Unmarshal_Repositories : string -> option (list Repository.t) :=
  Unmarshal (into_slice into_Repository Repository.zero).

End Unmarshal.

End Json.

(* ===================================================================== *)
(** * The HTTP operations and the repository set builder                  *)
(* ===================================================================== *)

Module Api.

(** What the process does to the outside, in order. *)
Inductive Event : Type :=
| Get (url : string)          (* http.Get(url) *)
| Println (line : string)     (* fmt.Println *)
| LogFatal (msg : string).    (* log.Fatal *)

(** What [http.Get] returns: an error, or a response with its status code
    and the bytes [ioutil.ReadAll] reads from its body. *)
Inductive HttpResult : Type :=
| TransportError
| Response (StatusCode : Z) (Body : string).

(** A computation runs on the events so far and extends them. *)
Definition M (A : Type) : Type := list Event -> Outcome A * list Event.

Definition ret {A : Type} (a : A) : M A := fun tr => (Ok a, tr).

Definition bind {A B : Type} (m : M A) (f : A -> M B) : M B :=
  fun tr =>
    match m tr with
    | (Ok a, tr') => f a tr'
    | (Fatal msg, tr') => (Fatal msg, tr')
    | (Panic msg, tr') => (Panic msg, tr')
    end.

Notation "x <- m ;; k" := (bind m (fun x => k))
  (at level 100, m at next level, right associativity).

Definition log_Fatal {A : Type} (msg : string) : M A :=
  fun tr => (Fatal msg, tr ++ [LogFatal msg]).

Definition fmt_Println (line : string) : M unit :=
  fun tr => (Ok tt, tr ++ [Println line]).

Section Remote.

(** The remote side: the answer to a GET may depend on everything the
    process did before. *)
Variable remote : list Event -> string -> HttpResult.
Variable parse : string -> option Json.JSON.

Definition http_Get (url : string) : M HttpResult :=
  fun tr => (Ok (remote tr url), tr ++ [Get url]).

(** [func _GetRepositories(url string) []Repository] *)
Definition _GetRepositories (url : string) : M (list Repository.t) :=
  response <- http_Get url ;;
  match response with
  | TransportError => log_Fatal "could not fetch repos"
  | Response StatusCode body =>
      if (StatusCode =? 403)%Z then log_Fatal "rate limited by github"
      else match Json.Unmarshal_Repositories parse body with
           | None => log_Fatal "could not parse json response for repos"
           | Some repos => ret repos
           end
  end.

(** [func (u *User) GetRepositories() []Repository] *)
Definition User_GetRepositories (u : User.t) : M (list Repository.t) :=
  _GetRepositories (_ExtractUrl (User.ReposUrl u)).

(** [func (org *Organization) GetRepositories() []Repository] *)
Definition Organization_GetRepositories (org : Organization.t) : M (list Repository.t) :=
  _GetRepositories (_ExtractUrl (Organization.ReposUrl org)).

(** [func GetOrganization(url string) *Organization] *)
Definition GetOrganization (url : string) : M Organization.t :=
  response <- http_Get url ;;
  match response with
  | TransportError => log_Fatal ("could not get organization for url " ++ url)
  | Response StatusCode body =>
      if (StatusCode =? 403)%Z
      then log_Fatal "could not fetch organization, rate limited by github"
      else match Json.Unmarshal_Organization parse body with
           | None => log_Fatal "could not parse response as json at get organization"
           | Some org => ret org
           end
  end.

(** [func (org *Organization) GetMembers() []User] *)
Definition Organization_GetMembers (org : Organization.t) : M (list User.t) :=
  response <- http_Get (Organization.MembersUrl org) ;;
  _ <- fmt_Println ("members url: " ++ " " ++ _ExtractUrl (Organization.MembersUrl org)) ;;
  match response with
  | TransportError =>
      log_Fatal ("could not get members for url " ++ Organization.MembersUrl org)
  | Response StatusCode body =>
      if (StatusCode =? 403)%Z then log_Fatal "rate limited by github"
      else match Json.Unmarshal_Users parse body with
           | None => ret []
           | Some users => ret users
           end
  end.

(** The condition of the [continue] in the inner loop of [FullRecon]. *)
Definition org_owned (org : Organization.t) (repo : Repository.t) : bool :=
  String.eqb (User.Type_ (Repository.Owner repo)) "Organization"
  && String.eqb (User.Login (Repository.Owner repo)) (Organization.Login org).

(** The inner loop: [for _, repo := range userRepos]. *)
Definition append_user_repos (org : Organization.t)
    (repos userRepos : list Repository.t) : list Repository.t :=
  fold_left (fun repos repo =>
               if org_owned org repo then repos else repos ++ [repo])
            userRepos repos.

(** The outer loop: [for _, user := range users]. *)
Fixpoint append_members (org : Organization.t) (users : list User.t)
    (repos : list Repository.t) : M (list Repository.t) :=
  match users with
  | [] => ret repos
  | user :: rest =>
      userRepos <- User_GetRepositories user ;;
      append_members org rest (append_user_repos org repos userRepos)
  end.

(** [FullRecon] up to the comment "get all data in all repositories": the
    organization and the merged repository list. *)
Definition FullRecon_discover (url : string) : M (Organization.t * list Repository.t) :=
  org <- GetOrganization url ;;
  users <- Organization_GetMembers org ;;
  repos <- Organization_GetRepositories org ;;
  merged <- append_members org users repos ;;
  ret (org, merged).

(** The member lists fetched one after the other, for the statement of what
    the set builder computes. *)
Fixpoint fetch_members (users : list User.t) : M (list (list Repository.t)) :=
  match users with
  | [] => ret []
  | user :: rest =>
      userRepos <- User_GetRepositories user ;;
      others <- fetch_members rest ;;
      ret (userRepos :: others)
  end.

End Remote.

(** A repository of a member is kept when the [continue] is not taken. *)
Definition kept (org : Organization.t) (repo : Repository.t) : bool :=
  negb (org_owned org repo).

(** The number of entries of a list that carry a given repository id. *)
Definition count_id (id : Z) (l : list Repository.t) : nat :=
  length (List.filter (fun r => (Repository.Id r =? id)%Z) l).

(** The events of [Organization_GetMembers] up to its look at the response. *)
Definition members_events (org : Organization.t) : list Event :=
  [Get (Organization.MembersUrl org);
   Println ("members url: " ++ " " ++ _ExtractUrl (Organization.MembersUrl org))].

(** The requests of the outer loop of [FullRecon], one per member. *)
Definition member_requests (users : list User.t) : list Event :=
  List.map (fun u => Get (_ExtractUrl (User.ReposUrl u))) users.

Definition is_LogFatal (e : Event) : bool :=
  match e with
  | LogFatal _ => true
  | _ => false
  end.

Definition silent (ev : list Event) : Prop := Forall (fun e => is_LogFatal e = false) ev.

(** The events [ev] a computation added agree with its outcome: a value
    comes without a [log.Fatal]; a fatal end comes with one [log.Fatal], of
    its message, as the last event; there is no panic. *)
Definition accounts_for {A : Type} (out : Outcome A) (ev : list Event) : Prop :=
  match out with
  | Ok _ => silent ev
  | Fatal msg => exists ev0, ev = ev0 ++ [LogFatal msg] /\ silent ev0
  | Panic _ => False
  end.

Definition accountable {A : Type} (m : M A) : Prop :=
  forall tr, exists ev, snd (m tr) = tr ++ ev /\ accounts_for (fst (m tr)) ev.

(** A key that matches no tag of [Organization]. *)
Definition no_Organization_key (key : string) : Prop :=
  Json.key_is "id" key = false /\ Json.key_is "login" key = false
  /\ Json.key_is "repos_url" key = false /\ Json.key_is "members_url" key = false.

End Api.


(* ===================================================================== *)
(** * The tree flattener                                                  *)
(* ===================================================================== *)

Module Flatten.

(** [plumbing.Hash], the 20 bytes of an object id. *)
Abbreviation Hash := string.

(** [filemode.FileMode], with the constants of go-git (octal in the source). *)
Module filemode.
Definition FileMode := N.
Definition Empty : FileMode := 0%N.
Definition Dir : FileMode := 16384%N.          (* 0040000 *)
Definition Regular : FileMode := 33188%N.      (* 0100644 *)
Definition Deprecated : FileMode := 33204%N.   (* 0100664 *)
Definition Executable : FileMode := 33261%N.   (* 0100755 *)
Definition Symlink : FileMode := 40960%N.      (* 0120000 *)
Definition Submodule : FileMode := 57344%N.    (* 0160000 *)
End filemode.

(** [object.TreeEntry] *)
Module TreeEntry.
Record t := Build { Name : string; Mode : filemode.FileMode; Hash : Hash }.
End TreeEntry.

(** [memory.Storage] after the clone: the two object maps [ParseRepository]
    ranges over, each as the list of its (key, object) pairs in the order
    the [range] statement visits them.  A tree is given decoded, a blob by
    the bytes its reader yields; the key of an object is its [Hash()]. *)
Record Storage := BuildStorage
  { Trees : list (Hash * list TreeEntry.t);
    Blobs : list (Hash * string) }.

(** The inner loop over [tree.Entries]. *)
Definition record_entries (names : gmap string string) (entries : list TreeEntry.t)
  : gmap string string :=
  fold_left (fun names entry =>
               if (TreeEntry.Mode entry =? filemode.Regular)%N
               then <[TreeEntry.Hash entry := TreeEntry.Name entry]> names
               else names)
            entries names.

(** The loop over [storer.Trees], from [names := make(map...)]. *)
Definition collect_names (trees : list (Hash * list TreeEntry.t)) : gmap string string :=
  fold_left (fun names binTree => record_entries names (snd binTree)) trees ∅.

(** The loop over [storer.Blobs]: [targets[i] = TargetFile{...}; i++].  An
    index assignment outside the slice panics. *)
Fixpoint fill (names : gmap string string) (repo : option addr)
    (blobs : list (Hash * string)) (i : nat) (targets : list TargetFile.t)
  : Outcome (list TargetFile.t) :=
  match blobs with
  | [] => Ok targets
  | obj :: rest =>
      if (i <? length targets)%nat
      then fill names repo rest (S i)
             (<[i := TargetFile.Build (default ""%string (names !! fst obj)) (snd obj) repo]>
                targets)
      else Panic "index out of range"
  end.

(** Lines 79 to 105 of [ParseRepository]. *)
Definition flatten (storer : Storage) (repo : option addr) : Outcome (list TargetFile.t) :=
  let names := collect_names (Trees storer) in
  let targets := replicate (size names) TargetFile.zero in
  fill names repo (Blobs storer) 0 targets.

(** The record the blob loop writes for a blob. *)
Definition target_of (names : gmap string string) (repo : option addr)
    (obj : string * string) : TargetFile.t :=
  TargetFile.Build (default ""%string (names !! fst obj)) (snd obj) repo.

(** A hash is referenced when some tree has an entry of mode regular file
    with that hash. *)
Definition referenced (trees : list (string * list TreeEntry.t)) (h : string) : Prop :=
  exists tree entry,
    In tree trees /\ In entry (snd tree)
    /\ TreeEntry.Mode entry = filemode.Regular /\ TreeEntry.Hash entry = h.

(** The names the regular-file entries give to a hash, in the order the
    two tree loops visit the entries. *)
Definition names_in (entries : list TreeEntry.t) (h : string) : list string :=
  List.map TreeEntry.Name
    (List.filter (fun e => (TreeEntry.Mode e =? filemode.Regular)%N
                           && String.eqb (TreeEntry.Hash e) h) entries).

Definition regular_names (trees : list (string * list TreeEntry.t)) (h : string)
  : list string :=
  names_in (flat_map snd trees) h.

Section Clone.

(** [git.Clone] into a new [memory.Storage]: the objects the storage holds
    afterwards, or [None] for an error. *)
Variable git_Clone : string -> option Storage.

(** [func ParseRepository(fs *billy.Filesystem, repo *Repository) []TargetFile],
    where [repo] is the pointer and [deref] the value it points to when
    the function runs. *)
Definition ParseRepository (repo : addr) (deref : Repository.t)
  : Outcome (list TargetFile.t) :=
  match git_Clone (Repository.Url deref) with
  | None => Fatal ("could not fetch " ++ Repository.FullName deref)
  | Some storer => flatten storer (Some repo)
  end.

End Clone.

End Flatten.

(* ===================================================================== *)
(** * The concurrent dispatch of FullRecon                                *)
(* ===================================================================== *)

Module Dispatch.

(** The identity of a heap object: a [memory.Storage] or a [memfs]. *)
Definition loc := nat.

(** Who moves next: the goroutine of [FullRecon] or the n-th spawned one. *)
Inductive Actor : Type :=
| MainThread
| TaskThread (t : nat).

(** Where [FullRecon] stands, from [fs := memfs.New()] on. *)
Inductive MainState : Type :=
| Start                (* before fs := memfs.New() *)
| Looping (i : nat)    (* at the head of the range loop, i repositories sent *)
| Sending (i : nat)    (* blocked in input <- &repo of iteration i *)
| Waiting              (* in wg.Wait() *)
| Returned.

(** Where a spawned goroutine stands. *)
Inductive TaskState : Type :=
| Receiving                              (* blocked in <-input *)
| Parsing (repo : addr)                  (* entering ParseRepository(fs, repo) *)
| Cloning (repo : addr) (storer : loc)   (* storer allocated, before git.Clone *)
| Ranging (files : list TargetFile.t) (file hook : nat) (inside : bool)
| Done.                                  (* wg.Done() ran *)

Record Task := BuildTask { fs_arg : loc; pc : TaskState }.

(** The calls of hooks: [Enter t n h] when task [t] calls hook [h] on its
    n-th file, [Leave t n h] when that call returns. *)
Inductive CallEvent : Type :=
| Enter (task file hook : nat)
| Leave (task file hook : nat).

(** One call of [git.Clone]: the task, its pointer [repo], the store and
    the filesystem the call was given, and the value of [*repo] it read. *)
Record Acquisition := BuildAcquisition
  { by_task : nat; repo_ptr : addr; into_storer : loc; into_fs : loc;
    of_repo : Repository.t }.

Section FullRecon.

Context {W : Type}.

(** A hook receives the file; it may follow [file.Repo] into the memory,
    which maps the address of a [Repository] variable to its value, and
    change the state [W] of its own. *)
Definition Hook : Type := TargetFile.t -> gmap nat Repository.t -> W -> W.

Variable git_Clone : string -> option Flatten.Storage.
Variable hooks : list Hook.
Variable repos : list Repository.t.

(** The address of the loop variable [repo] in iteration [i]. *)
Variable loopvar : nat -> addr.

Record State := BuildState
  { main : MainState;
    memory : gmap nat Repository.t;
    next : loc;                       (* the next unused object identity *)
    fs : loc;
    tasks : list Task;
    wg : nat;
    world : W;
    calls : list CallEvent;
    acquisitions : list Acquisition;
    exited : option string }.         (* the process ended in log.Fatal or a panic *)

Definition initial (w : W) : State :=
  {| main := Start; memory := ∅; next := 0; fs := 0; tasks := []; wg := 0;
     world := w; calls := []; acquisitions := []; exited := None |}.

Definition set_main (m : MainState) (s : State) : State :=
  BuildState m (memory s) (next s) (fs s) (tasks s) (wg s) (world s) (calls s)
    (acquisitions s) (exited s).

Definition set_task (t : nat) (task : Task) (s : State) : State :=
  BuildState (main s) (memory s) (next s) (fs s) (<[t := task]> (tasks s)) (wg s)
    (world s) (calls s) (acquisitions s) (exited s).

Definition set_pc (t : nat) (task : Task) (p : TaskState) (s : State) : State :=
  set_task t (BuildTask (fs_arg task) p) s.

Definition exit (msg : string) (s : State) : State :=
  BuildState (main s) (memory s) (next s) (fs s) (tasks s) (wg s) (world s) (calls s)
    (acquisitions s) (Some msg).

(** A step of the goroutine of [FullRecon]. *)
Definition step_main (s : State) : option State :=
  match main s with
  | Start =>
      (* fs := memfs.New(); wg := ...; input := make(chan *Repository) *)
      Some (BuildState (Looping 0) (memory s) (S (next s)) (next s) (tasks s) (wg s)
              (world s) (calls s) (acquisitions s) (exited s))
  | Looping i =>
      match repos !! i with
      | Some repo =>
          (* repo = repos[i]; wg.Add(1); go func(fs){...}(&fs) *)
          Some (BuildState (Sending i) (<[loopvar i := repo]> (memory s)) (next s) (fs s)
                  (tasks s ++ [BuildTask (fs s) Receiving]) (S (wg s))
                  (world s) (calls s) (acquisitions s) (exited s))
      | None => Some (set_main Waiting s)
      end
  | Sending _ => None
  | Waiting => if (wg s =? 0)%nat then Some (set_main Returned s) else None
  | Returned => None
  end.

(** A step of the t-th spawned goroutine. *)
Definition step_task (t : nat) (s : State) : option State :=
  match tasks s !! t with
  | None => None
  | Some task =>
      match pc task with
      | Receiving =>
          (* the unbuffered channel: <-input meets input <- &repo *)
          match main s with
          | Sending i => Some (set_main (Looping (S i)) (set_pc t task (Parsing (loopvar i)) s))
          | _ => None
          end
      | Parsing repo =>
          (* storer := memory.NewStorage() *)
          Some (set_pc t task (Cloning repo (next s))
                  (BuildState (main s) (memory s) (S (next s)) (fs s) (tasks s) (wg s)
                     (world s) (calls s) (acquisitions s) (exited s)))
      | Cloning repo storer =>
          (* git.Clone(storer, *fs, {URL: repo.Url}) and the two loops that
             build the targets *)
          match memory s !! repo with
          | None => Some (exit "nil pointer dereference" s)
          | Some deref =>
              let s' := BuildState (main s) (memory s) (next s) (fs s) (tasks s) (wg s)
                          (world s) (calls s)
                          (acquisitions s ++ [BuildAcquisition t repo storer (fs_arg task) deref])
                          (exited s) in
              match Flatten.ParseRepository git_Clone repo deref with
              | Ok files => Some (set_pc t task (Ranging files 0 0 false) s')
              | Fatal msg => Some (exit msg s')
              | Panic msg => Some (exit msg s')
              end
          end
      | Ranging files n h inside =>
          match files !! n with
          | None =>
              (* the range over the files is over; the deferred wg.Done() *)
              Some (set_pc t task Done
                      (BuildState (main s) (memory s) (next s) (fs s) (tasks s)
                         (pred (wg s)) (world s) (calls s) (acquisitions s) (exited s)))
          | Some file =>
              match hooks !! h with
              | None => Some (set_pc t task (Ranging files (S n) 0 false) s)
              | Some f =>
                  if inside
                  then Some (set_pc t task (Ranging files n (S h) false)
                               (BuildState (main s) (memory s) (next s) (fs s) (tasks s)
                                  (wg s) (f file (memory s) (world s))
                                  (calls s ++ [Leave t n h]) (acquisitions s) (exited s)))
                  else Some (set_pc t task (Ranging files n h true)
                               (BuildState (main s) (memory s) (next s) (fs s) (tasks s)
                                  (wg s) (world s)
                                  (calls s ++ [Enter t n h]) (acquisitions s) (exited s)))
              end
          end
      | Done => None
      end
  end.

(** One step of the process; nothing moves once it has exited. *)
Definition step (a : Actor) (s : State) : option State :=
  match exited s with
  | Some _ => None
  | None =>
      match a with
      | MainThread => step_main s
      | TaskThread t => step_task t s
      end
  end.

(** A run under a schedule. *)
Fixpoint run (schedule : list Actor) (s : State) : option State :=
  match schedule with
  | [] => Some s
  | a :: rest =>
      match step a s with
      | Some s' => run rest s'
      | None => None
      end
  end.

(** The states [FullRecon] can be in, over all schedules. *)
Definition reachable (w : W) (s : State) : Prop :=
  exists schedule, run schedule (initial w) = Some s.

(** Among the acquisitions [acq], task [t] has cloned and flattened, and
    [files] is what it got. *)
Definition acquired (acq : list Acquisition) (t : nat) (files : list TargetFile.t) : Prop :=
  exists a,
    In a acq /\ by_task a = t
    /\ Flatten.ParseRepository git_Clone (repo_ptr a) (of_repo a) = Ok files.

(** The hook calls of one task, in the order they happened. *)
Definition of_task (t : nat) (e : CallEvent) : bool :=
  match e with
  | Enter t' _ _ => (t' =? t)%nat
  | Leave t' _ _ => (t' =? t)%nat
  end.

Definition calls_of (t : nat) (s : State) : list CallEvent :=
  List.filter (of_task t) (calls s).

Definition event_task (e : CallEvent) : nat :=
  match e with
  | Enter t _ _ => t
  | Leave t _ _ => t
  end.

(** The hook calls of task [t] on its n-th file up to hook [H], then on its
    first [F] files with [H] hooks, then up to a point inside the loops. *)
Definition hook_calls (t n H : nat) : list CallEvent :=
  flat_map (fun h => [Enter t n h; Leave t n h]) (seq 0 H).

Definition task_calls (t F H : nat) : list CallEvent :=
  flat_map (fun n => hook_calls t n H) (seq 0 F).

Definition calls_before (t H n h : nat) (inside : bool) : list CallEvent :=
  task_calls t n H ++ hook_calls t n h ++ (if inside then [Enter t n h] else []).

(** What the calls [cs] so far hold of task [t], by where the task stands. *)
Definition task_inv (cs : list CallEvent) (acq : list Acquisition) (t : nat)
    (task : Task) : Prop :=
  match pc task with
  | Ranging files n h inside =>
      List.filter (of_task t) cs = calls_before t (length hooks) n h inside
      /\ acquired acq t files
      /\ n <= length files /\ h <= length hooks
      /\ (inside = true -> h < length hooks /\ n < length files)
      /\ (n = length files -> h = 0)
  | Done =>
      exists files,
        acquired acq t files
        /\ List.filter (of_task t) cs = task_calls t (length files) (length hooks)
  | _ => List.filter (of_task t) cs = []
  end.

Definition calls_inv (ts : list Task) (cs : list CallEvent) (acq : list Acquisition) : Prop :=
  (forall t, length ts <= t -> List.filter (of_task t) cs = [])
  /\ (forall t task, ts !! t = Some task -> task_inv cs acq t task).

(** The files a task ranges over: what [ParseRepository] returned to it,
    read off its acquisition. *)
Definition files_of (acq : list Acquisition) (t : nat) : list TargetFile.t :=
  match List.find (fun a => (by_task a =? t)%nat) acq with
  | Some a =>
      match Flatten.ParseRepository git_Clone (repo_ptr a) (of_repo a) with
      | Ok files => files
      | _ => []
      end
  | None => []
  end.

(** What a call does to the state of the hooks when it returns: [Leave t n h]
    is hook [h] of the list applied to file [n] of task [t], in the memory
    the call ran in. *)
Definition apply_call (acq : list Acquisition) (e : CallEvent)
    (m : gmap nat Repository.t) (w : W) : W :=
  match e with
  | Enter _ _ _ => w
  | Leave t n h =>
      match hooks !! h, files_of acq t !! n with
      | Some f, Some file => f file m w
      | _, _ => w
      end
  end.

Definition replay (acq : list Acquisition)
    (log : list (CallEvent * gmap nat Repository.t)) (w : W) : W :=
  fold_left (fun w em => apply_call acq (fst em) (snd em) w) log w.

(** The calls a run makes, each with the memory it was made in. *)
Fixpoint history (schedule : list Actor) (s : State)
  : list (CallEvent * gmap nat Repository.t) :=
  match schedule with
  | [] => []
  | a :: rest =>
      match step a s with
      | Some s' =>
          List.map (fun e => (e, memory s)) (drop (length (calls s)) (calls s'))
          ++ history rest s'
      | None => []
      end
  end.

(** What a step does to the calls and to the state of the hooks: nothing;
    or task [t] enters hook [h] of the list on file [n] of its files; or
    that call returns, and the state of the hooks is what the hook made of
    it. *)
Definition call_step (s s' : State) : Prop :=
  (calls s' = calls s /\ world s' = world s)
  \/ exists t n h files file f,
       acquired (acquisitions s) t files
       /\ files !! n = Some file /\ hooks !! h = Some f
       /\ ((calls s' = calls s ++ [Enter t n h] /\ world s' = world s)
           \/ (calls s' = calls s ++ [Leave t n h]
               /\ world s' = f file (memory s) (world s))).

End FullRecon.

Arguments hook_calls : simpl never.
Arguments task_calls : simpl never.
Arguments calls_before : simpl never.

Definition state_calls_inv {W : Type} (git_Clone : string -> option Flatten.Storage)
    (hooks : list (@Hook W)) (s : @State W) : Prop :=
  calls_inv git_Clone hooks (tasks s) (calls s) (acquisitions s).

(** A task that has not yet run its [wg.Done()]. *)
Definition not_done (task : Task) : bool :=
  match pc task with
  | Done => false
  | _ => true
  end.

Definition pending (ts : list Task) : nat := length (List.filter not_done ts).

(** The pointer a task has received and not yet used. *)
Definition task_ptr (task : Task) : option addr :=
  match pc task with
  | Parsing p => Some p
  | Cloning p _ => Some p
  | _ => None
  end.

(** The hand-over and the join: one task per iteration begun, only the task
    just spawned waits on the channel, every task holds the pointer of its
    own iteration, and the WaitGroup counts the tasks that are not done. *)
Record sync_inv (repos : list Repository.t) (loopvar : nat -> addr)
    (m : MainState) (ts : list Task) (wg : nat) (acq : list Acquisition) : Prop := {
  sync_count :
    match m with
    | Start => length ts = 0
    | Looping i => length ts = i /\ i <= length repos
    | Sending i => length ts = S i /\ i < length repos
    | Waiting => length ts = length repos
    | Returned => length ts = length repos
    end;
  sync_recv : forall t task, ts !! t = Some task -> pc task = Receiving -> m = Sending t;
  sync_ptr : forall t task p, ts !! t = Some task -> task_ptr task = Some p -> p = loopvar t;
  sync_acq : forall a, In a acq -> repo_ptr a = loopvar (by_task a) /\ by_task a < length ts;
  sync_wg : wg = pending ts;
  sync_join : m = Returned -> wg = 0
}.

Definition state_sync_inv {W : Type} (repos : list Repository.t) (loopvar : nat -> addr)
    (s : @State W) : Prop :=
  sync_inv repos loopvar (main s) (tasks s) (wg s) (acquisitions s).

(** With a variable per iteration, the variable of every iteration begun
    holds the repository of that iteration, and every acquisition read the
    repository its task was spawned for. *)
Definition state_repo_inv {W : Type} (repos : list Repository.t) (loopvar : nat -> addr)
    (s : @State W) : Prop :=
  (forall i, i < length (tasks s) -> memory s !! loopvar i = repos !! i)
  /\ (forall a, In a (acquisitions s) -> repos !! by_task a = Some (of_repo a)).

(** The index of the hook an event is about. *)
Definition event_hook (e : CallEvent) : nat :=
  match e with
  | Enter _ _ h => h
  | Leave _ _ h => h
  end.

(** In the calls of a task the return from a hook comes right after its
    entry, and before the entry of every later call: later hook on the same
    file, or any hook on a later file. *)
Definition in_order (t H : nat) (l : list CallEvent) : Prop :=
  (forall i n h, l !! i = Some (Leave t n h) -> exists i', i = S i' /\ l !! i' = Some (Enter t n h))
  /\ (forall i j n h n' h',
        l !! i = Some (Leave t n h) -> l !! j = Some (Enter t n' h') ->
        n < n' \/ (n = n' /\ h < h') -> i < j).

(** The loop variable of a [range] loop before Go 1.22: one variable,
    assigned anew in each iteration. *)
Definition shared_loopvar : nat -> addr := fun _ => 0.

(** From Go 1.22 on each iteration has a variable of its own. *)
Definition fresh_loopvar : nat -> addr := fun i => i.

(** [func FullRecon(url string, hooks []func(TargetFile))]: the states of a
    call whose discovery succeeds; the call has returned in the states with
    [main s = Returned]. *)
Definition FullRecon {W : Type} (remote : list Api.Event -> string -> Api.HttpResult)
    (parse : string -> option Json.JSON)
    (git_Clone : string -> option Flatten.Storage) (loopvar : nat -> addr)
    (url : string) (hooks : list (@Hook W)) (w : W) (s : @State W) : Prop :=
  exists org repos tr,
    Api.FullRecon_discover remote parse url [] = (Ok (org, repos), tr)
    /\ reachable git_Clone hooks repos loopvar w s.

(** The store a task has allocated and not yet cloned into. *)
Definition storer_of (task : Task) : option loc :=
  match pc task with
  | Cloning _ storer => Some storer
  | _ => None
  end.

(** The stores are pairwise different and different from the filesystem,
    and the filesystem of every task and of every acquisition is the one
    [FullRecon] made: on the exit status, the state of [FullRecon], the
    allocator, the filesystem, the tasks and the acquisitions of a state. *)
Record alloc_inv (e : option string) (m : MainState) (n f : loc)
    (ts : list Task) (acq : list Acquisition) : Prop := {
  inv_start : m = Start -> ts = [] /\ acq = [];
  inv_fs : m <> Start -> f < n;
  inv_fs_arg : forall t task, ts !! t = Some task -> fs_arg task = f;
  inv_storer : forall t task l,
      ts !! t = Some task -> storer_of task = Some l -> l < n /\ l <> f;
  inv_storers : forall t t' task task' l,
      t <> t' -> ts !! t = Some task -> ts !! t' = Some task' ->
      storer_of task = Some l -> storer_of task' <> Some l;
  inv_acq : forall i a,
      acq !! i = Some a -> into_storer a < n /\ into_storer a <> f /\ into_fs a = f;
  inv_acqs : forall i j a b,
      i <> j -> acq !! i = Some a -> acq !! j = Some b ->
      into_storer a <> into_storer b;
  inv_acq_storer : e = None -> forall t task l i a,
      ts !! t = Some task -> storer_of task = Some l ->
      acq !! i = Some a -> into_storer a <> l
}.

(** The place of a call in the order file by file, hook by hook, entry
    before return, with [H] hooks. *)
Definition stamp (H : nat) (e : CallEvent) : nat :=
  match e with
  | Enter _ n h => 2 * (n * H + h)
  | Leave _ n h => 2 * (n * H + h) + 1
  end.

Definition state_alloc_inv {W : Type} (s : @State W) : Prop :=
  alloc_inv (exited s) (main s) (next s) (fs s) (tasks s) (acquisitions s).

(** A task that holds the files of its repository. *)
Definition has_files (task : Task) : bool :=
  match pc task with
  | Ranging _ _ _ _ => true
  | Done => true
  | _ => false
  end.

(** The message a function ends the process with. *)
Definition failure {A : Type} (o : Outcome A) : option string :=
  match o with
  | Ok _ => None
  | Fatal msg => Some msg
  | Panic msg => Some msg
  end.

(** While [FullRecon] is blocked in the send of iteration [i], the task of
    that iteration is blocked in the receive. *)
Definition state_send_inv {W : Type} (s : @State W) : Prop :=
  forall i, main s = Sending i ->
            exists task, tasks s !! i = Some task /\ pc task = Receiving.

(** The loop variable of every iteration begun has been assigned. *)
Definition state_memory_inv {W : Type} (loopvar : nat -> addr) (s : @State W) : Prop :=
  forall i, i < length (tasks s) -> is_Some (memory s !! loopvar i).

(** A task clones once: the acquisitions are of different tasks, and while
    the process runs each is of a task that holds its files; a process that
    has exited has a task in its clone. *)
Definition state_once_inv {W : Type} (s : @State W) : Prop :=
  NoDup (List.map by_task (acquisitions s))
  /\ match exited s with
     | None =>
         forall a, In a (acquisitions s) ->
                   exists task, tasks s !! by_task a = Some task /\ has_files task = true
     | Some _ =>
         exists t task p l, tasks s !! t = Some task /\ pc task = Cloning p l
     end.

(** The process exits with the message of the last acquisition's failure. *)
Definition state_exit_inv {W : Type} (git_Clone : string -> option Flatten.Storage)
    (s : @State W) : Prop :=
  forall msg, exited s = Some msg ->
    exists a, last (acquisitions s) = Some a
              /\ failure (Flatten.ParseRepository git_Clone (repo_ptr a) (of_repo a))
                 = Some msg.

(** With the one loop variable, it holds the repository of the latest
    iteration begun, and an acquisition read the repository of the
    iteration of its task or of a later one. *)
Definition state_shared_inv {W : Type} (repos : list Repository.t) (s : @State W) : Prop :=
  (forall n, length (tasks s) = S n -> memory s !! shared_loopvar n = repos !! n)
  /\ (forall a, In a (acquisitions s) ->
                exists j, by_task a <= j /\ repos !! j = Some (of_repo a)).

End Dispatch.


(* ===================================================================== *)
(** * A test organisation                                                 *)
(* ===================================================================== *)

(** The organisation [acme] with the members [bob] and [carol], served by a
    fixed remote; used to evaluate the operations on concrete inputs. *)
Module Acme.

Import Json Api.
Local Open Scope string_scope.

Definition quote : string := String (ascii_of_nat 34) EmptyString.

Definition render_int (z : Z) : string := DecimalString.NilZero.string_of_int (Z.to_int z).

(** JSON text of a document (strings are written without escapes). *)
Fixpoint render (v : JSON) : string :=
  match v with
  | JNull => "null"
  | JBool b => if b then "true" else "false"
  | JInt z => render_int z
  | JFloat lit => lit
  | JString s => quote ++ s ++ quote
  | JArray elems =>
      "[" ++ (fix go (l : list JSON) : string :=
                match l with
                | [] => ""
                | [x] => render x
                | x :: l' => render x ++ "," ++ go l'
                end) elems ++ "]"
  | JObject members =>
      "{" ++ (fix go (l : list (string * JSON)) : string :=
                match l with
                | [] => ""
                | [(k, x)] => quote ++ k ++ quote ++ ":" ++ render x
                | (k, x) :: l' => quote ++ k ++ quote ++ ":" ++ render x ++ "," ++ go l'
                end) members ++ "}"
  end.

Definition doc_User (u : User.t) : JSON :=
  JObject [("login", JString (User.Login u)); ("id", JInt (User.Id u));
           ("type", JString (User.Type_ u)); ("repos_url", JString (User.ReposUrl u))]%string.

Definition doc_Repository (r : Repository.t) : JSON :=
  JObject [("id", JInt (Repository.Id r)); ("owner", doc_User (Repository.Owner r));
           ("name", JString (Repository.Name r));
           ("full_name", JString (Repository.FullName r));
           ("clone_url", JString (Repository.Url r))]%string.

Definition doc_Organization (o : Organization.t) : JSON :=
  JObject [("id", JInt (Organization.Id o)); ("login", JString (Organization.Login o));
           ("repos_url", JString (Organization.ReposUrl o));
           ("members_url", JString (Organization.MembersUrl o))]%string.

Definition org_url : string := "https://api.github.com/orgs/acme".

Definition acme : Organization.t :=
  {| Organization.Id := 1; Organization.Login := "acme";
     Organization.ReposUrl := "https://api.github.com/orgs/acme/repos";
     Organization.MembersUrl := "https://api.github.com/orgs/acme/members{/member}" |}.

Definition acme_owner : User.t :=
  {| User.Login := "acme"; User.Id := 1; User.Type_ := "Organization";
     User.ReposUrl := "https://api.github.com/orgs/acme/repos" |}.

Definition bob : User.t :=
  {| User.Login := "bob"; User.Id := 2; User.Type_ := "User";
     User.ReposUrl := "https://api.github.com/users/bob/repos{?type,page}" |}.

Definition carol : User.t :=
  {| User.Login := "carol"; User.Id := 3; User.Type_ := "User";
     User.ReposUrl := "https://api.github.com/users/carol/repos{?type,page}" |}.

(** A user account that happens to carry the login of the organisation. *)
Definition acme_user : User.t :=
  {| User.Login := "acme"; User.Id := 4; User.Type_ := "User";
     User.ReposUrl := "https://api.github.com/users/acme/repos" |}.

Definition r1 : Repository.t :=
  {| Repository.Id := 11; Repository.Owner := acme_owner; Repository.Name := "site";
     Repository.FullName := "acme/site";
     Repository.Url := "https://github.com/acme/site.git" |}.

Definition r2 : Repository.t :=
  {| Repository.Id := 12; Repository.Owner := bob; Repository.Name := "dotfiles";
     Repository.FullName := "bob/dotfiles";
     Repository.Url := "https://github.com/bob/dotfiles.git" |}.

(** A repository both members list. *)
Definition fork : Repository.t :=
  {| Repository.Id := 13; Repository.Owner := carol; Repository.Name := "tool";
     Repository.FullName := "carol/tool";
     Repository.Url := "https://github.com/carol/tool.git" |}.

Definition r_user_acme : Repository.t :=
  {| Repository.Id := 14; Repository.Owner := acme_user; Repository.Name := "notes";
     Repository.FullName := "acme/notes";
     Repository.Url := "https://github.com/acme/notes.git" |}.

Definition bob_repos : list Repository.t := [r2; r1; fork].
Definition carol_repos : list Repository.t := [fork; r_user_acme].

(** The error object GitHub answers with. *)
Definition doc_not_found : JSON :=
  JObject [("message", JString "Not Found");
           ("documentation_url", JString "https://docs.github.com/rest")]%string.

(** An object that is not an organisation but carries one of its keys. *)
Definition doc_login_only : JSON := JObject [("login", JString "acme")]%string.

Definition documents : list JSON :=
  [doc_Organization acme; JArray [doc_User bob; doc_User carol];
   JArray [doc_Repository r1]; JArray (List.map doc_Repository bob_repos);
   JArray (List.map doc_Repository carol_repos); doc_not_found; doc_login_only].

(** A parser for the texts this remote sends; every other text is taken to
    be malformed. *)
Definition parse (body : string) : option JSON :=
  List.find (fun d => String.eqb (render d) body) documents.

Definition serve (table : list (string * (Z * JSON))) (url : string) : HttpResult :=
  match List.find (fun e => String.eqb (fst e) url) table with
  | Some (_, (status, doc)) => Response status (render doc)
  | None => Response 404 (render doc_not_found)
  end.

(** The remote as GitHub behaves: the list endpoints are served under the
    URL without the template suffix only. *)
Definition remote (_ : list Event) (url : string) : HttpResult :=
  serve [(org_url, (200, doc_Organization acme));
         ("https://api.github.com/orgs/acme/members",
          (200, JArray [doc_User bob; doc_User carol]));
         ("https://api.github.com/orgs/acme/repos", (200, JArray [doc_Repository r1]));
         ("https://api.github.com/users/bob/repos",
          (200, JArray (List.map doc_Repository bob_repos)));
         ("https://api.github.com/users/carol/repos",
          (200, JArray (List.map doc_Repository carol_repos)))]%Z url.

(** A remote that serves the member list under the templated URL as well. *)
Definition remote_templated (tr : list Event) (url : string) : HttpResult :=
  if String.eqb url (Organization.MembersUrl acme)
  then Response 200 (render (JArray [doc_User bob; doc_User carol]))
  else remote tr url.

(** A remote that answers every request with status 404 and an object that
    has a [login] member. *)
Definition remote_404_login (_ : list Event) (_ : string) : HttpResult :=
  Response 404 (render doc_login_only).

(** A remote that answers with status 500 what [remote] answers. *)
Definition remote_500 (tr : list Event) (url : string) : HttpResult :=
  match remote tr url with
  | Response _ body => Response 500 body
  | TransportError => TransportError
  end.

(** Object stores of small repositories.  [with_script] holds a regular
    file and an executable one; [only_script] only the executable one;
    [plain] only regular files, one of them under two names. *)
Definition with_script : Flatten.Storage :=
  {| Flatten.Trees :=
       [("tree-1", [Flatten.TreeEntry.Build "README.md" Flatten.filemode.Regular "blob-a";
                    Flatten.TreeEntry.Build "run.sh" Flatten.filemode.Executable "blob-b"])];
     Flatten.Blobs := [("blob-a", "hello"); ("blob-b", "#!/bin/sh")] |}.

Definition only_script : Flatten.Storage :=
  {| Flatten.Trees :=
       [("tree-2", [Flatten.TreeEntry.Build "run.sh" Flatten.filemode.Executable "blob-b"])];
     Flatten.Blobs := [("blob-b", "#!/bin/sh")] |}.

Definition plain : Flatten.Storage :=
  {| Flatten.Trees :=
       [("tree-3", [Flatten.TreeEntry.Build "a.txt" Flatten.filemode.Regular "blob-a";
                    Flatten.TreeEntry.Build "src" Flatten.filemode.Dir "tree-4"]);
        ("tree-4", [Flatten.TreeEntry.Build "b.txt" Flatten.filemode.Regular "blob-c";
                    Flatten.TreeEntry.Build "copy.txt" Flatten.filemode.Regular "blob-a"])];
     Flatten.Blobs := [("blob-c", "world"); ("blob-a", "hello")] |}.

Definition dotfiles : Flatten.Storage :=
  {| Flatten.Trees :=
       [("tree-5", [Flatten.TreeEntry.Build ".bashrc" Flatten.filemode.Regular "blob-d"])];
     Flatten.Blobs := [("blob-d", "export EDITOR=vi")] |}.

(** What the clone URLs of [r1] and [r2] lead to. *)
Definition git_Clone (url : string) : option Flatten.Storage :=
  if String.eqb url (Repository.Url r1) then Some plain
  else if String.eqb url (Repository.Url r2) then Some dotfiles
  else None.

(** Two hooks on a log of strings: the first notes the name of the file,
    the second the full name of the repository [file.Repo] points to. *)
Definition note_file : @Dispatch.Hook (list string) :=
  fun file _ log => (log ++ [TargetFile.Filename file])%list.

Definition note_repo : @Dispatch.Hook (list string) :=
  fun file mem log =>
    (log ++ [match TargetFile.Repo file with
             | Some p => match mem !! p with
                         | Some r => Repository.FullName r
                         | None => ""
                         end
             | None => ""
             end])%list.

Definition hooks : list (@Dispatch.Hook (list string)) := [note_file; note_repo].

(** A schedule in which the first task clones only after [FullRecon] has
    entered its second iteration, up to that clone. *)
Definition late_clone : list Dispatch.Actor :=
  [Dispatch.MainThread; Dispatch.MainThread; Dispatch.TaskThread 0;
   Dispatch.MainThread; Dispatch.TaskThread 0; Dispatch.TaskThread 0].

(** The rest of that run: the second task, all hook calls, the join. *)
Definition late_clone_rest : list Dispatch.Actor :=
  ([Dispatch.TaskThread 1; Dispatch.MainThread; Dispatch.TaskThread 1;
    Dispatch.TaskThread 1]
   ++ List.repeat (Dispatch.TaskThread 0) 6 ++ List.repeat (Dispatch.TaskThread 1) 6
   ++ [Dispatch.MainThread])%list.

(** A schedule in which every task runs to its end as soon as it has its
    repository. *)
Definition one_by_one : list Dispatch.Actor :=
  ([Dispatch.MainThread; Dispatch.MainThread]
   ++ List.repeat (Dispatch.TaskThread 0) 14
   ++ [Dispatch.MainThread] ++ List.repeat (Dispatch.TaskThread 1) 9
   ++ [Dispatch.MainThread; Dispatch.MainThread])%list.

(** The state the schedule [one_by_one] ends in, for the list [r1; r2]. *)
Definition after_one_by_one : @Dispatch.State (list string) :=
  default (Dispatch.initial [])
    (Dispatch.run git_Clone hooks [r1; r2] Dispatch.fresh_loopvar one_by_one
       (Dispatch.initial [])).

(** The states the schedule [late_clone] and its continuation end in, with
    the one loop variable. *)
Definition during_late_clone : @Dispatch.State (list string) :=
  default (Dispatch.initial [])
    (Dispatch.run git_Clone hooks [r1; r2] Dispatch.shared_loopvar late_clone
       (Dispatch.initial [])).

Definition after_late_clone : @Dispatch.State (list string) :=
  default (Dispatch.initial [])
    (Dispatch.run git_Clone hooks [r1; r2] Dispatch.shared_loopvar
       (late_clone ++ late_clone_rest)%list (Dispatch.initial [])).

(** A run over the one repository [fork], which cannot be cloned, up to
    the call of [git.Clone]. *)
Definition failed_clone : @Dispatch.State (list string) :=
  default (Dispatch.initial [])
    (Dispatch.run git_Clone hooks [fork] Dispatch.shared_loopvar
       [Dispatch.MainThread; Dispatch.MainThread; Dispatch.TaskThread 0;
        Dispatch.TaskThread 0; Dispatch.TaskThread 0] (Dispatch.initial [])).

End Acme.

Import Api Flatten Dispatch.

(** Lookups in the task list after an update or a spawn. *)
Ltac lookup_cases :=
  repeat match goal with
         | H : <[_:=_]> _ !! _ = Some _ |- _ =>
             apply list_lookup_insert_Some in H;
             destruct H as [(? & ? & ?) | (? & ?)]
         | H : (_ ++ [_]) !! _ = Some _ |- _ =>
             apply lookup_snoc_Some in H;
             destruct H as [(? & ?) | (? & ?)]
         end; subst; simpl in *;
  repeat match goal with
         | H : storer_of (BuildTask _ _) = _ |- _ => unfold storer_of in H; simpl in H
         | H : storer_of (BuildTask _ _) <> _ |- _ => unfold storer_of in H; simpl in H
         | |- storer_of (BuildTask _ _) <> _ => unfold storer_of; simpl
         | H : Some _ = Some _ |- _ => injection H as H; try subst
         | H : None = Some _ |- _ => discriminate H
         end.

(** The comparisons of literal keys with tags. *)
Ltac decide_keys :=
  repeat match goal with
         | |- context [Json.key_is ?tag ?key] =>
             let r := eval vm_compute in (Json.key_is tag key) in
             change (Json.key_is tag key) with r
         end.

(** The cases of a step. *)
Ltac step_split H :=
  unfold Dispatch.step, step_main, step_task in H;
  repeat match type of H with
         | context [match ?x with _ => _ end] => destruct x eqn:?
         | context [if ?x then _ else _] => destruct x eqn:?
         end;
  try discriminate; injection H as <-; cbn.

(* ===================================================================== *)
(** * Properties                                                          *)
(* ===================================================================== *)

(** ** The normaliser on the inputs of the specification *)


Example extract_spec_1 :
  _ExtractUrl "https://api.example.com/orgs/x/repos{/other}"
  = "https://api.example.com/orgs/x/repos"%string.
Proof. vm_compute. reflexivity. Qed.

Example extract_spec_2 : _ExtractUrl "not a url" = ""%string.
Proof. vm_compute. reflexivity. Qed.

Example extract_members_template :
  _ExtractUrl "https://api.github.com/orgs/acme/members{/member}"
  = "https://api.github.com/orgs/acme/members"%string.
Proof. vm_compute. reflexivity. Qed.

Example extract_long_tld :
  _ExtractUrl "http://a.abcdefg/x" = "http://a.abcde"%string.
Proof. vm_compute. reflexivity. Qed.

Example extract_trailing_slash :
  _ExtractUrl "http://a.bc/x/" = "http://a.bc/x/"%string.
Proof. vm_compute. reflexivity. Qed.

(* ===================================================================== *)
(** * The backtracking matcher                                            *)
(* ===================================================================== *)

Section Matcher.

Implicit Types (r : regexp) (s w x : text) (k : text -> option text).

Lemma exec_Star r s k : exec (Star r) s k = star_loop r k (length s) s.
Proof. reflexivity. Qed.

Lemma exec_ext r : forall s k1 k2,
  (forall s1, k1 s1 = k2 s1) -> exec r s k1 = exec r s k2.
Proof.
  induction r as [| p | r1 IH1 r2 IH2 | r1 IH1 r2 IH2 | r1 IH1]; intros s k1 k2 Hk.
  - apply Hk.
  - simpl. destruct s as [| c s']; [reflexivity |]. now rewrite Hk.
  - simpl. apply IH1. intros s1. now apply IH2.
  - simpl. now rewrite (IH1 s k1 k2 Hk), (IH2 s k1 k2 Hk).
  - rewrite !exec_Star. generalize (length s) as fuel. intros fuel. revert s.
    induction fuel as [| fuel IHf]; intros s; simpl.
    + apply Hk.
    + rewrite Hk. erewrite IH1; [reflexivity |].
      intros s1. simpl. now rewrite IHf.
Qed.

Lemma exec_fail r : forall s, exec r s (fun _ => None) = None.
Proof.
  induction r as [| p | r1 IH1 r2 IH2 | r1 IH1 r2 IH2 | r1 IH1]; intros s.
  - reflexivity.
  - simpl. destruct s as [| c s']; [reflexivity |]. now destruct (p c).
  - simpl. erewrite exec_ext; [apply IH1 |]. intros s1. apply IH2.
  - simpl. now rewrite IH1, IH2.
  - rewrite exec_Star. generalize (length s) as fuel. intros fuel. revert s.
    induction fuel as [| fuel IHf]; intros s; simpl; [reflexivity |].
    erewrite exec_ext; [rewrite IH1; reflexivity |].
    intros s1. simpl. rewrite IHf. now destruct (length s1 <? length s)%nat.
Qed.

(** Fuel beyond the length of the text changes nothing. *)
Lemma star_loop_fuel r k : forall n1 n2 s,
  length s <= n1 -> length s <= n2 -> star_loop r k n1 s = star_loop r k n2 s.
Proof.
  assert (Hzero : forall n, star_loop r k n [] = k []).
  { intros [| n]; simpl; [reflexivity |].
    erewrite exec_ext; [rewrite exec_fail; reflexivity |].
    intros s1. simpl. reflexivity. }
  induction n1 as [| n1 IH]; intros n2 s H1 H2.
  - destruct s; [| simpl in H1; lia]. now rewrite !Hzero.
  - destruct n2 as [| n2].
    + destruct s; [| simpl in H2; lia]. now rewrite !Hzero.
    + simpl. erewrite exec_ext; [reflexivity |].
      intros s1. simpl.
      destruct (Nat.ltb_spec (length s1) (length s)) as [Hlt | Hge]; [| reflexivity].
      apply IH; lia.
Qed.

(** One turn of a star: another iteration that consumes something, or on. *)
Lemma exec_Star_unfold r s k :
  exec (Star r) s k =
  match exec r s (fun s1 =>
          if (length s1 <? length s)%nat then exec (Star r) s1 k else None) with
  | Some x => Some x
  | None => k s
  end.
Proof.
  rewrite exec_Star.
  rewrite (star_loop_fuel r k (length s) (S (length s)) s) by lia.
  cbn [star_loop]. erewrite exec_ext; [reflexivity |].
  intros s1. cbv beta.
  destruct (Nat.ltb_spec (length s1) (length s)) as [Hlt | Hge]; [| reflexivity].
  rewrite exec_Star. apply star_loop_fuel; lia.
Qed.

(** Whatever the search returns comes from the continuation, after a word
    of the language. *)
Lemma exec_sound r : forall s k x,
  exec r s k = Some x ->
  exists w s', s = w ++ s' /\ matches r w /\ k s' = Some x.
Proof.
  induction r as [| p | r1 IH1 r2 IH2 | r1 IH1 r2 IH2 | r1 IH1]; intros s k x Hx.
  - exists [], s. repeat split; [constructor | exact Hx].
  - simpl in Hx. destruct s as [| c s']; [discriminate |].
    destruct (p c) eqn:Hp; [| discriminate].
    exists [c], s'. repeat split; [now constructor | exact Hx].
  - simpl in Hx. apply IH1 in Hx. destruct Hx as (w1 & s1 & -> & Hw1 & Hx).
    apply IH2 in Hx. destruct Hx as (w2 & s2 & -> & Hw2 & Hx).
    exists (w1 ++ w2), s2. rewrite <- app_assoc. repeat split; [now constructor | exact Hx].
  - simpl in Hx. destruct (exec r1 s k) as [y |] eqn:H1.
    + injection Hx as ->. apply IH1 in H1. destruct H1 as (w & s' & -> & Hw & Hk).
      exists w, s'. repeat split; [now apply MAltL | exact Hk].
    + apply IH2 in Hx. destruct Hx as (w & s' & -> & Hw & Hk).
      exists w, s'. repeat split; [now apply MAltR | exact Hk].
  - remember (length s) as n eqn:Hn. revert s Hn k x Hx.
    induction n as [n IHn] using lt_wf_ind. intros s Hn k x Hx.
    rewrite exec_Star_unfold in Hx.
    destruct (exec r1 s _) as [y |] eqn:H1.
    + injection Hx as ->. apply IH1 in H1. destruct H1 as (w1 & s1 & -> & Hw1 & Hk).
      destruct (Nat.ltb_spec (length s1) (length (w1 ++ s1))) as [Hlt | Hge];
        [| discriminate].
      apply (IHn (length s1)) in Hk; [| lia | reflexivity].
      destruct Hk as (w2 & s2 & -> & Hw2 & Hk).
      exists (w1 ++ w2), s2. rewrite <- app_assoc.
      repeat split; [now constructor | exact Hk].
    + exists [], s. repeat split; [constructor | exact Hx].
Qed.

(** A word of the language followed by a text the continuation accepts is
    accepted in some way. *)
Lemma exec_complete r w :
  matches r w -> forall s' k, k s' <> None -> exec r (w ++ s') k <> None.
Proof.
  induction 1 as [| p c Hp | r1 r2 w1 w2 _ IH1 _ IH2 | r1 r2 w _ IH | r1 r2 w _ IH
                  | r | r w1 w2 _ IH1 _ IH2]; intros s' k Hk.
  - exact Hk.
  - simpl. now rewrite Hp.
  - simpl. rewrite <- app_assoc. apply IH1. now apply IH2.
  - simpl. specialize (IH s' k Hk). now destruct (exec r1 (w ++ s') k).
  - simpl. destruct (exec r1 (w ++ s') k); [discriminate | now apply IH].
  - simpl app. rewrite exec_Star_unfold. now destruct (exec r s' _).
  - destruct w1 as [| c w1]; [now apply IH2 |].
    rewrite <- app_assoc, exec_Star_unfold.
    set (k' := fun s1 : text =>
                 if (length s1 <? length ((c :: w1) ++ w2 ++ s'))%nat
                 then exec (Star r) s1 k else None).
    assert (Hk' : k' (w2 ++ s') <> None).
    { unfold k'.
      destruct (Nat.ltb_spec (length (w2 ++ s')) (length ((c :: w1) ++ w2 ++ s')))
        as [Hlt | Hge].
      - now apply IH2.
      - simpl in Hge. rewrite !length_app in Hge. simpl in Hge. lia. }
    specialize (IH1 (w2 ++ s') k' Hk').
    destruct (exec r ((c :: w1) ++ w2 ++ s') k'); [discriminate | contradiction].
Qed.

Lemma exec_shrinking r k : shrinking k -> shrinking (fun s => exec r s k).
Proof.
  intros Hk s x Hx. apply exec_sound in Hx. destruct Hx as (w & s' & -> & _ & Hx).
  apply Hk in Hx. rewrite length_app. lia.
Qed.

Lemma shrinking_Some : shrinking Some.
Proof. intros s x Hx. injection Hx as ->. lia. Qed.

End Matcher.

(* ===================================================================== *)
(** * The URL normaliser                                                  *)
(* ===================================================================== *)

Section UrlPattern.

Implicit Types (r : regexp) (s w x : text) (k : text -> option text).

(** ** The words of the parts of the pattern *)

Lemma matches_Empty_inv w : matches EmptyMatch w -> w = [].
Proof. now inversion 1. Qed.

Lemma matches_Class_inv p w : matches (CharClass p) w -> exists c, w = [c] /\ p c = true.
Proof. inversion 1; subst. eauto. Qed.

Lemma matches_Concat_inv r1 r2 w :
  matches (Concat r1 r2) w ->
  exists w1 w2, w = w1 ++ w2 /\ matches r1 w1 /\ matches r2 w2.
Proof. inversion 1; subst. eauto. Qed.

Lemma matches_Alternate_inv r1 r2 w :
  matches (Alternate r1 r2) w -> matches r1 w \/ matches r2 w.
Proof. inversion 1; subst; auto. Qed.

Lemma matches_Star_Class p w :
  matches (Star (CharClass p)) w -> Forall (fun c => p c = true) w.
Proof.
  intros H. remember (Star (CharClass p)) as r eqn:Hr.
  induction H as [| | | | | r0 | r0 w1 w2 H1 _ H2 IH2]; try discriminate.
  - constructor.
  - injection Hr as ->. apply matches_Class_inv in H1.
    destruct H1 as (c & -> & Hc). constructor; [exact Hc | now apply IH2].
Qed.

Lemma matches_Plus_Class p w :
  matches (Plus (CharClass p)) w ->
  exists c w', w = c :: w' /\ p c = true /\ Forall (fun c => p c = true) w'.
Proof.
  intros H. apply matches_Concat_inv in H. destruct H as (w1 & w2 & -> & H1 & H2).
  apply matches_Class_inv in H1. destruct H1 as (c & -> & Hc).
  apply matches_Star_Class in H2. exists c, w2. auto.
Qed.

Lemma matches_Literal_inv c w : matches (Literal c) w -> w = [c].
Proof.
  intros H. apply matches_Class_inv in H. destruct H as (c' & -> & Hc).
  apply Ascii.eqb_eq in Hc. now subst.
Qed.

(** A label of the host: word characters and a dot. *)
Lemma matches_label_inv w :
  matches label w ->
  exists c ws, w = (c :: ws) ++ ["."%char] /\ word c = true
               /\ Forall (fun c => word c = true) ws.
Proof.
  intros H. apply matches_Concat_inv in H. destruct H as (w1 & w2 & -> & H1 & H2).
  apply matches_Plus_Class in H1. destruct H1 as (c & ws & -> & Hc & Hws).
  apply matches_Literal_inv in H2. subst. eauto.
Qed.

(** The top-level domain: two to five lower-case letters. *)
Lemma matches_tld_inv w :
  matches tld w ->
  exists a b u, w = a :: b :: u /\ lower a = true /\ lower b = true
                /\ Forall (fun c => lower c = true) u /\ length u <= 3.
Proof.
  unfold tld. cbn [Repeat QuestNest]. unfold Quest. intros H.
  repeat match goal with
         | H : matches (Concat _ _) _ |- _ =>
             apply matches_Concat_inv in H; destruct H as (? & ? & -> & ? & ?)
         | H : matches (Alternate _ _) _ |- _ =>
             apply matches_Alternate_inv in H; destruct H as [H | H]
         | H : matches (CharClass _) _ |- _ =>
             apply matches_Class_inv in H; destruct H as (? & -> & ?)
         | H : matches EmptyMatch _ |- _ => apply matches_Empty_inv in H; subst
         end;
    simpl; do 3 eexists; (split; [reflexivity |]);
    repeat split; auto; simpl; lia.
Qed.

(** A path: nothing, or a slash and at least one more character, all of
    them in the class of the segments (which holds the slash). *)
Lemma matches_path_inv w :
  matches path w ->
  w = [] \/ exists c w', w = "/"%char :: c :: w'
                        /\ Forall (fun c => segment_char c = true) (c :: w').
Proof.
  unfold path. intros H. remember (Star segment) as r eqn:Hr.
  induction H as [| | | | | r0 | r0 w1 w2 H1 _ H2 IH2]; try discriminate.
  - now left.
  - injection Hr as ->. right.
    apply matches_Concat_inv in H1. destruct H1 as (v1 & v2 & -> & Hv1 & Hv2).
    apply matches_Literal_inv in Hv1. subst v1.
    apply matches_Plus_Class in Hv2. destruct Hv2 as (c & v & -> & Hc & Hv).
    exists c, (v ++ w2). split; [reflexivity |].
    constructor; [exact Hc |]. apply Forall_app. split; [exact Hv |].
    destruct (IH2 eq_refl) as [-> | (c' & w' & -> & Hall)]; [constructor |].
    constructor; [reflexivity | exact Hall].
Qed.

(** The scheme: http:// or https://. *)
Lemma matches_scheme_inv w :
  matches scheme w ->
  w = list_ascii_of_string "http://" \/ w = list_ascii_of_string "https://".
Proof.
  unfold scheme. cbn [LiteralString list_ascii_of_string]. unfold Quest. intros H.
  repeat match goal with
         | H : matches (Concat _ _) _ |- _ =>
             apply matches_Concat_inv in H; destruct H as (? & ? & -> & ? & ?)
         | H : matches (Alternate _ _) _ |- _ =>
             apply matches_Alternate_inv in H; destruct H as [H | H]
         | H : matches (Literal _) _ |- _ => apply matches_Literal_inv in H; subst
         | H : matches EmptyMatch _ |- _ => apply matches_Empty_inv in H; subst
         end; simpl; auto.
Qed.

(** ** How the search runs on the parts *)

Lemma exec_Concat r1 r2 s k :
  exec (Concat r1 r2) s k = exec r1 s (fun s1 => exec r2 s1 k).
Proof. reflexivity. Qed.

Lemma exec_Class_cons p c s k :
  exec (CharClass p) (c :: s) k = if p c then k s else None.
Proof. reflexivity. Qed.

Lemma exec_Class_nil p k : exec (CharClass p) [] k = None.
Proof. reflexivity. Qed.

Lemma exec_Alternate r1 r2 s k :
  exec (Alternate r1 r2) s k =
  match exec r1 s k with Some x => Some x | None => exec r2 s k end.
Proof. reflexivity. Qed.

Lemma exec_Empty s k : exec EmptyMatch s k = k s.
Proof. reflexivity. Qed.

Lemma exec_Star_total r s k : k s <> None -> exec (Star r) s k <> None.
Proof. intros Hk. exact (exec_complete (Star r) [] (MStarNil r) s k Hk). Qed.

(** A greedy star over a class runs to the end of the run of its class. *)
Lemma star_class_greedy p k w s' :
  shrinking k ->
  Forall (fun c => p c = true) w ->
  k s' <> None ->
  exists x, exec (Star (CharClass p)) (w ++ s') k = Some x /\ length x <= length s'.
Proof.
  intros Hshr Hw Hk. induction Hw as [| c w Hc _ IH].
  - simpl app.
    destruct (exec (Star (CharClass p)) s' k) as [x |] eqn:Hx.
    + exists x. split; [reflexivity |]. exact (exec_shrinking _ _ Hshr _ _ Hx).
    + now apply exec_Star_total in Hx.
  - destruct IH as (x & Hx & Hlen). exists x. split; [| exact Hlen].
    rewrite exec_Star_unfold. simpl app. rewrite exec_Class_cons, Hc.
    destruct (Nat.ltb_spec (length (w ++ s')) (length (c :: w ++ s'))) as [_ | Hge];
      [| simpl in Hge; lia].
    now rewrite Hx.
Qed.

Lemma after_path_total s : after_path s <> None.
Proof. apply exec_Star_total. discriminate. Qed.

Lemma after_path_shrinking : shrinking after_path.
Proof. apply exec_shrinking, shrinking_Some. Qed.

Lemma path_longest w s' :
  matches path w ->
  exists x, after_path (w ++ s') = Some x /\ length x <= length s'.
Proof.
  intros Hw. apply matches_path_inv in Hw.
  destruct Hw as [-> | (c & w' & -> & Hall)].
  - simpl app. destruct (after_path s') as [x |] eqn:Hx.
    + exists x. split; [reflexivity |]. exact (after_path_shrinking _ _ Hx).
    + now apply after_path_total in Hx.
  - inversion Hall as [| ? ? Hc Hw']; subst.
    unfold after_path, path. rewrite exec_Star_unfold.
    set (s := ("/"%char :: c :: w') ++ s').
    set (k' := fun s1 : text =>
                 if (length s1 <? length s)%nat then exec (Star segment) s1 Some else None).
    assert (Hk' : shrinking k').
    { intros s1 x. unfold k'. destruct (length s1 <? length s)%nat; [| discriminate].
      apply exec_shrinking, shrinking_Some. }
    assert (Hs' : k' s' <> None).
    { unfold k'. destruct (Nat.ltb_spec (length s') (length s)) as [_ | Hge].
      - apply exec_Star_total. discriminate.
      - unfold s in Hge. rewrite length_app in Hge. simpl in Hge. lia. }
    destruct (star_class_greedy segment_char k' w' s' Hk' Hw' Hs') as (x & Hx & Hlen).
    exists x. split; [| exact Hlen].
    unfold s at 1. unfold segment at 1, Plus, Literal. simpl app.
    rewrite exec_Concat, exec_Class_cons. cbn [Ascii.eqb Bool.eqb].
    rewrite exec_Concat, exec_Class_cons, Hc. now rewrite Hx.
Qed.

(** The optional letters of the top-level domain. *)
Lemma exec_QuestNest_S p e s k :
  exec (QuestNest (CharClass p) (S e)) s k =
  match exec (CharClass p) s (fun s1 => exec (QuestNest (CharClass p) e) s1 k) with
  | Some x => Some x
  | None => k s
  end.
Proof. destruct e; reflexivity. Qed.

Lemma exec_QuestNest_total p e s k :
  k s <> None -> exec (QuestNest (CharClass p) e) s k <> None.
Proof.
  intros Hk. destruct e; [exact Hk |].
  rewrite exec_QuestNest_S. now destruct (exec (CharClass p) s _).
Qed.

Lemma questnest_greedy p k n :
  (forall s, k s <> None) -> shrinking k ->
  forall e u rest,
    Forall (fun c => p c = true) u -> length u <= e ->
    (forall x, k rest = Some x -> length x <= n) ->
    (forall c rest', rest = c :: rest' -> p c = true ->
       forall s2 x, length s2 <= length rest' -> k s2 = Some x -> length x <= n) ->
    exists x, exec (QuestNest (CharClass p) e) (u ++ rest) k = Some x /\ length x <= n.
Proof.
  intros Htot Hshr. induction e as [| e IH]; intros u rest Hu Hlen Hhere Hmore.
  - destruct u; [| simpl in Hlen; lia]. simpl.
    destruct (k rest) as [x |] eqn:Hx; [| now apply Htot in Hx].
    exists x. split; [reflexivity | now apply Hhere].
  - rewrite exec_QuestNest_S. destruct Hu as [| c u Hc Hu].
    + simpl app. destruct rest as [| c rest'].
      * rewrite exec_Class_nil.
        destruct (k []) as [x |] eqn:Hx; [| now apply Htot in Hx].
        exists x. split; [reflexivity | now apply Hhere].
      * rewrite exec_Class_cons. destruct (p c) eqn:Hc.
        -- destruct (exec (QuestNest (CharClass p) e) rest' k) as [x |] eqn:Hx.
           ++ exists x. split; [reflexivity |].
              apply exec_sound in Hx. destruct Hx as (w2 & s2 & -> & _ & Hx).
              apply (Hmore c (w2 ++ s2) eq_refl Hc s2 x); [| exact Hx].
              rewrite length_app. lia.
           ++ exfalso. revert Hx. apply exec_QuestNest_total, Htot.
        -- destruct (k (c :: rest')) as [x |] eqn:Hx; [| now apply Htot in Hx].
           exists x. split; [reflexivity | now apply Hhere].
    + simpl app. rewrite exec_Class_cons, Hc.
      destruct (IH u rest Hu ltac:(simpl in Hlen; lia) Hhere Hmore) as (x & Hx & Hn).
      exists x. split; [now rewrite Hx | exact Hn].
Qed.

Lemma tld_path_longest wt wp s' :
  matches tld wt -> matches path wp ->
  exists x, after_tld (wt ++ wp ++ s') = Some x /\ length x <= length s'.
Proof.
  intros Hwt Hwp.
  apply matches_tld_inv in Hwt. destruct Hwt as (a & b & u & -> & Ha & Hb & Hu & Hlen).
  unfold after_tld, tld. cbn [Repeat]. simpl app.
  rewrite exec_Concat, exec_Class_cons, Ha, exec_Concat, exec_Class_cons, Hb.
  apply questnest_greedy; auto using after_path_total, after_path_shrinking.
  - intros x Hx. destruct (path_longest wp s' Hwp) as (x' & Hx' & Hn). congruence.
  - intros c rest' Hrest Hc s2 x Hs2 Hx.
    apply matches_path_inv in Hwp. destruct Hwp as [-> | (c' & w' & -> & _)].
    + simpl in Hrest. subst s'. apply after_path_shrinking in Hx. simpl. lia.
    + simpl in Hrest. injection Hrest as <- _. discriminate.
Qed.

(** Two ways to cut a text after a run of a class: the shorter run is a
    prefix of the one that ends before a character outside the class. *)
Lemma run_prefix (p : ascii -> bool) : forall (a b c : list ascii) (sep : ascii) (d : list ascii),
  Forall (fun y => p y = true) a -> Forall (fun y => p y = true) c ->
  p sep = false -> a ++ b = c ++ sep :: d ->
  exists e, c = a ++ e /\ b = e ++ sep :: d.
Proof.
  induction a as [| y a IH]; intros b c sep d Ha Hc Hsep Heq.
  - exists c. split; [reflexivity | exact Heq].
  - inversion Ha as [| ? ? Hy Ha']; subst.
    destruct c as [| z c]; simpl in Heq.
    + injection Heq as -> _. congruence.
    + injection Heq as <- Heq. inversion Hc as [| ? ? _ Hc']; subst.
      destruct (IH b c sep d Ha' Hc' Hsep Heq) as (e & -> & ->).
      exists e. split; reflexivity.
Qed.

(** A label is read in one way only: the run of word characters up to its
    dot. *)
Lemma star_word_dot ws rest k :
  Forall (fun c => word c = true) ws ->
  exec (Star (CharClass word)) (ws ++ "."%char :: rest)
    (fun s2 => exec (Literal ".") s2 k)
  = k rest.
Proof.
  intros Hws. induction Hws as [| c ws Hc _ IH].
  - simpl app. rewrite exec_Star_unfold, exec_Class_cons.
    reflexivity.
  - rewrite exec_Star_unfold. simpl app. rewrite exec_Class_cons, Hc.
    destruct (Nat.ltb_spec (length (ws ++ "."%char :: rest))
                (length (c :: ws ++ "."%char :: rest))) as [_ | Hge];
      [| simpl in Hge; lia].
    rewrite IH. unfold Literal. rewrite exec_Class_cons.
    assert (Hdot : Ascii.eqb "." c = false).
    { apply Ascii.eqb_neq. intros <-. discriminate. }
    rewrite Hdot. now destruct (k rest).
Qed.

Lemma label_exec c ws rest k :
  word c = true -> Forall (fun c => word c = true) ws ->
  exec label ((c :: ws) ++ "."%char :: rest) k = k rest.
Proof.
  intros Hc Hws. unfold label, Plus. simpl app.
  rewrite !exec_Concat, exec_Class_cons, Hc.
  now apply star_word_dot.
Qed.

Lemma lower_word c : lower c = true -> word c = true.
Proof.
  unfold word, lower. intros ->. now rewrite orb_true_r.
Qed.

(** The rest after the labels of the host, trying most labels first. *)
Lemma labels_star_longest wl wt wp s' :
  matches (Star label) wl -> matches tld wt -> matches path wp ->
  exists x, exec (Star label) (wl ++ wt ++ wp ++ s') after_tld = Some x
            /\ length x <= length s'.
Proof.
  intros Hwl Hwt Hwp. remember (Star label) as r eqn:Hr.
  induction Hwl as [| | | | | r0 | r0 w1 w2 H1 _ H2 IH2]; try discriminate.
  - injection Hr as ->. simpl app. rewrite exec_Star_unfold.
    set (s := wt ++ wp ++ s').
    destruct (exec label s _) as [x |] eqn:Hx.
    + exists x. split; [reflexivity |].
      apply exec_sound in Hx. destruct Hx as (wlab & s1 & Hs & Hlab & Hx).
      destruct (length s1 <? length s)%nat; [| discriminate].
      assert (Hlen : length x <= length s1).
      { revert Hx. apply exec_shrinking. intros s2 y. unfold after_tld.
        apply exec_shrinking, after_path_shrinking. }
      apply matches_label_inv in Hlab. destruct Hlab as (c & ws & -> & Hc & Hws).
      apply matches_tld_inv in Hwt.
      destruct Hwt as (a & b & u & -> & Ha & Hb & Hu & _).
      unfold s in Hs. rewrite <- app_assoc in Hs.
      destruct (run_prefix word (a :: b :: u) (wp ++ s') (c :: ws) "."%char s1)
        as (e & He & Hrest); auto.
      { repeat constructor; auto using lower_word.
        eapply Forall_impl; [exact Hu |]. intros y. apply lower_word. }
      apply matches_path_inv in Hwp. destruct Hwp as [-> | (c' & w' & -> & _)].
      * simpl in Hrest. subst s'. rewrite length_app. simpl. lia.
      * exfalso. simpl in Hrest. destruct e as [| y e]; simpl in Hrest.
        -- discriminate.
        -- injection Hrest as <- _.
           assert (Hin : Forall (fun c => word c = true) (c :: ws)) by now constructor.
           rewrite He in Hin. apply Forall_app in Hin. destruct Hin as [_ Hin].
           inversion Hin. discriminate.
    + apply tld_path_longest; assumption.
  - injection Hr as ->. destruct (IH2 eq_refl) as (x & Hx & Hlen).
    exists x. split; [| exact Hlen].
    apply matches_label_inv in H1. destruct H1 as (c & ws & -> & Hc & Hws).
    rewrite exec_Star_unfold.
    rewrite <- !app_assoc. simpl app.
    change (c :: ws ++ "."%char :: w2 ++ wt ++ wp ++ s')
      with ((c :: ws) ++ "."%char :: w2 ++ wt ++ wp ++ s').
    rewrite label_exec by assumption.
    destruct (Nat.ltb_spec (length (w2 ++ wt ++ wp ++ s'))
                (length ((c :: ws) ++ "."%char :: w2 ++ wt ++ wp ++ s')))
      as [_ | Hge].
    + now rewrite Hx.
    + simpl in Hge. rewrite ?length_app in Hge. simpl in Hge.
      rewrite ?length_app in Hge. lia.
Qed.

Lemma labels_longest wl wt wp s' :
  matches labels wl -> matches tld wt -> matches path wp ->
  exists x, after_labels (wl ++ wt ++ wp ++ s') = Some x /\ length x <= length s'.
Proof.
  intros Hwl Hwt Hwp. unfold labels, Plus in Hwl.
  apply matches_Concat_inv in Hwl. destruct Hwl as (w1 & w2 & -> & H1 & H2).
  apply matches_label_inv in H1. destruct H1 as (c & ws & -> & Hc & Hws).
  unfold after_labels, labels, Plus. rewrite exec_Concat.
  rewrite <- !app_assoc. simpl app.
  change (c :: ws ++ "."%char :: w2 ++ wt ++ wp ++ s')
    with ((c :: ws) ++ "."%char :: w2 ++ wt ++ wp ++ s').
  rewrite label_exec by assumption.
  now apply labels_star_longest.
Qed.

(** The scheme is read in one way. *)
Lemma scheme_exec ws rest k :
  matches scheme ws -> exec scheme (ws ++ rest) k = k rest.
Proof.
  intros Hws. apply matches_scheme_inv in Hws.
  destruct Hws as [-> | ->]; cbn; now destruct (k rest).
Qed.

(** The search finds a match at least as long as any word of the pattern
    at the start of the text. *)
Lemma body_longest w s' :
  matches (body urlPattern) w ->
  exists x, match_at (body urlPattern) (w ++ s') = Some x /\ length x <= length s'.
Proof.
  cbn [body urlPattern]. intros Hw.
  apply matches_Concat_inv in Hw. destruct Hw as (ws & w1 & -> & Hws & Hw).
  apply matches_Concat_inv in Hw. destruct Hw as (wl & w2 & -> & Hwl & Hw).
  apply matches_Concat_inv in Hw. destruct Hw as (wt & wp & -> & Hwt & Hwp).
  unfold match_at. rewrite exec_Concat, <- !app_assoc, scheme_exec by assumption.
  apply (labels_longest wl wt wp s'); assumption.
Qed.

Lemma valid_by_exec w : match_at (body urlPattern) w = Some [] -> valid_url w.
Proof.
  intros H. apply exec_sound in H. destruct H as (m & s1 & -> & Hm & Hs1).
  injection Hs1 as ->. now rewrite app_nil_r.
Qed.

Lemma matched_app m x : matched (m ++ x) x = m.
Proof.
  unfold matched. rewrite length_app.
  replace (length m + length x - length x) with (length m) by lia.
  now rewrite take_app_length.
Qed.


End UrlPattern.



(* ===================================================================== *)
(** * The repository set builder                                          *)
(* ===================================================================== *)


Section SetBuilder.

Variable remote : list Event -> string -> HttpResult.
Variable parse : string -> option Json.JSON.

Lemma kept_iff org repo :
  kept org repo = true <->
  ~ (User.Type_ (Repository.Owner repo) = "Organization"%string
     /\ User.Login (Repository.Owner repo) = Organization.Login org).
Proof.
  unfold kept, org_owned.
  rewrite negb_true_iff, andb_false_iff.
  rewrite <- !not_true_iff_false, !String.eqb_eq.
  split.
  - intros [H | H] [H1 H2]; contradiction.
  - intros H.
    destruct (String.eqb_spec (User.Type_ (Repository.Owner repo)) "Organization");
      [right | left]; intuition.
Qed.

Lemma append_user_repos_filter org userRepos : forall repos,
  append_user_repos org repos userRepos = repos ++ List.filter (kept org) userRepos.
Proof.
  unfold append_user_repos, kept.
  induction userRepos as [| repo rest IH]; intros repos; simpl.
  - now rewrite app_nil_r.
  - rewrite IH. destruct (org_owned org repo); simpl; [reflexivity |].
    now rewrite <- app_assoc.
Qed.

Lemma append_members_fetch org users : forall repos tr,
  append_members remote parse org users repos tr =
  (lists <- fetch_members remote parse users ;;
   ret (repos ++ flat_map (List.filter (kept org)) lists)) tr.
Proof.
  induction users as [| user rest IH]; intros repos tr;
    cbn [append_members fetch_members].
  - unfold bind, ret; simpl. now rewrite app_nil_r.
  - unfold bind.
    destruct (User_GetRepositories remote parse user tr) as [[userRepos | msg | msg] tr1];
      try reflexivity.
    rewrite IH, append_user_repos_filter.
    unfold bind, ret.
    destruct (fetch_members remote parse rest tr1) as [[lists | msg | msg] tr2];
      try reflexivity.
    simpl. now rewrite <- app_assoc.
Qed.

Lemma count_id_app id l1 l2 : count_id id (l1 ++ l2) = count_id id l1 + count_id id l2.
Proof. unfold count_id. now rewrite List.filter_app, length_app. Qed.

Lemma count_id_In id r l :
  In r l -> Repository.Id r = id -> 1 <= count_id id l.
Proof.
  intros Hin Hid. unfold count_id.
  induction l as [| x l IH]; simpl in *; [contradiction |].
  destruct Hin as [-> | Hin].
  - rewrite Hid, Z.eqb_refl. simpl. lia.
  - specialize (IH Hin). destruct (Repository.Id x =? id)%Z; simpl; lia.
Qed.

Lemma count_id_kept org id r l :
  In r l -> kept org r = true -> Repository.Id r = id ->
  1 <= count_id id (List.filter (kept org) l).
Proof.
  intros Hin Hk Hid. apply (count_id_In id r); [| exact Hid].
  apply List.filter_In. now split.
Qed.

Lemma count_id_flat_map_two org id (lists : list (list Repository.t)) i j l1 l2 r1 r2 :
  i < j -> lists !! i = Some l1 -> lists !! j = Some l2 ->
  In r1 l1 -> In r2 l2 -> kept org r1 = true -> kept org r2 = true ->
  Repository.Id r1 = id -> Repository.Id r2 = id ->
  2 <= count_id id (flat_map (List.filter (kept org)) lists).
Proof.
  intros Hij Hi Hj Hin1 Hin2 Hk1 Hk2 Hid1 Hid2.
  rewrite <- (take_drop_middle lists i l1 Hi).
  assert (Hj' : drop (S i) lists !! (j - S i) = Some l2).
  { rewrite lookup_drop. replace (S i + (j - S i)) with j by lia. exact Hj. }
  rewrite <- (take_drop_middle _ _ _ Hj').
  rewrite flat_map_app. simpl. rewrite flat_map_app. simpl.
  rewrite !count_id_app.
  pose proof (count_id_kept org id r1 l1 Hin1 Hk1 Hid1).
  pose proof (count_id_kept org id r2 l2 Hin2 Hk2 Hid2).
  lia.
Qed.

End SetBuilder.

Section SetBuilderClaims.

Variable remote : list Event -> string -> HttpResult.
Variable parse : string -> option Json.JSON.

(** C4. The repository set builder starts from the organisation's own list
    and appends, member by member and in list order, exactly the member
    repositories for which NOT (owner type is "Organization" AND owner login
    is the login of the scanned organisation); a member repository whose
    owner has that login but type "User" is kept. *)
Theorem repository_set_builder (url : string) (tr : list Event) :
  FullRecon_discover remote parse url tr =
    (org <- GetOrganization remote parse url ;;
     users <- Organization_GetMembers remote parse org ;;
     repos <- Organization_GetRepositories remote parse org ;;
     lists <- fetch_members remote parse users ;;
     ret (org, repos ++ flat_map (List.filter (kept org)) lists)) tr
  /\ (forall org repo,
        kept org repo = true <->
        ~ (User.Type_ (Repository.Owner repo) = "Organization"%string
           /\ User.Login (Repository.Owner repo) = Organization.Login org))
  /\ (forall org repo,
        User.Login (Repository.Owner repo) = Organization.Login org ->
        User.Type_ (Repository.Owner repo) = "User"%string ->
        kept org repo = true).
Proof.
  split; [| split].
  - unfold FullRecon_discover, bind.
    destruct (GetOrganization remote parse url tr) as [[org | msg | msg] tr1];
      try reflexivity.
    destruct (Organization_GetMembers remote parse org tr1) as [[users | msg | msg] tr2];
      try reflexivity.
    destruct (Organization_GetRepositories remote parse org tr2)
      as [[repos | msg | msg] tr3]; try reflexivity.
    rewrite append_members_fetch. unfold bind, ret.
    destruct (fetch_members remote parse users tr3) as [[lists | msg | msg] tr4];
      reflexivity.
  - intros org repo. apply kept_iff.
  - intros org repo _ Hty. apply kept_iff. intros [Horg _].
    rewrite Hty in Horg. discriminate.
Qed.

(** C7. No de-duplication by repository id: when the lists of two different
    members both hold a repository that is not owned by the organisation,
    with the same id, the merged list holds that id at least twice. *)
Theorem no_dedup_by_id (org : Organization.t) (users : list User.t)
    (repos : list Repository.t) (tr tr' : list Event)
    (lists : list (list Repository.t)) (i j : nat)
    (l1 l2 : list Repository.t) (r1 r2 : Repository.t) :
  fetch_members remote parse users tr = (Ok lists, tr') ->
  i <> j ->
  lists !! i = Some l1 -> lists !! j = Some l2 ->
  In r1 l1 -> In r2 l2 ->
  org_owned org r1 = false -> org_owned org r2 = false ->
  Repository.Id r1 = Repository.Id r2 ->
  exists merged,
    append_members remote parse org users repos tr = (Ok merged, tr')
    /\ 2 <= count_id (Repository.Id r1) merged.
Proof.
  intros Hfetch Hij Hi Hj Hin1 Hin2 Ho1 Ho2 Hid.
  exists (repos ++ flat_map (List.filter (kept org)) lists). split.
  - rewrite append_members_fetch. unfold bind, ret. now rewrite Hfetch.
  - rewrite count_id_app.
    assert (Hk1 : kept org r1 = true) by (unfold kept; now rewrite Ho1).
    assert (Hk2 : kept org r2 = true) by (unfold kept; now rewrite Ho2).
    assert (2 <= count_id (Repository.Id r1) (flat_map (List.filter (kept org)) lists)).
    { destruct (Nat.lt_ge_cases i j) as [Hlt | Hge].
      - eapply (count_id_flat_map_two org _ lists i j l1 l2 r1 r2); eauto.
      - eapply (count_id_flat_map_two org _ lists j i l2 l1 r2 r1); eauto. lia. }
    lia.
Qed.

End SetBuilderClaims.

Lemma repository_set_builder_witness :
  fst (FullRecon_discover Acme.remote_templated Acme.parse Acme.org_url [])
  = Ok (Acme.acme, [Acme.r1; Acme.r2; Acme.fork; Acme.fork; Acme.r_user_acme])
  /\ kept Acme.acme Acme.r_user_acme = true.
Proof.
  destruct (repository_set_builder Acme.remote_templated Acme.parse Acme.org_url [])
    as (Heq & _ & Huser).
  split.
  - rewrite Heq. vm_compute. reflexivity.
  - apply Huser; reflexivity.
Defined.

Lemma no_dedup_by_id_witness :
  exists merged,
    append_members Acme.remote Acme.parse Acme.acme [Acme.bob; Acme.carol] [Acme.r1] []
    = (Ok merged,
       [Get "https://api.github.com/users/bob/repos";
        Get "https://api.github.com/users/carol/repos"])
    /\ 2 <= count_id 13 merged.
Proof.
  apply (no_dedup_by_id Acme.remote Acme.parse Acme.acme [Acme.bob; Acme.carol]
           [Acme.r1] [] _ [Acme.bob_repos; Acme.carol_repos] 0 1
           Acme.bob_repos Acme.carol_repos Acme.fork Acme.fork).
  - vm_compute. reflexivity.
  - lia.
  - reflexivity.
  - reflexivity.
  - simpl. tauto.
  - simpl. tauto.
  - reflexivity.
  - reflexivity.
  - reflexivity.
Defined.

(* ===================================================================== *)
(** * The HTTP operations                                                 *)
(* ===================================================================== *)

Section Fetching.

Variable parse : string -> option Json.JSON.

Lemma GetMembers_response remote org tr status body :
  remote tr (Organization.MembersUrl org) = Response status body ->
  status <> 403%Z ->
  Organization_GetMembers remote parse org tr =
  (Ok (default [] (Json.Unmarshal_Users parse body)), tr ++ members_events org).
Proof.
  intros Hresp Hstatus.
  unfold Organization_GetMembers, bind, http_Get, fmt_Println, members_events.
  rewrite Hresp.
  destruct (Z.eqb_spec status 403) as [-> | _]; [contradiction |].
  rewrite <- app_assoc. simpl.
  now destruct (Json.Unmarshal_Users parse body).
Qed.

Lemma GetOrganization_response remote url tr status body :
  remote tr url = Response status body ->
  status <> 403%Z ->
  GetOrganization remote parse url tr =
  match Json.Unmarshal_Organization parse body with
  | Some org => (Ok org, tr ++ [Get url])
  | None => (Fatal "could not parse response as json at get organization",
             (tr ++ [Get url])
             ++ [LogFatal "could not parse response as json at get organization"])
  end.
Proof.
  intros Hresp Hstatus.
  unfold GetOrganization, bind, http_Get. rewrite Hresp.
  destruct (Z.eqb_spec status 403) as [-> | _]; [contradiction |].
  now destruct (Json.Unmarshal_Organization parse body).
Qed.

Lemma GetRepositories_response remote url tr status body :
  remote tr url = Response status body ->
  status <> 403%Z ->
  _GetRepositories remote parse url tr =
  match Json.Unmarshal_Repositories parse body with
  | Some repos => (Ok repos, tr ++ [Get url])
  | None => (Fatal "could not parse json response for repos",
             (tr ++ [Get url]) ++ [LogFatal "could not parse json response for repos"])
  end.
Proof.
  intros Hresp Hstatus.
  unfold _GetRepositories, bind, http_Get. rewrite Hresp.
  destruct (Z.eqb_spec status 403) as [-> | _]; [contradiction |].
  now destruct (Json.Unmarshal_Repositories parse body).
Qed.

(** [GetMembers] sends one request, to [org.MembersUrl] as it is. *)
Lemma GetMembers_single_fetch remote org tr :
  exists rest,
    snd (Organization_GetMembers remote parse org tr)
    = tr ++ Get (Organization.MembersUrl org) :: rest
    /\ forall url, ~ In (Get url) rest.
Proof.
  unfold Organization_GetMembers, bind, http_Get, fmt_Println, log_Fatal, ret.
  destruct (remote tr (Organization.MembersUrl org)) as [| status body]; simpl.
  - eexists. rewrite <- !app_assoc. simpl. split; [reflexivity |].
    intros url [H | [H | []]]; discriminate.
  - destruct (status =? 403)%Z; simpl.
    + eexists. rewrite <- !app_assoc. simpl. split; [reflexivity |].
      intros url [H | [H | []]]; discriminate.
    + destruct (Json.Unmarshal_Users parse body); simpl;
        eexists; rewrite <- !app_assoc; simpl; (split; [reflexivity |]);
        intros url [H | []]; discriminate.
Qed.

Lemma into_Organization_foreign members : forall old,
  Forall (fun kv => no_Organization_key (fst kv)) members ->
  Json.into_Organization (Json.JObject members) old = Some old.
Proof.
  unfold Json.into_Organization, Json.into_struct.
  induction members as [| [k v] rest IH]; intros old Hall; simpl.
  - reflexivity.
  - inversion Hall as [| ? ? (H1 & H2 & H3 & H4) Hrest]; subst. simpl in *.
    unfold Json.set_Organization_field at 2. destruct old.
    rewrite H1, H2, H3, H4. now apply IH.
Qed.

(** C6. A members response that does not decode as a list of users makes
    [GetMembers] return the empty list, and [FullRecon] goes on to fetch the
    repositories of the organisation: its merged list is that fetch's. *)
Theorem members_soft_fail remote (org : Organization.t) (tr : list Event)
    (status : Z) (body : string) :
  remote tr (Organization.MembersUrl org) = Response status body ->
  status <> 403%Z ->
  Json.Unmarshal_Users parse body = None ->
  Organization_GetMembers remote parse org tr = (Ok [], tr ++ members_events org)
  /\ forall url tr0,
       GetOrganization remote parse url tr0 = (Ok org, tr) ->
       FullRecon_discover remote parse url tr0 =
       (repos <- Organization_GetRepositories remote parse org ;; ret (org, repos))
         (tr ++ members_events org).
Proof.
  intros Hresp Hstatus Hdecode.
  assert (Hmembers : Organization_GetMembers remote parse org tr
                     = (Ok [], tr ++ members_events org)).
  { rewrite (GetMembers_response _ _ _ _ _ Hresp Hstatus), Hdecode. reflexivity. }
  split; [exact Hmembers |].
  intros url tr0 Horg.
  unfold FullRecon_discover, bind at 1 2. rewrite Horg, Hmembers.
  unfold bind.
  destruct (Organization_GetRepositories remote parse org (tr ++ members_events org))
    as [[repos | msg | msg] tr3]; reflexivity.
Qed.

(** C10, as amended.  A response whose status is not 403 is decoded whatever
    its status: the three operations give the same result as for any other
    such status with the same body.  A response of that kind whose body is an
    object without a key of [Organization] makes [GetOrganization] return the
    zero value without an error. *)
Theorem status_unchecked remote1 remote2 (url : string) (tr : list Event)
    (status1 status2 : Z) (body : string) :
  remote1 tr url = Response status1 body ->
  remote2 tr url = Response status2 body ->
  status1 <> 403%Z -> status2 <> 403%Z ->
  GetOrganization remote1 parse url tr = GetOrganization remote2 parse url tr
  /\ _GetRepositories remote1 parse url tr = _GetRepositories remote2 parse url tr
  /\ (forall org, Organization.MembersUrl org = url ->
        Organization_GetMembers remote1 parse org tr
        = Organization_GetMembers remote2 parse org tr)
  /\ (forall members,
        parse body = Some (Json.JObject members) ->
        Forall (fun kv => no_Organization_key (fst kv)) members ->
        GetOrganization remote1 parse url tr = (Ok Organization.zero, tr ++ [Get url])).
Proof.
  intros H1 H2 Hs1 Hs2. repeat split.
  - now rewrite (GetOrganization_response _ _ _ _ _ H1 Hs1),
      (GetOrganization_response _ _ _ _ _ H2 Hs2).
  - now rewrite (GetRepositories_response _ _ _ _ _ H1 Hs1),
      (GetRepositories_response _ _ _ _ _ H2 Hs2).
  - intros org <-.
    now rewrite (GetMembers_response _ _ _ _ _ H1 Hs1),
      (GetMembers_response _ _ _ _ _ H2 Hs2).
  - intros members Hparse Hkeys.
    rewrite (GetOrganization_response _ _ _ _ _ H1 Hs1).
    unfold Json.Unmarshal_Organization, Json.Unmarshal. rewrite Hparse.
    now rewrite into_Organization_foreign.
Qed.

End Fetching.

Lemma members_soft_fail_witness :
  Organization_GetMembers Acme.remote Acme.parse Acme.acme [Get Acme.org_url]
  = (Ok [], [Get Acme.org_url] ++ members_events Acme.acme)
  /\ fst (FullRecon_discover Acme.remote Acme.parse Acme.org_url [])
     = Ok (Acme.acme, [Acme.r1]).
Proof.
  destruct (members_soft_fail Acme.parse Acme.remote Acme.acme [Get Acme.org_url]
              404 (Acme.render Acme.doc_not_found)) as [Hmembers Hdiscover].
  - vm_compute. reflexivity.
  - discriminate.
  - vm_compute. reflexivity.
  - split; [exact Hmembers |].
    rewrite (Hdiscover Acme.org_url []).
    + vm_compute. reflexivity.
    + vm_compute. reflexivity.
Defined.

Lemma status_unchecked_witness :
  GetOrganization Acme.remote_500 Acme.parse Acme.org_url []
  = GetOrganization Acme.remote Acme.parse Acme.org_url []
  /\ GetOrganization Acme.remote Acme.parse "https://api.github.com/orgs/nobody" []
     = (Ok Organization.zero, [Get "https://api.github.com/orgs/nobody"]).
Proof.
  split.
  - apply (status_unchecked Acme.parse Acme.remote_500 Acme.remote Acme.org_url [] 500 200
             (Acme.render (Acme.doc_Organization Acme.acme)));
      (vm_compute; reflexivity) || discriminate.
  - pose proof (status_unchecked Acme.parse Acme.remote Acme.remote
                  "https://api.github.com/orgs/nobody" [] 404 404
                  (Acme.render Acme.doc_not_found)
                  ltac:(vm_compute; reflexivity) ltac:(vm_compute; reflexivity)
                  ltac:(discriminate) ltac:(discriminate)) as (_ & _ & _ & Hzero).
    apply (Hzero [("message", Json.JString "Not Found");
                  ("documentation_url", Json.JString "https://docs.github.com/rest")]%string).
    + vm_compute. reflexivity.
    + repeat constructor.
Defined.

(** C10, as stated, fails: a 404 response whose body is the object with the
    one member [login] makes [GetOrganization] return an organisation that is
    not the zero value. *)
Lemma status_unchecked_counterexample :
  Acme.remote_404_login [] Acme.org_url = Response 404 (Acme.render Acme.doc_login_only)
  /\ Acme.parse (Acme.render Acme.doc_login_only)
     = Some (Json.JObject [("login", Json.JString "acme")]%string)
  /\ fst (GetOrganization Acme.remote_404_login Acme.parse Acme.org_url [])
     = Ok (Organization.Build 0 "acme" "" "")
  /\ fst (GetOrganization Acme.remote_404_login Acme.parse Acme.org_url [])
     <> Ok Organization.zero.
Proof.
  repeat split; try (vm_compute; reflexivity).
  vm_compute. discriminate.
Qed.

(** C5. [GetMembers] sends its one request to the members URL as the API
    gave it, template suffix included; the normalised URL is only printed.
    Against a remote that serves the list under the normalised URL the
    members are lost. *)
Theorem members_fetch_raw :
  Organization_GetMembers Acme.remote Acme.parse Acme.acme []
  = (Ok [],
     [Get "https://api.github.com/orgs/acme/members{/member}";
      Println "members url:  https://api.github.com/orgs/acme/members"])
  /\ _ExtractUrl (Organization.MembersUrl Acme.acme)
     = "https://api.github.com/orgs/acme/members"%string
  /\ (exists body,
        Acme.remote [] (_ExtractUrl (Organization.MembersUrl Acme.acme))
        = Response 200 body
        /\ Json.Unmarshal_Users Acme.parse body = Some [Acme.bob; Acme.carol])
  /\ Organization_GetRepositories Acme.remote Acme.parse Acme.acme []
     = (Ok [Acme.r1], [Get "https://api.github.com/orgs/acme/repos"]).
Proof.
  split; [| split; [| split]].
  - vm_compute. reflexivity.
  - vm_compute. reflexivity.
  - exists (Acme.render (Json.JArray [Acme.doc_User Acme.bob; Acme.doc_User Acme.carol])).
    split.
    + vm_compute. reflexivity.
    + vm_compute. reflexivity.
  - vm_compute. reflexivity.
Qed.

(* ===================================================================== *)
(** * The tree flattener                                                  *)
(* ===================================================================== *)


Example flatten_plain :
  flatten Acme.plain (Some 0)
  = Ok [TargetFile.Build "b.txt" "world" (Some 0);
        TargetFile.Build "copy.txt" "hello" (Some 0)].
Proof. vm_compute. reflexivity. Qed.

Example flatten_with_script :
  flatten Acme.with_script (Some 0) = Panic "index out of range".
Proof. vm_compute. reflexivity. Qed.

Section FlattenFacts.

Variable names : gmap string string.
Variable repo : option addr.

Lemma fill_fits blobs : forall i targets,
  i + length blobs <= length targets ->
  exists out,
    fill names repo blobs i targets = Ok out
    /\ length out = length targets
    /\ (forall k obj, blobs !! k = Some obj -> out !! (i + k) = Some (target_of names repo obj))
    /\ (forall j, j < i \/ i + length blobs <= j -> out !! j = targets !! j).
Proof.
  induction blobs as [| obj rest IH]; intros i targets Hlen; simpl in *.
  - exists targets. split; [reflexivity | split; [reflexivity | split]].
    + intros k obj Hk. now rewrite lookup_nil in Hk.
    + reflexivity.
  - destruct (Nat.ltb_spec i (length targets)) as [Hi | Hi]; [| lia].
    destruct (IH (S i) (<[i := target_of names repo obj]> targets)) as (out & Hout & Hl & Hin & Hother).
    { rewrite length_insert. lia. }
    exists out. split; [exact Hout |]. split; [now rewrite Hl, length_insert |]. split.
    + intros [| k] o Hk; simpl in Hk.
      * injection Hk as <-. rewrite Nat.add_0_r, Hother by lia.
        now apply list_lookup_insert_eq.
      * replace (i + S k) with (S i + k) by lia. now apply Hin.
    + intros j Hj. rewrite Hother by lia.
      apply list_lookup_insert_ne. lia.
Qed.

Lemma fill_overflows blobs : forall i targets,
  i <= length targets ->
  length targets < i + length blobs ->
  fill names repo blobs i targets = Panic "index out of range".
Proof.
  induction blobs as [| obj rest IH]; intros i targets Hi Hlen; simpl in *.
  - lia.
  - destruct (Nat.ltb_spec i (length targets)) as [Hlt | Hge]; [| reflexivity].
    apply IH; rewrite length_insert; lia.
Qed.

End FlattenFacts.

Lemma record_entries_lookup entries h : forall names,
  record_entries names entries !! h = None <->
  names !! h = None
  /\ forall entry, In entry entries -> TreeEntry.Mode entry = filemode.Regular ->
                   TreeEntry.Hash entry <> h.
Proof.
  unfold record_entries.
  induction entries as [| e rest IH]; intros names; simpl.
  - split; [intros H; split; [exact H | intros ? []] | intros [H _]; exact H].
  - rewrite IH. destruct (N.eqb_spec (TreeEntry.Mode e) filemode.Regular) as [Hm | Hm].
    + rewrite lookup_insert_None. split.
      * intros [[Hn Hne] Hrest]. split; [exact Hn |].
        intros entry [<- | Hin] Hmode; [exact Hne | now apply Hrest].
      * intros [Hn Hall]. split; [split; [exact Hn | apply Hall; auto] |].
        intros entry Hin. apply Hall. now right.
    + split.
      * intros [Hn Hrest]. split; [exact Hn |].
        intros entry [<- | Hin] Hmode; [contradiction | now apply Hrest].
      * intros [Hn Hall]. split; [exact Hn |].
        intros entry Hin. apply Hall. now right.
Qed.

Lemma fold_names_lookup trees h : forall names,
  fold_left (fun names binTree => record_entries names (snd binTree)) trees names !! h = None
  <-> names !! h = None /\ ~ referenced trees h.
Proof.
  induction trees as [| tree rest IH]; intros names; simpl.
  - split; [intros H; split; [exact H |] | intros [H _]; exact H].
    intros (t & e & [] & _).
  - rewrite IH, record_entries_lookup. split.
    + intros [[Hn Hhere] Hrest]. split; [exact Hn |].
      intros (t & e & [<- | Hin] & He & Hm & Hh).
      * exact (Hhere e He Hm Hh).
      * apply Hrest. now exists t, e.
    + intros [Hn Hno]. split; [split; [exact Hn |] |].
      * intros e He Hm Hh. apply Hno. exists tree, e.
        split; [now left | auto].
      * intros (t & e & Hin & He & Hm & Hh). apply Hno. exists t, e.
        split; [now right | auto].
Qed.

Lemma collect_names_unreferenced trees h :
  collect_names trees !! h = None <-> ~ referenced trees h.
Proof.
  unfold collect_names. rewrite fold_names_lookup, lookup_empty. tauto.
Qed.

(** What [flatten] returns: with at most as many blobs as named hashes, a
    slice of [len(names)] records, the first ones being the blobs' and the
    others zero values; with more blobs, a panic. *)
Lemma flatten_outcome (storer : Storage) (repo : option addr) :
  let names := collect_names (Trees storer) in
  (length (Blobs storer) <= size names ->
   exists out,
     flatten storer repo = Ok out
     /\ length out = size names
     /\ (forall k obj, Blobs storer !! k = Some obj ->
                       out !! k = Some (target_of names repo obj))
     /\ (forall j, length (Blobs storer) <= j < size names ->
                   out !! j = Some TargetFile.zero))
  /\ (size names < length (Blobs storer) ->
      flatten storer repo = Panic "index out of range").
Proof.
  intros names. unfold flatten. fold names. split.
  - intros Hle.
    destruct (fill_fits names repo (Blobs storer) 0 (replicate (size names) TargetFile.zero))
      as (out & Hout & Hl & Hin & Hother).
    { rewrite length_replicate. simpl. exact Hle. }
    exists out. rewrite length_replicate in Hl. repeat split; auto.
    intros j Hj. rewrite Hother by (simpl; lia).
    apply lookup_replicate_2. lia.
  - intros Hlt. apply fill_overflows; rewrite length_replicate; simpl; lia.
Qed.

(** C1. The flattener does not produce one record per blob: [targets] is
    made with [len(names)] slots, not [len(storer.Blobs)].  A store with a
    regular file and an executable one has two blobs and one named hash, and
    the second index assignment panics; so does a store whose only blob is
    an executable file, where the claim asks for one record with the empty
    name. *)
Theorem flatten_blob_count :
  length (Blobs Acme.with_script) = 2
  /\ size (collect_names (Trees Acme.with_script)) = 1
  /\ ~ referenced (Trees Acme.with_script) "blob-b"
  /\ flatten Acme.with_script (Some 0) = Panic "index out of range"
  /\ ~ referenced (Trees Acme.only_script) "blob-b"
  /\ flatten Acme.only_script (Some 0) = Panic "index out of range".
Proof.
  repeat split; try (vm_compute; reflexivity).
  - apply collect_names_unreferenced. vm_compute. reflexivity.
  - apply collect_names_unreferenced. vm_compute. reflexivity.
Qed.

(* ===================================================================== *)
(** * The concurrent dispatch                                             *)
(* ===================================================================== *)


Section DispatchFacts.

Context {W : Type}.
Variable git_Clone : string -> option Storage.
Variable hooks : list (@Hook W).
Variable repos : list Repository.t.
Variable loopvar : nat -> addr.

Local Abbreviation step := (Dispatch.step git_Clone hooks repos loopvar).
Local Abbreviation run := (Dispatch.run git_Clone hooks repos loopvar).
Local Abbreviation reachable := (Dispatch.reachable git_Clone hooks repos loopvar).

Lemma run_snoc schedule a (s : State) :
  run (schedule ++ [a]) s =
  match run schedule s with
  | Some s' => step a s'
  | None => None
  end.
Proof.
  revert s. induction schedule as [| b rest IH]; intros s; simpl.
  - now destruct (step a s).
  - destruct (step b s); [apply IH | reflexivity].
Qed.

(** Induction over the reachable states. *)
Lemma reachable_invariant (P : State -> Prop) (w : W) :
  P (initial w) ->
  (forall s a s', reachable w s -> P s -> step a s = Some s' -> P s') ->
  forall s, reachable w s -> P s.
Proof.
  intros Hinit Hstep s [schedule Hrun]. revert s Hrun.
  induction schedule as [| a schedule IH] using rev_ind; intros s Hrun.
  - simpl in Hrun. now injection Hrun as <-.
  - rewrite run_snoc in Hrun.
    destruct (run schedule (initial w)) as [s0 |] eqn:Hs0; [| discriminate].
    apply (Hstep s0 a s); [now exists schedule | now apply IH | exact Hrun].
Qed.

Lemma reachable_step (w : W) s a s' :
  reachable w s -> step a s = Some s' -> reachable w s'.
Proof.
  intros [schedule Hrun] Hstep. exists (schedule ++ [a]).
  now rewrite run_snoc, Hrun.
Qed.

(** ** Stores and filesystems *)

Lemma alloc_inv_fresh_fs e m n : m <> Start -> alloc_inv e m (S n) n [] [].
Proof.
  intros Hm. split; try (intros; lookup_cases; first [congruence | lia | easy]).
Qed.

Lemma alloc_inv_started e m n f ts acq t task :
  alloc_inv e m n f ts acq -> ts !! t = Some task -> m <> Start.
Proof.
  intros I Ht Hm. destruct (inv_start _ _ _ _ _ _ I Hm) as [Hts _].
  rewrite Hts in Ht. discriminate.
Qed.

Lemma alloc_inv_main e m m' n f ts acq :
  alloc_inv e m n f ts acq -> m <> Start -> m' <> Start -> alloc_inv e m' n f ts acq.
Proof.
  intros [I1 I2 I3 I4 I5 I6 I7 I8] Hm Hm'. split; auto; intros; contradiction.
Qed.

Lemma alloc_inv_exit e msg m n f ts acq :
  alloc_inv e m n f ts acq -> alloc_inv (Some msg) m n f ts acq.
Proof.
  intros [I1 I2 I3 I4 I5 I6 I7 I8]. split; auto; discriminate.
Qed.

Lemma alloc_inv_pc e m n f ts acq t task task' :
  alloc_inv e m n f ts acq -> ts !! t = Some task ->
  fs_arg task' = fs_arg task -> storer_of task' = None ->
  alloc_inv e m n f (<[t := task']> ts) acq.
Proof.
  intros I Ht Hfs Hst.
  pose proof (alloc_inv_started _ _ _ _ _ _ _ _ I Ht) as Hm.
  destruct I as [I1 I2 I3 I4 I5 I6 I7 I8]. split; auto.
  - intros; contradiction.
  - intros t1 task1 H1. lookup_cases; try rewrite Hfs; eauto.
  - intros t1 task1 l H1 Hl. lookup_cases; try congruence; eauto.
  - intros t1 t2 task1 task2 l Hne H1 H2 Hl. lookup_cases; try congruence; eauto.
  - intros He t1 task1 l i a H1 Hl Ha. lookup_cases; try congruence; eauto.
Qed.

Lemma alloc_inv_spawn e m n f ts acq :
  alloc_inv e m n f ts acq -> m <> Start ->
  alloc_inv e m n f (ts ++ [BuildTask f Receiving]) acq.
Proof.
  intros [I1 I2 I3 I4 I5 I6 I7 I8] Hm. split; auto.
  - intros; contradiction.
  - intros t1 task1 H1. lookup_cases; eauto.
  - intros t1 task1 l H1 Hl. lookup_cases; eauto.
  - intros t1 t2 task1 task2 l Hne H1 H2 Hl.
    lookup_cases; try discriminate; try lia; eauto.
  - intros He t1 task1 l i a H1 Hl Ha. lookup_cases; eauto.
Qed.

Lemma alloc_inv_new_storer e m n f ts acq t task p :
  alloc_inv e m n f ts acq -> ts !! t = Some task ->
  alloc_inv e m (S n) f (<[t := BuildTask (fs_arg task) (Cloning p n)]> ts) acq.
Proof.
  intros I Ht.
  pose proof (alloc_inv_started _ _ _ _ _ _ _ _ I Ht) as Hm.
  destruct I as [I1 I2 I3 I4 I5 I6 I7 I8]. specialize (I2 Hm).
  assert (Hold : forall t1 task1 l, ts !! t1 = Some task1 ->
                   storer_of task1 = Some l -> l < n /\ l <> n /\ l <> f).
  { intros t1 task1 l H1 Hl. destruct (I4 _ _ _ H1 Hl). lia. }
  assert (Hacq : forall i a, acq !! i = Some a -> into_storer a <> n).
  { intros i a Ha. destruct (I6 _ _ Ha). lia. }
  split.
  - intros; contradiction.
  - intros _. lia.
  - intros t1 task1 H1. lookup_cases; eauto.
  - intros t1 task1 l H1 Hl. lookup_cases; [lia |].
    destruct (Hold _ _ _ ltac:(eassumption) Hl). lia.
  - intros t1 t2 task1 task2 l Hne H1 H2 Hl.
    lookup_cases; try congruence.
    + intros Hl'. injection Hl' as <-.
      match goal with
      | H : ts !! _ = Some ?x, Hs : storer_of ?x = Some _ |- _ =>
          destruct (Hold _ _ _ H Hs) as (? & ? & ?)
      end. congruence.
    + intros Hl'.
      match goal with
      | H : ts !! _ = Some ?x, Hs : storer_of ?x = Some _ |- _ =>
          destruct (Hold _ _ _ H Hs) as (? & ? & ?)
      end. congruence.
    + eapply (I5 t1 t2); eauto.
  - intros i a Ha. destruct (I6 _ _ Ha) as (? & ? & ?). repeat split; auto.
  - exact I7.
  - intros He t1 task1 l i a H1 Hl Ha. lookup_cases.
    + eapply Hacq; eauto.
    + eapply I8; eauto.
Qed.

Lemma alloc_inv_acquired_acq m n f ts acq t task p l r :
  alloc_inv None m n f ts acq -> ts !! t = Some task -> pc task = Cloning p l ->
  (forall i a, (acq ++ [BuildAcquisition t p l (fs_arg task) r]) !! i = Some a ->
               into_storer a < n /\ into_storer a <> f /\ into_fs a = f)
  /\ (forall i j a b, i <> j ->
        (acq ++ [BuildAcquisition t p l (fs_arg task) r]) !! i = Some a ->
        (acq ++ [BuildAcquisition t p l (fs_arg task) r]) !! j = Some b ->
        into_storer a <> into_storer b).
Proof.
  intros [I1 I2 I3 I4 I5 I6 I7 I8] Ht Hpc.
  assert (Hst : storer_of task = Some l) by (unfold storer_of; now rewrite Hpc).
  assert (Hfresh : forall i a, acq !! i = Some a -> into_storer a <> l).
  { intros i a Ha. exact (I8 eq_refl _ _ _ _ _ Ht Hst Ha). }
  split.
  - intros i a Ha. lookup_cases; [eauto |].
    destruct (I4 _ _ _ Ht Hst). repeat split; eauto.
  - intros i j a b Hne Ha Hb. lookup_cases; try lia;
      first [ solve [eauto]
            | intros Heq; eapply Hfresh; eauto; congruence ].
Qed.

Lemma alloc_inv_acquired m n f ts acq t task task' p l r :
  alloc_inv None m n f ts acq -> ts !! t = Some task -> pc task = Cloning p l ->
  fs_arg task' = fs_arg task -> storer_of task' = None ->
  alloc_inv None m n f (<[t := task']> ts) (acq ++ [BuildAcquisition t p l (fs_arg task) r]).
Proof.
  intros I Ht Hpc Hfs Hst.
  destruct (alloc_inv_acquired_acq _ _ _ _ _ _ _ _ _ r I Ht Hpc) as [A1 A2].
  pose proof (alloc_inv_pc _ _ _ _ _ _ _ _ _ I Ht Hfs Hst) as [J1 J2 J3 J4 J5 J6 J7 J8].
  assert (Hl : storer_of task = Some l) by (unfold storer_of; now rewrite Hpc).
  destruct I as [I1 I2 I3 I4 I5 I6 I7 I8].
  split; auto.
  - intros Hm. destruct (J1 Hm) as [Hts _].
    apply (f_equal length) in Hts. rewrite length_insert in Hts.
    apply lookup_lt_Some in Ht. simpl in Hts. lia.
  - intros _ t1 task1 l1 i a H1 Hl1 Ha. lookup_cases; try congruence.
    + eapply I8; eauto.
    + intros <-. eapply (I5 t t1); eauto.
Qed.

Lemma alloc_inv_acquired_exit msg m n f ts acq t task p l r :
  alloc_inv None m n f ts acq -> ts !! t = Some task -> pc task = Cloning p l ->
  alloc_inv (Some msg) m n f ts (acq ++ [BuildAcquisition t p l (fs_arg task) r]).
Proof.
  intros I Ht Hpc.
  destruct (alloc_inv_acquired_acq _ _ _ _ _ _ _ _ _ r I Ht Hpc) as [A1 A2].
  pose proof (alloc_inv_started _ _ _ _ _ _ _ _ I Ht) as Hm.
  destruct I as [I1 I2 I3 I4 I5 I6 I7 I8].
  split; auto; first [intros; contradiction | discriminate].
Qed.

Lemma state_alloc_inv_step s a s' :
  state_alloc_inv s -> step a s = Some s' -> state_alloc_inv s'.
Proof.
  unfold state_alloc_inv. intros I Hstep. unfold Dispatch.step in Hstep.
  destruct (exited s) eqn:He; [discriminate |].
  destruct a as [| t].
  - unfold step_main in Hstep. destruct (main s) eqn:Hm.
    + injection Hstep as <-. cbn. rewrite He.
      destruct (inv_start _ _ _ _ _ _ I eq_refl) as [-> ->].
      apply alloc_inv_fresh_fs. discriminate.
    + destruct (repos !! i) eqn:Hr; injection Hstep as <-; cbn; rewrite ?He, ?Hm.
      * apply alloc_inv_spawn; [| discriminate].
        apply (alloc_inv_main _ (Looping i)); [assumption | discriminate | discriminate].
      * apply (alloc_inv_main _ (Looping i)); [assumption | discriminate | discriminate].
    + discriminate.
    + destruct (wg s =? 0)%nat; [| discriminate]. injection Hstep as <-. cbn.
      rewrite He.
      apply (alloc_inv_main _ Waiting); [assumption | discriminate | discriminate].
    + discriminate.
  - unfold step_task in Hstep.
    destruct (tasks s !! t) as [task |] eqn:Ht; [| discriminate].
    destruct (pc task) eqn:Hpc.
    + destruct (main s) eqn:Hm; try discriminate. injection Hstep as <-. cbn.
      rewrite He.
      apply (alloc_inv_main _ (Sending i)); [| discriminate | discriminate].
      eapply alloc_inv_pc; eauto.
    + injection Hstep as <-. cbn. rewrite He. now apply alloc_inv_new_storer.
    + destruct (memory s !! repo) as [deref |] eqn:Hmem.
      * cbv zeta in Hstep.
        destruct (ParseRepository git_Clone repo deref) eqn:Hparse;
          injection Hstep as <-; cbn; rewrite ?He.
        -- eapply alloc_inv_acquired; eauto.
        -- eapply alloc_inv_acquired_exit; eauto.
        -- eapply alloc_inv_acquired_exit; eauto.
      * injection Hstep as <-. cbn. eapply alloc_inv_exit; eauto.
    + destruct (files !! file) eqn:Hfile.
      * destruct (hooks !! hook) eqn:Hhook; [destruct inside |];
          injection Hstep as <-; cbn; rewrite ?He; eapply alloc_inv_pc; eauto.
      * injection Hstep as <-. cbn. rewrite He. eapply alloc_inv_pc; eauto.
    + discriminate.
Qed.

Lemma reachable_alloc_inv (w : W) s : reachable w s -> state_alloc_inv s.
Proof.
  apply reachable_invariant.
  - split; simpl; intros; lookup_cases; first [easy | discriminate | lia].
  - intros s0 a s1 _. apply state_alloc_inv_step.
Qed.

(** ** The order of the hook calls *)

Local Abbreviation task_inv := (Dispatch.task_inv git_Clone hooks).
Local Abbreviation calls_inv := (Dispatch.calls_inv git_Clone hooks).
Local Abbreviation acquired := (Dispatch.acquired git_Clone).

Lemma hook_calls_S t n h :
  hook_calls t n (S h) = hook_calls t n h ++ [Enter t n h; Leave t n h].
Proof.
  unfold hook_calls. rewrite seq_S, flat_map_app. simpl. reflexivity.
Qed.

Lemma task_calls_S t n H :
  task_calls t (S n) H = task_calls t n H ++ hook_calls t n H.
Proof.
  unfold task_calls. rewrite seq_S, flat_map_app. simpl. now rewrite app_nil_r.
Qed.

Lemma filter_other_event t e cs :
  event_task e <> t -> List.filter (of_task t) (cs ++ [e]) = List.filter (of_task t) cs.
Proof.
  intros Hne. rewrite List.filter_app. simpl.
  replace (of_task t e) with false; [apply app_nil_r |].
  symmetry. destruct e; simpl in *; now apply Nat.eqb_neq.
Qed.

Lemma filter_own_event t e cs :
  event_task e = t -> List.filter (of_task t) (cs ++ [e]) = List.filter (of_task t) cs ++ [e].
Proof.
  intros He. rewrite List.filter_app. simpl.
  replace (of_task t e) with true; [reflexivity |].
  symmetry. destruct e; simpl in *; now apply Nat.eqb_eq.
Qed.

Lemma acquired_more acq a t files : acquired acq t files -> acquired (acq ++ [a]) t files.
Proof.
  intros (b & Hin & Ht & Hp). exists b. split; [| auto].
  apply in_or_app. now left.
Qed.

Lemma task_inv_more_acq cs acq a t task :
  task_inv cs acq t task -> task_inv cs (acq ++ [a]) t task.
Proof.
  unfold Dispatch.task_inv. destruct (pc task); auto.
  - intros (H1 & H2 & H3). split; [exact H1 |]. split; [| exact H3].
    now apply acquired_more.
  - intros (files & H1 & H2). exists files. split; [| exact H2].
    now apply acquired_more.
Qed.

Lemma task_inv_other_event cs acq e t task :
  event_task e <> t -> task_inv cs acq t task -> task_inv (cs ++ [e]) acq t task.
Proof.
  intros Hne. unfold Dispatch.task_inv. now rewrite filter_other_event.
Qed.

Lemma calls_inv_more_acq ts cs acq a :
  calls_inv ts cs acq -> calls_inv ts cs (acq ++ [a]).
Proof.
  intros [I1 I2]. split; [exact I1 |].
  intros t task Ht. apply task_inv_more_acq. eauto.
Qed.

Lemma calls_inv_pc ts cs acq t task task' :
  calls_inv ts cs acq -> ts !! t = Some task -> task_inv cs acq t task' ->
  calls_inv (<[t := task']> ts) cs acq.
Proof.
  intros [I1 I2] Ht Hnew. split.
  - intros t1. rewrite length_insert. apply I1.
  - intros t1 task1 H1. lookup_cases; eauto.
Qed.

Lemma calls_inv_spawn ts cs acq f :
  calls_inv ts cs acq -> calls_inv (ts ++ [BuildTask f Receiving]) cs acq.
Proof.
  intros [I1 I2]. split.
  - intros t1. rewrite length_app. simpl. intros Hle. apply I1. lia.
  - intros t1 task1 H1. lookup_cases; eauto.
    unfold Dispatch.task_inv. simpl. apply I1. lia.
Qed.

Lemma calls_inv_event ts cs acq t task task' e :
  calls_inv ts cs acq -> ts !! t = Some task -> event_task e = t ->
  task_inv (cs ++ [e]) acq t task' ->
  calls_inv (<[t := task']> ts) (cs ++ [e]) acq.
Proof.
  intros [I1 I2] Ht He Hnew. split.
  - intros t1. rewrite length_insert. intros Hle.
    rewrite filter_other_event; [now apply I1 |].
    apply lookup_lt_Some in Ht. lia.
  - intros t1 task1 H1. lookup_cases; [exact Hnew |].
    apply task_inv_other_event; [congruence | eauto].
Qed.

Local Abbreviation state_calls_inv := (Dispatch.state_calls_inv git_Clone hooks).

Lemma state_calls_inv_step s a s' :
  state_calls_inv s -> step a s = Some s' -> state_calls_inv s'.
Proof.
  unfold Dispatch.state_calls_inv. intros I Hstep. unfold Dispatch.step in Hstep.
  destruct (exited s) eqn:He; [discriminate |].
  destruct a as [| t].
  - unfold step_main in Hstep. destruct (main s) eqn:Hm.
    + injection Hstep as <-. exact I.
    + destruct (repos !! i) eqn:Hr; injection Hstep as <-; cbn.
      * now apply calls_inv_spawn.
      * exact I.
    + discriminate.
    + destruct (wg s =? 0)%nat; [| discriminate]. injection Hstep as <-. exact I.
    + discriminate.
  - unfold step_task in Hstep.
    destruct (tasks s !! t) as [task |] eqn:Ht; [| discriminate].
    pose proof (proj2 I t task Ht) as Htask. unfold Dispatch.task_inv in Htask.
    destruct (pc task) eqn:Hpc.
    + destruct (main s) eqn:Hm; try discriminate. injection Hstep as <-. cbn.
      eapply calls_inv_pc; eauto.
    + injection Hstep as <-. cbn. eapply calls_inv_pc; eauto.
    + destruct (memory s !! repo) as [deref |] eqn:Hmem.
      * cbv zeta in Hstep.
        destruct (ParseRepository git_Clone repo deref) eqn:Hparse;
          injection Hstep as <-; cbn.
        -- eapply calls_inv_pc; [now apply calls_inv_more_acq | eauto |].
           unfold Dispatch.task_inv. cbn. repeat split; auto; try lia; try discriminate.
           eexists. split; [apply in_or_app; right; now left |]. cbn. auto.
        -- now apply calls_inv_more_acq.
        -- now apply calls_inv_more_acq.
      * injection Hstep as <-. exact I.
    + destruct Htask as (Hcalls & Hacq & Hn & Hh & Hinside & Hlast).
      destruct (files !! file) eqn:Hfile.
      * pose proof (lookup_lt_Some _ _ _ Hfile) as Hlt.
        destruct (hooks !! hook) eqn:Hhook; [destruct inside |];
          injection Hstep as <-; cbn.
        -- eapply calls_inv_event; eauto.
           unfold Dispatch.task_inv. cbn. rewrite filter_own_event by reflexivity.
           rewrite Hcalls. unfold calls_before.
           rewrite hook_calls_S, app_nil_r, <- !app_assoc. cbn.
           destruct (Hinside eq_refl). repeat split; auto; try lia; discriminate.
        -- apply lookup_lt_Some in Hhook. change (hook < length hooks) in Hhook.
           eapply calls_inv_event; eauto.
           unfold Dispatch.task_inv. cbn. rewrite filter_own_event by reflexivity.
           rewrite Hcalls. unfold calls_before.
           rewrite app_nil_r, <- !app_assoc.
           repeat split; auto; lia.
        -- apply lookup_ge_None in Hhook.
           assert (hook = length hooks) as -> by (apply Nat.le_antisymm; assumption).
           assert (inside = false) as ->.
           { destruct inside; [| reflexivity]. destruct (Hinside eq_refl). lia. }
           eapply calls_inv_pc; eauto.
           unfold Dispatch.task_inv. cbn. rewrite Hcalls. unfold calls_before.
           rewrite task_calls_S. cbn. rewrite !app_nil_r.
           repeat split; auto; try lia; discriminate.
      * apply lookup_ge_None in Hfile.
        assert (file = length files) as -> by lia.
        assert (inside = false) as ->.
        { destruct inside; [| reflexivity]. destruct (Hinside eq_refl). lia. }
        rewrite (Hlast eq_refl) in *.
        injection Hstep as <-. cbn.
        eapply calls_inv_pc; eauto.
        unfold Dispatch.task_inv. cbn. exists files. split; [exact Hacq |].
        rewrite Hcalls. unfold calls_before. cbn. now rewrite app_nil_r.
    + discriminate.
Qed.

Lemma reachable_calls_inv (w : W) s : reachable w s -> state_calls_inv s.
Proof.
  apply reachable_invariant.
  - split; [reflexivity |]. intros t task Ht. discriminate.
  - intros s0 a s1 _. apply state_calls_inv_step.
Qed.

(** The calls of a task carry the stamps 0, 1, 2, ... *)
Lemma stamp_hook_calls t n H h :
  map (stamp H) (hook_calls t n h) = seq (2 * (n * H)) (2 * h).
Proof.
  induction h as [| h IH].
  - reflexivity.
  - rewrite hook_calls_S, map_app, IH.
    replace (2 * S h) with (2 * h + 2) by lia.
    rewrite seq_app. f_equal. cbn [map stamp seq]. repeat f_equal; lia.
Qed.

Lemma stamp_task_calls t n H :
  map (stamp H) (task_calls t n H) = seq 0 (2 * (n * H)).
Proof.
  induction n as [| n IH].
  - reflexivity.
  - rewrite task_calls_S, map_app, IH, stamp_hook_calls.
    replace (2 * (S n * H)) with (2 * (n * H) + 2 * H) by lia.
    now rewrite seq_app.
Qed.

Lemma stamp_calls_before t H n h inside :
  map (stamp H) (calls_before t H n h inside)
  = seq 0 (2 * (n * H + h) + (if inside then 1 else 0)).
Proof.
  unfold calls_before.
  rewrite !map_app, stamp_task_calls, stamp_hook_calls.
  replace (2 * (n * H + h) + (if inside then 1 else 0))
    with (2 * (n * H) + (2 * h + (if inside then 1 else 0))) by lia.
  rewrite !seq_app. do 2 f_equal.
  destruct inside; cbn [map stamp seq]; repeat f_equal; lia.
Qed.

Lemma stamp_lookup (l : list CallEvent) H K i e :
  map (stamp H) l = seq 0 K -> l !! i = Some e -> stamp H e = i.
Proof.
  intros Hmap Hi.
  assert (Hs : map (stamp H) l !! i = Some (stamp H e)).
  { rewrite list_lookup_fmap_Some. firstorder. }
  rewrite Hmap in Hs. apply lookup_seq in Hs. lia.
Qed.

Lemma hook_calls_bound t n h e : In e (hook_calls t n h) -> event_hook e < h.
Proof.
  unfold hook_calls. rewrite in_flat_map. intros (h' & Hseq & Hin).
  apply in_seq in Hseq. simpl in Hin.
  destruct Hin as [<- | [<- | []]]; simpl; lia.
Qed.

Lemma task_calls_bound t n H e : In e (task_calls t n H) -> event_hook e < H.
Proof.
  unfold task_calls. rewrite in_flat_map. intros (n' & _ & Hin).
  now apply hook_calls_bound in Hin.
Qed.

Lemma calls_before_bound t H n h inside e :
  h <= H -> (inside = true -> h < H) ->
  In e (calls_before t H n h inside) -> event_hook e < H.
Proof.
  intros Hh Hinside. unfold calls_before. rewrite !in_app_iff.
  intros [Hin | [Hin | Hin]].
  - now apply task_calls_bound in Hin.
  - apply hook_calls_bound in Hin. lia.
  - destruct inside; [| contradiction]. destruct Hin as [<- | []]. simpl. auto.
Qed.

Lemma stamp_injective H e1 e2 :
  event_hook e1 < H -> event_hook e2 < H -> event_task e1 = event_task e2 ->
  stamp H e1 = stamp H e2 -> e1 = e2.
Proof.
  intros H1 H2 Ht Hs.
  destruct e1 as [t1 n1 h1 | t1 n1 h1], e2 as [t2 n2 h2 | t2 n2 h2];
    simpl in *; subst; try lia.
  - assert (n1 = n2) by nia. subst. assert (h1 = h2) by lia. now subst.
  - assert (n1 = n2) by nia. subst. assert (h1 = h2) by lia. now subst.
Qed.

Lemma calls_before_task t H n h inside e :
  In e (calls_before t H n h inside) -> event_task e = t.
Proof.
  unfold calls_before, task_calls, hook_calls.
  rewrite !in_app_iff, !in_flat_map.
  intros [(n' & _ & Hin) | [(h' & _ & Hin) | Hin]].
  - apply in_flat_map in Hin. destruct Hin as (h' & _ & Hin). simpl in Hin.
    destruct Hin as [<- | [<- | []]]; reflexivity.
  - simpl in Hin. destruct Hin as [<- | [<- | []]]; reflexivity.
  - destruct inside; [| contradiction]. destruct Hin as [<- | []]. reflexivity.
Qed.

Lemma calls_before_in_order t H n h inside :
  h <= H -> (inside = true -> h < H) ->
  in_order t H (calls_before t H n h inside).
Proof.
  intros Hh Hinside.
  pose proof (stamp_calls_before t H n h inside) as Hstamps.
  set (l := calls_before t H n h inside) in *.
  assert (Hbound : forall i e, l !! i = Some e -> event_hook e < H /\ event_task e = t).
  { intros i e Hi. apply list_elem_of_lookup_2, list_elem_of_In in Hi. split.
    - eapply calls_before_bound; eauto.
    - eapply calls_before_task; eauto. }
  split.
  - intros i n0 h0 Hi.
    pose proof (stamp_lookup _ _ _ _ _ Hstamps Hi) as Hs. simpl in Hs.
    destruct i as [| i']; [lia |]. exists i'. split; [reflexivity |].
    destruct (l !! i') as [e |] eqn:He.
    + f_equal. destruct (Hbound _ _ He) as [Hb Ht].
      destruct (Hbound _ _ Hi) as [Hb' _]. simpl in Hb'.
      pose proof (stamp_lookup _ _ _ _ _ Hstamps He) as Hs'.
      apply (stamp_injective H); simpl; auto. lia.
    + apply lookup_ge_None in He. apply lookup_lt_Some in Hi. lia.
  - intros i j n0 h0 n' h' Hi Hj Hlt.
    pose proof (stamp_lookup _ _ _ _ _ Hstamps Hi) as Hsi.
    pose proof (stamp_lookup _ _ _ _ _ Hstamps Hj) as Hsj.
    destruct (Hbound _ _ Hi) as [Hb _]. simpl in *. nia.
Qed.

Lemma task_inv_closed cs acq t task :
  task_inv cs acq t task ->
  exists n h inside,
    List.filter (of_task t) cs = calls_before t (length hooks) n h inside
    /\ h <= length hooks /\ (inside = true -> h < length hooks).
Proof.
  unfold Dispatch.task_inv. destruct (pc task).
  - intros ->. exists 0, 0, false. repeat split; [lia | discriminate].
  - intros ->. exists 0, 0, false. repeat split; [lia | discriminate].
  - intros ->. exists 0, 0, false. repeat split; [lia | discriminate].
  - intros (H1 & _ & _ & H2 & H3 & _). exists file, hook, inside.
    repeat split; auto. intros Hi. now destruct (H3 Hi).
  - intros (files & _ & ->). exists (length files), 0, false.
    unfold calls_before. cbn. rewrite app_nil_r.
    repeat split; [lia | discriminate].
Qed.

(** C3, as amended.  Every call of [git.Clone] gets a store of its own:
    the stores of two different acquisitions differ, and none is the
    filesystem.  The filesystem is the one [FullRecon] made before its loop,
    the same for all acquisitions. *)
Theorem stores_fresh_filesystem_shared (w : W) (s : State) (i j : nat)
    (a b : Acquisition) :
  reachable w s ->
  i <> j ->
  acquisitions s !! i = Some a ->
  acquisitions s !! j = Some b ->
  into_storer a <> into_storer b
  /\ into_storer a <> fs s
  /\ into_fs a = fs s /\ into_fs b = fs s.
Proof.
  intros Hreach Hij Ha Hb.
  destruct (reachable_alloc_inv w s Hreach) as [I1 I2 I3 I4 I5 I6 I7 I8].
  destruct (I6 _ _ Ha) as (_ & Hfa & Hfsa).
  destruct (I6 _ _ Hb) as (_ & _ & Hfsb).
  split; [exact (I7 i j a b Hij Ha Hb) |]. split; [exact Hfa |]. split; assumption.
Qed.

End DispatchFacts.

Lemma reachable_after_one_by_one :
  reachable Acme.git_Clone Acme.hooks [Acme.r1; Acme.r2] fresh_loopvar []
    Acme.after_one_by_one.
Proof. exists Acme.one_by_one. vm_compute. reflexivity. Qed.

Example calls_after_one_by_one :
  calls_of 0 Acme.after_one_by_one = task_calls 0 2 2
  /\ calls_of 1 Acme.after_one_by_one = task_calls 1 1 2
  /\ world Acme.after_one_by_one
     = ["b.txt"; "acme/site"; "copy.txt"; "acme/site"; ".bashrc"; "bob/dotfiles"]%string.
Proof. repeat split; vm_compute; reflexivity. Qed.

Lemma stores_fresh_filesystem_shared_witness :
  into_storer (BuildAcquisition 0 0 1 0 Acme.r1) <> into_storer (BuildAcquisition 1 1 2 0 Acme.r2)
  /\ into_storer (BuildAcquisition 0 0 1 0 Acme.r1) <> fs Acme.after_one_by_one
  /\ into_fs (BuildAcquisition 0 0 1 0 Acme.r1) = fs Acme.after_one_by_one
  /\ into_fs (BuildAcquisition 1 1 2 0 Acme.r2) = fs Acme.after_one_by_one.
Proof.
  apply (stores_fresh_filesystem_shared Acme.git_Clone Acme.hooks [Acme.r1; Acme.r2]
           fresh_loopvar [] Acme.after_one_by_one 0 1).
  - exact reachable_after_one_by_one.
  - lia.
  - vm_compute. reflexivity.
  - vm_compute. reflexivity.
Defined.

(** C3, as stated, fails: the two acquisitions of a run over two
    repositories are given the same filesystem, the object 0. *)
Lemma filesystem_shared_counterexample :
  option_map acquisitions
    (run Acme.git_Clone Acme.hooks [Acme.r1; Acme.r2] fresh_loopvar Acme.one_by_one
       (initial []))
  = Some [BuildAcquisition 0 0 1 0 Acme.r1; BuildAcquisition 1 1 2 0 Acme.r2]
  /\ into_fs (BuildAcquisition 0 0 1 0 Acme.r1) = into_fs (BuildAcquisition 1 1 2 0 Acme.r2).
Proof. split; vm_compute; reflexivity. Qed.

(** C2. With the one loop variable of a [range] loop (Go before 1.22), a
    task can clone a repository it was not spawned for: every task receives
    the same pointer [&repo], and when [FullRecon] enters its second
    iteration before the first task calls [git.Clone], that task reads the
    second repository through it.  In the run continued to the join, both
    tasks have cloned the second repository and no hook has seen a file of
    the first.  (One task per repository and the join hold for every loop
    variable, see [returned_all_done]; with a variable per iteration every
    task clones its own repository, see [fresh_loopvar_own_repository].) *)
Theorem task_clones_other_repository :
  option_map acquisitions
    (run Acme.git_Clone Acme.hooks [Acme.r1; Acme.r2] shared_loopvar Acme.late_clone
       (initial []))
  = Some [BuildAcquisition 0 0 1 0 Acme.r2]
  /\ [Acme.r1; Acme.r2] !! 0 = Some Acme.r1
  /\ Acme.r1 <> Acme.r2
  /\ option_map (fun s => (main s, List.map of_repo (acquisitions s), world s))
       (run Acme.git_Clone Acme.hooks [Acme.r1; Acme.r2] shared_loopvar
          (Acme.late_clone ++ Acme.late_clone_rest) (initial []))
     = Some (Returned, [Acme.r2; Acme.r2],
             [".bashrc"; "bob/dotfiles"; ".bashrc"; "bob/dotfiles"]%string).
Proof.
  split; [| split; [| split]]; try (vm_compute; reflexivity).
  discriminate.
Qed.

(* ===================================================================== *)
(** * The hand-over of the repositories and the join                      *)
(* ===================================================================== *)

Section Handover.

Context {W : Type}.
Variable git_Clone : string -> option Storage.
Variable hooks : list (@Hook W).
Variable repos : list Repository.t.
Variable loopvar : nat -> addr.

Local Abbreviation step := (Dispatch.step git_Clone hooks repos loopvar).
Local Abbreviation reachable := (Dispatch.reachable git_Clone hooks repos loopvar).
Local Abbreviation state_sync_inv := (Dispatch.state_sync_inv repos loopvar).
Local Abbreviation state_repo_inv := (Dispatch.state_repo_inv repos loopvar).

Lemma pending_snoc ts task :
  pending (ts ++ [task]) = pending ts + (if not_done task then 1 else 0).
Proof.
  unfold pending. rewrite List.filter_app, length_app. simpl.
  now destruct (not_done task).
Qed.

Lemma pending_insert ts : forall t task task',
  ts !! t = Some task ->
  pending (<[t := task']> ts) + (if not_done task then 1 else 0)
  = pending ts + (if not_done task' then 1 else 0).
Proof.
  unfold pending. induction ts as [| x ts IH]; intros t task task' Ht.
  - discriminate.
  - destruct t as [| t]; simpl in *.
    + injection Ht as ->. destruct (not_done task), (not_done task'); simpl; lia.
    + specialize (IH t task task' Ht). destruct (not_done x); simpl; lia.
Qed.

Lemma pending_zero ts t task : pending ts = 0 -> ts !! t = Some task -> pc task = Done.
Proof.
  unfold pending. intros Hz Ht.
  destruct (not_done task) eqn:Hnd.
  - assert (Hin : In task (List.filter not_done ts)).
    { apply List.filter_In. split; [| exact Hnd].
      apply list_elem_of_In. eapply list_elem_of_lookup_2; eauto. }
    destruct (List.filter not_done ts); [contradiction | discriminate].
  - unfold not_done in Hnd. now destruct (pc task).
Qed.

(** A step of a task that moves its program counter and nothing else the
    invariant looks at. *)
Lemma sync_inv_pc m ts wg acq t task task' :
  sync_inv repos loopvar m ts wg acq -> ts !! t = Some task ->
  pc task' <> Receiving ->
  (forall p, task_ptr task' = Some p -> p = loopvar t) ->
  not_done task = true -> not_done task' = true ->
  sync_inv repos loopvar m (<[t := task']> ts) wg acq.
Proof.
  intros [I1 I2 I3 I4 I5 I6] Ht Hrecv Hptr Hnd Hnd'. split; auto.
  - rewrite length_insert. exact I1.
  - intros t1 task1 H1 Hpc. lookup_cases; [congruence | eauto].
  - intros t1 task1 p H1 Hp. lookup_cases; eauto.
  - intros a Ha. rewrite length_insert. auto.
  - pose proof (pending_insert ts t task task' Ht) as Hp.
    rewrite Hnd, Hnd' in Hp. lia.
Qed.

Lemma sync_inv_acq m ts wg acq a :
  sync_inv repos loopvar m ts wg acq ->
  repo_ptr a = loopvar (by_task a) -> by_task a < length ts ->
  sync_inv repos loopvar m ts wg (acq ++ [a]).
Proof.
  intros [I1 I2 I3 I4 I5 I6] Hp Ht. split; auto.
  intros b Hb. apply in_app_or in Hb. destruct Hb as [Hb | [<- | []]]; auto.
Qed.

Lemma state_sync_inv_step s a s' :
  state_sync_inv s -> step a s = Some s' -> state_sync_inv s'.
Proof.
  unfold Dispatch.state_sync_inv. intros I Hstep. unfold Dispatch.step in Hstep.
  destruct (exited s) eqn:He; [discriminate |].
  destruct a as [| t].
  - unfold step_main in Hstep. destruct I as [I1 I2 I3 I4 I5 I6].
    destruct (main s) eqn:Hm.
    + injection Hstep as <-. cbn.
      assert (Hnil : tasks s = []) by (destruct (tasks s); [reflexivity | discriminate]).
      rewrite Hnil in *.
      split; simpl; auto; try discriminate;
        try (intros ? ? Hl; rewrite lookup_nil in Hl; discriminate);
        try (intros ? ? ? Hl; rewrite lookup_nil in Hl; discriminate).
      lia.
    + destruct I1 as [Hlen Hle].
      assert (Hnorecv : forall t task, tasks s !! t = Some task -> pc task <> Receiving).
      { intros t task Ht Hpc. specialize (I2 _ _ Ht Hpc). discriminate. }
      destruct (repos !! i) as [repo |] eqn:Hr; injection Hstep as <-; cbn.
      * apply lookup_lt_Some in Hr. split.
        -- rewrite length_app. simpl. lia.
        -- intros t task Ht Hpc. lookup_cases; [| congruence].
           exfalso. eapply Hnorecv; eauto.
        -- intros t task p Ht Hp. lookup_cases; try discriminate; eauto.
        -- intros a Ha. rewrite length_app. simpl.
           destruct (I4 a Ha). split; [auto | lia].
        -- rewrite pending_snoc. simpl. lia.
        -- discriminate.
      * apply lookup_ge_None in Hr. split; auto.
        -- lia.
        -- intros t task Ht Hpc. exfalso. eapply Hnorecv; eauto.
        -- discriminate.
    + discriminate.
    + destruct (Nat.eqb_spec (wg s) 0) as [Hz | Hnz]; [| discriminate].
      injection Hstep as <-. cbn. split; auto.
      intros t task Ht Hpc. specialize (I2 _ _ Ht Hpc). discriminate.
    + discriminate.
  - unfold step_task in Hstep.
    destruct (tasks s !! t) as [task |] eqn:Ht; [| discriminate].
    destruct (pc task) eqn:Hpc.
    + destruct (main s) eqn:Hm; try discriminate. injection Hstep as <-. cbn.
      destruct I as [I1 I2 I3 I4 I5 I6].
      pose proof (I2 _ _ Ht Hpc) as Hi. injection Hi as ->.
      destruct I1 as [Hlen Hlt]. split.
      * rewrite length_insert. lia.
      * intros t1 task1 H1 Hpc1. lookup_cases; [discriminate |].
        specialize (I2 _ _ ltac:(eassumption) Hpc1). congruence.
      * intros t1 task1 p H1 Hp. unfold task_ptr in Hp. lookup_cases; eauto.
      * intros a Ha. rewrite length_insert. auto.
      * pose proof (pending_insert (tasks s) t task
                      (BuildTask (fs_arg task) (Parsing (loopvar t))) Ht) as Hp.
        unfold not_done in Hp. rewrite Hpc in Hp. simpl in Hp. lia.
      * discriminate.
    + injection Hstep as <-. cbn.
      eapply sync_inv_pc; eauto; unfold not_done, task_ptr; simpl;
        rewrite ?Hpc; try discriminate; auto.
      intros p Hp. injection Hp as <-.
      apply (sync_ptr _ _ _ _ _ _ I t task); [exact Ht |].
      unfold task_ptr. now rewrite Hpc.
    + assert (Hptr : repo = loopvar t).
      { apply (sync_ptr _ _ _ _ _ _ I t task); [exact Ht |].
        unfold task_ptr. now rewrite Hpc. }
      pose proof (lookup_lt_Some _ _ _ Ht) as Hlt.
      destruct (memory s !! repo) as [deref |] eqn:Hmem.
      * cbv zeta in Hstep.
        destruct (ParseRepository git_Clone repo deref) eqn:Hparse;
          injection Hstep as <-; cbn.
        -- eapply sync_inv_pc; eauto; unfold not_done, task_ptr; simpl;
             rewrite ?Hpc; try discriminate; auto.
           apply sync_inv_acq; auto.
        -- apply sync_inv_acq; auto.
        -- apply sync_inv_acq; auto.
      * injection Hstep as <-. exact I.
    + destruct (files !! file) eqn:Hfile.
      * destruct (hooks !! hook) eqn:Hhook; [destruct inside |];
          injection Hstep as <-; cbn;
          eapply sync_inv_pc; eauto; unfold not_done, task_ptr; simpl;
          rewrite ?Hpc; try discriminate; auto.
      * injection Hstep as <-. cbn. destruct I as [I1 I2 I3 I4 I5 I6].
        pose proof (pending_insert (tasks s) t task (BuildTask (fs_arg task) Done) Ht)
          as Hp.
        unfold not_done in Hp. rewrite Hpc in Hp. simpl in Hp.
        split.
        -- rewrite length_insert. exact I1.
        -- intros t1 task1 H1 Hpc1. lookup_cases; try discriminate; eauto.
        -- intros t1 task1 p H1 Hp1. unfold task_ptr in Hp1.
           lookup_cases; try discriminate; eauto.
        -- intros a Ha. rewrite length_insert. auto.
        -- lia.
        -- intros Hret. specialize (I6 Hret). lia.
    + discriminate.
Qed.

Lemma reachable_sync_inv (w : W) s : reachable w s -> state_sync_inv s.
Proof.
  apply reachable_invariant.
  - split; simpl; auto; try (intros; lookup_cases; discriminate).
    intros a [].
  - intros s0 a s1 _. apply state_sync_inv_step.
Qed.

(** [FullRecon] returns only when every task it spawned is done, and it has
    then spawned one task per repository. *)
Lemma returned_all_done (w : W) s :
  reachable w s -> main s = Returned ->
  length (tasks s) = length repos
  /\ forall t task, tasks s !! t = Some task -> pc task = Done.
Proof.
  intros Hreach Hret. destruct (reachable_sync_inv w s Hreach) as [I1 I2 I3 I4 I5 I6].
  rewrite Hret in I1. split; [exact I1 |].
  intros t task Ht. apply (pending_zero (tasks s) t); [| exact Ht].
  rewrite <- I5. now apply I6.
Qed.

(** What a step does to the memory and to the number of tasks: nothing,
    or the assignment and the spawn of one iteration. *)
Lemma step_memory s a s' :
  step a s = Some s' ->
  (memory s' = memory s /\ length (tasks s') = length (tasks s))
  \/ (exists i repo,
        main s = Looping i /\ repos !! i = Some repo
        /\ memory s' = <[loopvar i := repo]> (memory s)
        /\ length (tasks s') = S (length (tasks s))).
Proof.
  unfold Dispatch.step, step_main, step_task. intros Hstep.
  repeat match type of Hstep with
         | context [match ?x with _ => _ end] => destruct x eqn:?
         | context [if ?x then _ else _] => destruct x eqn:?
         end;
    try discriminate; injection Hstep as <-; cbn;
    rewrite ?length_insert;
    first [ left; split; reflexivity
          | right; do 2 eexists; repeat split; eauto;
            rewrite length_app; simpl; lia ].
Qed.

(** What a step does to the acquisitions: nothing, or the clone of a task
    through its pointer. *)
Lemma step_acquisitions s a s' :
  step a s = Some s' ->
  acquisitions s' = acquisitions s
  \/ (exists t task p l r,
        tasks s !! t = Some task /\ pc task = Cloning p l
        /\ memory s !! p = Some r
        /\ acquisitions s' = acquisitions s ++ [BuildAcquisition t p l (fs_arg task) r]).
Proof.
  unfold Dispatch.step, step_main, step_task. intros Hstep.
  repeat match type of Hstep with
         | context [match ?x with _ => _ end] => destruct x eqn:?
         | context [if ?x then _ else _] => destruct x eqn:?
         end;
    try discriminate; injection Hstep as <-; cbn;
    first [ left; reflexivity
          | right; do 5 eexists; repeat split; eauto ].
Qed.

Lemma state_repo_inv_step s a s' :
  (forall i j, loopvar i = loopvar j -> i = j) ->
  state_sync_inv s -> state_repo_inv s -> step a s = Some s' -> state_repo_inv s'.
Proof.
  intros Hinj Hsync [Hmem Hacq] Hstep. split.
  - destruct (step_memory s a s' Hstep) as [[-> ->] | (i & repo & Hm & Hr & -> & ->)].
    + exact Hmem.
    + pose proof (sync_count _ _ _ _ _ _ Hsync) as Hcount. rewrite Hm in Hcount.
      destruct Hcount as [Hlen _].
      intros j Hj. destruct (decide (j = i)) as [-> | Hne].
      * now rewrite lookup_insert_eq.
      * rewrite lookup_insert_ne; [apply Hmem; lia |].
        intros Heq. apply Hinj in Heq. congruence.
  - destruct (step_acquisitions s a s' Hstep)
      as [-> | (t & task & p & l & r & Ht & Hpc & Hp & ->)].
    + exact Hacq.
    + intros b Hb. apply in_app_or in Hb. destruct Hb as [Hb | [<- | []]]; [auto |].
      cbn. assert (Hptr : p = loopvar t).
      { apply (sync_ptr _ _ _ _ _ _ Hsync t task); [exact Ht |].
        unfold task_ptr. now rewrite Hpc. }
      subst p. rewrite <- Hmem; [exact Hp |]. eapply lookup_lt_Some; eauto.
Qed.

(** With a loop variable per iteration every task clones the repository it
    was spawned for. *)
Lemma fresh_loopvar_own_repository (w : W) s :
  (forall i j, loopvar i = loopvar j -> i = j) ->
  reachable w s ->
  forall a, In a (acquisitions s) -> repos !! by_task a = Some (of_repo a).
Proof.
  intros Hinj Hreach.
  assert (Hboth : state_sync_inv s /\ state_repo_inv s).
  { revert s Hreach. apply reachable_invariant.
    - split; [apply (reachable_sync_inv w); now exists [] |].
      split; [simpl; intros; lia | intros a []].
    - intros s0 a s1 _ [Hs Hr] Hstep. split.
      + eapply state_sync_inv_step; eauto.
      + eapply state_repo_inv_step; eauto. }
  exact (proj2 (proj2 Hboth)).
Qed.

End Handover.

(** A whole call on the test organisation: the members are lost (their URL
    is fetched with its template suffix), the one repository of the
    organisation is cloned, and the hooks see its two files. *)
Example FullRecon_acme :
  exists s,
    FullRecon Acme.remote Acme.parse Acme.git_Clone shared_loopvar Acme.org_url
      Acme.hooks [] s
    /\ main s = Returned
    /\ world s = ["b.txt"; "acme/site"; "copy.txt"; "acme/site"]%string.
Proof.
  eexists. split; [| split].
  - exists Acme.acme, [Acme.r1], (snd (FullRecon_discover Acme.remote Acme.parse Acme.org_url [])).
    split; [vm_compute; reflexivity |].
    exists ([MainThread; MainThread] ++ List.repeat (TaskThread 0) 14
            ++ [MainThread; MainThread]).
    vm_compute. reflexivity.
  - reflexivity.
  - reflexivity.
Qed.

(* ===================================================================== *)
(** * More on the URL normaliser                                          *)
(* ===================================================================== *)

Section NormaliserFacts.

Lemma list_ascii_of_string_app (s1 s2 : string) :
  list_ascii_of_string (s1 ++ s2) = list_ascii_of_string s1 ++ list_ascii_of_string s2.
Proof. induction s1 as [| c s1 IH]; simpl; [reflexivity | now rewrite IH]. Qed.

(** The two ways a call of [_ExtractUrl] ends. *)
Lemma extract_cases (url : string) :
  (_ExtractUrl url = ""%string
   /\ forall w rest, list_ascii_of_string url = w ++ rest -> ~ valid_url w)
  \/ (exists m rest,
        list_ascii_of_string url = m ++ rest /\ valid_url m
        /\ _ExtractUrl url = string_of_list_ascii m
        /\ forall w rest', list_ascii_of_string url = w ++ rest' -> valid_url w ->
                           length w <= length m).
Proof.
  unfold _ExtractUrl, FindString. cbn [anchored urlPattern body].
  remember (list_ascii_of_string url) as t eqn:Heqt. clear Heqt.
  set (pattern := Concat scheme (Concat labels (Concat tld path))).
  assert (Hlong : forall w rest, valid_url w ->
            exists x, match_at pattern (w ++ rest) = Some x /\ length x <= length rest).
  { intros w rest Hw. exact (body_longest w rest Hw). }
  destruct (match_at pattern t) as [x |] eqn:Hx.
  - right. pose proof Hx as Hsound. apply exec_sound in Hsound.
    destruct Hsound as (m & s1 & Hm & Hvalid & Hs1). injection Hs1 as ->.
    exists m, x. split; [exact Hm |]. split; [exact Hvalid |].
    rewrite Hm, matched_app. split; [reflexivity |].
    intros w rest' Hw Hwvalid.
    destruct (Hlong w rest' Hwvalid) as (x' & Hx' & Hlen).
    rewrite <- Hw, <- Hm in Hx'. rewrite Hx in Hx'. injection Hx' as <-.
    assert (Hsum : length (m ++ x) = length (w ++ rest')) by now rewrite Hw.
    rewrite !length_app in Hsum. lia.
  - left. split; [reflexivity |].
    intros w rest Hw Hvalid.
    destruct (Hlong w rest Hvalid) as (x' & Hx' & _).
    rewrite <- Hw in Hx'. congruence.
Qed.

Lemma word_segment_char c : word c = true -> segment_char c = true.
Proof.
  destruct c as [[] [] [] [] [] [] [] []]; vm_compute; intros H;
    first [reflexivity | discriminate H].
Qed.

Lemma matches_Star_Forall (P : ascii -> Prop) r w :
  (forall v, matches r v -> Forall P v) -> matches (Star r) w -> Forall P w.
Proof.
  intros Hr H. remember (Star r) as r' eqn:Hr'.
  induction H as [| | | | | r0 | r0 w1 w2 H1 _ H2 IH2]; try discriminate.
  - constructor.
  - injection Hr' as ->. apply Forall_app. split; [now apply Hr | now apply IH2].
Qed.

Lemma matches_label_chars w :
  matches label w -> Forall (fun c => segment_char c = true) w.
Proof.
  intros H. apply matches_label_inv in H. destruct H as (c & ws & -> & Hc & Hws).
  apply Forall_app. split.
  - constructor; [now apply word_segment_char |].
    eapply Forall_impl; [exact Hws |]. intros y. apply word_segment_char.
  - repeat constructor.
Qed.

(** Every byte of a valid URL is in the class of the path segments. *)
Lemma valid_url_chars w : valid_url w -> Forall (fun c => segment_char c = true) w.
Proof.
  unfold valid_url. cbn [body urlPattern]. intros Hw.
  apply matches_Concat_inv in Hw. destruct Hw as (ws & w1 & -> & Hws & Hw).
  apply matches_Concat_inv in Hw. destruct Hw as (wl & w2 & -> & Hwl & Hw).
  apply matches_Concat_inv in Hw. destruct Hw as (wt & wp & -> & Hwt & Hwp).
  rewrite !Forall_app. repeat split.
  - apply matches_scheme_inv in Hws. destruct Hws as [-> | ->]; repeat constructor.
  - unfold labels, Plus in Hwl. apply matches_Concat_inv in Hwl.
    destruct Hwl as (v1 & v2 & -> & Hv1 & Hv2). apply Forall_app. split.
    + now apply matches_label_chars.
    + eapply matches_Star_Forall; [| exact Hv2]. apply matches_label_chars.
  - apply matches_tld_inv in Hwt. destruct Hwt as (a & b & u & -> & Ha & Hb & Hu & _).
    repeat constructor; auto using word_segment_char, lower_word.
    eapply Forall_impl; [exact Hu |]. intros y Hy.
    now apply word_segment_char, lower_word.
  - apply matches_path_inv in Hwp. destruct Hwp as [-> | (c & w' & -> & Hall)].
    + constructor.
    + constructor; [reflexivity | exact Hall].
Qed.

Lemma valid_url_nonempty w : valid_url w -> w <> [].
Proof.
  unfold valid_url. cbn [body urlPattern]. intros Hw.
  apply matches_Concat_inv in Hw. destruct Hw as (ws & w1 & -> & Hws & _).
  apply matches_scheme_inv in Hws. destruct Hws as [-> | ->]; discriminate.
Qed.

(** Two prefixes of a text of the same length are the same. *)
Lemma prefix_same_length (a b c d : list ascii) :
  a ++ b = c ++ d -> length a = length c -> a = c.
Proof.
  intros Heq Hlen. apply (f_equal (take (length a))) in Heq.
  rewrite take_app_length in Heq. rewrite Hlen, take_app_length in Heq. exact Heq.
Qed.

(** A valid URL followed by a byte outside the class of the segments is
    cut exactly before that byte. *)
Lemma extract_cut (u rest : list ascii) (c : ascii) :
  valid_url u -> segment_char c = false ->
  _ExtractUrl (string_of_list_ascii (u ++ c :: rest)) = string_of_list_ascii u.
Proof.
  intros Hu Hc.
  destruct (extract_cases (string_of_list_ascii (u ++ c :: rest)))
    as [[_ Hnone] | (m & rest' & Ht & Hm & -> & Hlongest)];
    rewrite list_ascii_of_string_of_list_ascii in *.
  - exfalso. exact (Hnone u (c :: rest) eq_refl Hu).
  - f_equal. specialize (Hlongest u (c :: rest) eq_refl Hu).
    apply valid_url_chars in Hm.
    destruct (Nat.eq_dec (length m) (length u)) as [Heq | Hne].
    + symmetry. eapply prefix_same_length; eauto.
    + exfalso.
      assert (Hc' : m !! length u = Some c).
      { assert (Hl : (u ++ c :: rest) !! length u = Some c).
        { rewrite lookup_app_r by lia. now rewrite Nat.sub_diag. }
        rewrite Ht in Hl. rewrite lookup_app_l in Hl by lia. exact Hl. }
      rewrite Forall_lookup in Hm. specialize (Hm _ _ Hc'). congruence.
Qed.

(** A prefix that is valid and as long as the text is the text. *)
Lemma extract_valid (m : list ascii) :
  valid_url m -> _ExtractUrl (string_of_list_ascii m) = string_of_list_ascii m.
Proof.
  intros Hm.
  destruct (extract_cases (string_of_list_ascii m))
    as [[_ Hnone] | (m' & rest' & Ht & _ & -> & Hlongest)];
    rewrite list_ascii_of_string_of_list_ascii in *.
  - exfalso. apply (Hnone m []); [now rewrite app_nil_r | exact Hm].
  - f_equal. specialize (Hlongest m [] ltac:(now rewrite app_nil_r) Hm).
    assert (Hlen : length m = length m' + length rest') by now rewrite Ht, length_app.
    symmetry. apply (prefix_same_length m [] m' rest'); [now rewrite app_nil_r | lia].
Qed.

(** X1. The normaliser strips a template suffix: a valid URL followed by a
    byte outside the class of the path segments (a brace, a quote, white
    space, an angle bracket, a backslash) and anything after it is
    normalised to the URL itself. *)
Theorem normalise_strips_suffix (u rest : string) (c : ascii) :
  valid_url (list_ascii_of_string u) ->
  segment_char c = false ->
  _ExtractUrl (u ++ String c rest) = u.
Proof.
  intros Hu Hc.
  rewrite <- (string_of_list_ascii_of_string (u ++ String c rest)),
    list_ascii_of_string_app.
  cbn [list_ascii_of_string]. rewrite extract_cut by assumption.
  apply string_of_list_ascii_of_string.
Qed.

(** X2. Normalising is idempotent, and a valid URL is normalised to itself. *)
Theorem normalise_idempotent :
  (forall url, _ExtractUrl (_ExtractUrl url) = _ExtractUrl url)
  /\ (forall url, valid_url (list_ascii_of_string url) -> _ExtractUrl url = url).
Proof.
  split.
  - intros url.
    destruct (extract_cases url) as [[-> _] | (m & rest & _ & Hm & -> & _)].
    + vm_compute. reflexivity.
    + now apply extract_valid.
  - intros url Hvalid. pose proof (extract_valid _ Hvalid) as H.
    now rewrite string_of_list_ascii_of_string in H.
Qed.

(** X3. The result of the normaliser is a prefix of its argument and holds
    no byte outside the class of the path segments: no brace, no quote, no
    white space, no angle bracket, no backslash. *)
Theorem normalise_prefix_clean (url : string) :
  (exists rest, url = (_ExtractUrl url ++ rest)%string)
  /\ Forall (fun c => segment_char c = true) (list_ascii_of_string (_ExtractUrl url)).
Proof.
  destruct (extract_cases url) as [[-> _] | (m & rest & Ht & Hm & -> & _)].
  - split; [now exists url | constructor].
  - rewrite list_ascii_of_string_of_list_ascii. split.
    + exists (string_of_list_ascii rest).
      rewrite <- (string_of_list_ascii_of_string url), Ht.
      rewrite <- (string_of_list_ascii_of_string (_ ++ _)%string).
      now rewrite list_ascii_of_string_app, !list_ascii_of_string_of_list_ascii.
    + now apply valid_url_chars.
Qed.

(** X4. The normaliser returns the empty string exactly when no prefix of
    its argument is a valid URL. *)
Theorem normalise_empty_iff (url : string) :
  _ExtractUrl url = ""%string <->
  forall w rest, list_ascii_of_string url = w ++ rest -> ~ valid_url w.
Proof.
  split.
  - intros Hempty.
    destruct (extract_cases url) as [[_ Hnone] | (m & rest & _ & Hm & Heq & _)];
      [exact Hnone |].
    exfalso. rewrite Heq in Hempty. apply valid_url_nonempty in Hm.
    destruct m; [congruence | discriminate].
  - intros Hnone.
    destruct (extract_cases url) as [[Heq _] | (m & rest & Ht & Hm & _)];
      [exact Heq |].
    exfalso. exact (Hnone m rest Ht Hm).
Qed.

End NormaliserFacts.

Lemma normalise_strips_suffix_witness :
  _ExtractUrl ("https://api.github.com/users/bob/repos" ++ String "{" "?type,page}")
  = "https://api.github.com/users/bob/repos"%string.
Proof.
  apply normalise_strips_suffix.
  - apply valid_by_exec. vm_compute. reflexivity.
  - reflexivity.
Defined.

Lemma normalise_idempotent_witness :
  _ExtractUrl "http://a.bc/x/y" = "http://a.bc/x/y"%string.
Proof.
  apply (proj2 normalise_idempotent).
  apply valid_by_exec. vm_compute. reflexivity.
Defined.

Lemma normalise_empty_iff_witness :
  forall w rest, list_ascii_of_string "ftp://a.bc/x" = w ++ rest -> ~ valid_url w.
Proof.
  apply (proj1 (normalise_empty_iff "ftp://a.bc/x")).
  vm_compute. reflexivity.
Defined.

(* ===================================================================== *)
(** * More on the tree flattener                                          *)
(* ===================================================================== *)

Section FlattenMore.

Implicit Types (names : gmap string string) (entries : list TreeEntry.t)
  (trees : list (string * list TreeEntry.t)) (h : string).

Lemma record_entries_app names entries entries' :
  record_entries names (entries ++ entries')
  = record_entries (record_entries names entries) entries'.
Proof. unfold record_entries. apply fold_left_app. Qed.

Lemma collect_names_flat trees : forall names,
  fold_left (fun names (binTree : string * list TreeEntry.t) =>
               record_entries names (snd binTree)) trees names
  = record_entries names (flat_map snd trees).
Proof.
  induction trees as [| tree rest IH]; intros names; simpl; [reflexivity |].
  now rewrite IH, record_entries_app.
Qed.

Lemma record_entries_last entries h : forall names,
  record_entries names entries !! h =
  match last (names_in entries h) with
  | Some name => Some name
  | None => names !! h
  end.
Proof.
  unfold record_entries, names_in.
  induction entries as [| e rest IH]; intros names; simpl; [reflexivity |].
  rewrite IH. clear IH.
  destruct (N.eqb_spec (TreeEntry.Mode e) filemode.Regular) as [Hm | Hm]; simpl.
  - destruct (String.eqb_spec (TreeEntry.Hash e) h) as [Hh | Hh]; simpl.
    + rewrite last_cons.
      destruct (last (List.map TreeEntry.Name _)); [reflexivity |].
      subst h. apply lookup_insert_eq.
    + destruct (last (List.map TreeEntry.Name _)); [reflexivity |].
      now apply lookup_insert_ne.
  - reflexivity.
Qed.

Lemma collect_names_last trees h :
  collect_names trees !! h = last (regular_names trees h).
Proof.
  unfold collect_names, regular_names.
  rewrite collect_names_flat, record_entries_last, lookup_empty.
  now destruct (last _).
Qed.

Lemma size_names_keys names (keys : list string) :
  NoDup keys ->
  (forall h, In h keys <-> is_Some (names !! h)) ->
  size names = length keys.
Proof.
  intros Hnd Hkeys. rewrite <- size_dom.
  assert (Hdom : dom names = list_to_set keys).
  { apply set_eq. intros h.
    rewrite elem_of_dom, elem_of_list_to_set, list_elem_of_In. symmetry. apply Hkeys. }
  rewrite Hdom. now apply size_list_to_set.
Qed.

Lemma referenced_named trees h :
  referenced trees h <-> is_Some (collect_names trees !! h).
Proof.
  rewrite <- not_eq_None_Some, collect_names_unreferenced.
  split; [tauto |]. intros Hnn.
  destruct (collect_names trees !! h) eqn:Hl.
  - destruct (proj1 (not_eq_None_Some (collect_names trees !! h))) as [name Hname].
    + rewrite Hl. discriminate.
    + clear Hnn. revert Hname. rewrite collect_names_last. unfold regular_names, names_in.
      intros Hlast. apply last_Some_elem_of, list_elem_of_In, in_map_iff in Hlast.
      destruct Hlast as (e & _ & He). apply filter_In in He. destruct He as [He Hc].
      apply andb_true_iff in Hc. destruct Hc as [Hm Hh].
      apply N.eqb_eq in Hm. apply String.eqb_eq in Hh.
      apply in_flat_map in He. destruct He as (tree & Htree & He).
      now exists tree, e.
  - exfalso. apply Hnn. now apply collect_names_unreferenced.
Qed.

(** X5. What the two loops over the blobs return: with at most as many
    blobs as named hashes, a slice of [len(names)] records whose first ones
    are the blobs' records in the order of the range (name looked up by
    hash, empty when absent; the blob's bytes; the pointer [repo]) and whose
    others are zero values; with more blobs than named hashes, a panic. *)
Theorem flatten_records_or_panic (storer : Storage) (repo : option addr) :
  (length (Blobs storer) <= size (collect_names (Trees storer)) ->
   exists out,
     flatten storer repo = Ok out
     /\ length out = size (collect_names (Trees storer))
     /\ (forall k h data,
           Blobs storer !! k = Some (h, data) ->
           out !! k = Some (TargetFile.Build
                              (default ""%string (collect_names (Trees storer) !! h))
                              data repo))
     /\ (forall j, length (Blobs storer) <= j < size (collect_names (Trees storer)) ->
                   out !! j = Some TargetFile.zero))
  /\ (size (collect_names (Trees storer)) < length (Blobs storer) ->
      flatten storer repo = Panic "index out of range").
Proof.
  destruct (flatten_outcome storer repo) as [Hok Hpanic]. split; [| exact Hpanic].
  intros Hle. destruct (Hok Hle) as (out & Hout & Hlen & Hblobs & Hzero).
  exists out. repeat split; auto.
  intros k h data Hk. exact (Hblobs k (h, data) Hk).
Qed.

(** X6. A hash is named by the last regular-file entry that carries it, in
    the order the trees and their entries are visited; a hash no such entry
    carries has no name. *)
Theorem names_last_write_wins trees h :
  collect_names trees !! h = last (regular_names trees h)
  /\ (regular_names trees h = [] <-> ~ referenced trees h).
Proof.
  split; [apply collect_names_last |].
  rewrite <- collect_names_unreferenced, collect_names_last.
  destruct (regular_names trees h) as [| name rest] eqn:Hn; [tauto |].
  split; [discriminate |]. rewrite last_cons. now destruct (last rest).
Qed.

(** X7. When the blobs of the store are exactly the hashes that regular-file
    entries carry, each once, the flattener returns one record per blob, in
    the order of the range, with the blob's bytes and the last name given
    to its hash. *)
Theorem flatten_complete_store (storer : Storage) (repo : option addr) :
  NoDup (List.map fst (Blobs storer)) ->
  (forall h, In h (List.map fst (Blobs storer)) <-> referenced (Trees storer) h) ->
  exists out,
    flatten storer repo = Ok out
    /\ length out = length (Blobs storer)
    /\ forall k h data,
         Blobs storer !! k = Some (h, data) ->
         exists name,
           last (regular_names (Trees storer) h) = Some name
           /\ out !! k = Some (TargetFile.Build name data repo).
Proof.
  intros Hnd Hkeys.
  assert (Hsize : size (collect_names (Trees storer)) = length (Blobs storer)).
  { rewrite <- (length_map fst). apply size_names_keys; [exact Hnd |].
    intros h. now rewrite Hkeys, referenced_named. }
  destruct (flatten_outcome storer repo) as [Hok _].
  destruct (Hok ltac:(lia)) as (out & Hout & Hlen & Hblobs & _).
  exists out. split; [exact Hout |]. split; [lia |].
  intros k h data Hk.
  assert (Hin : In h (List.map fst (Blobs storer))).
  { apply in_map_iff. exists (h, data). split; [reflexivity |].
    apply list_elem_of_In. eapply list_elem_of_lookup_2; eauto. }
  apply Hkeys, referenced_named in Hin. destruct Hin as [name Hname].
  exists name. split; [now rewrite <- collect_names_last |].
  rewrite (Hblobs k (h, data) Hk). unfold target_of. simpl. now rewrite Hname.
Qed.

End FlattenMore.

Lemma flatten_records_or_panic_witness :
  (exists out, flatten Acme.plain (Some 0) = Ok out /\ length out = 2)
  /\ flatten Acme.with_script (Some 0) = Panic "index out of range".
Proof.
  split.
  - destruct (proj1 (flatten_records_or_panic Acme.plain (Some 0)))
      as (out & Hout & Hlen & _).
    + vm_compute. lia.
    + exists out. split; [exact Hout |]. rewrite Hlen. vm_compute. reflexivity.
  - apply (proj2 (flatten_records_or_panic Acme.with_script (Some 0))).
    vm_compute. lia.
Defined.

Lemma names_last_write_wins_witness :
  collect_names (Trees Acme.plain) !! "blob-a"%string = Some "copy.txt"%string
  /\ ~ referenced (Trees Acme.with_script) "blob-b".
Proof.
  split.
  - rewrite (proj1 (names_last_write_wins (Trees Acme.plain) "blob-a")).
    vm_compute. reflexivity.
  - apply (proj2 (names_last_write_wins (Trees Acme.with_script) "blob-b")).
    vm_compute. reflexivity.
Defined.

Lemma plain_complete h :
  In h (List.map fst (Blobs Acme.plain)) <-> referenced (Trees Acme.plain) h.
Proof.
  split.
  - intros [<- | [<- | []]].
    + exists ("tree-4"%string,
              [TreeEntry.Build "b.txt" filemode.Regular "blob-c";
               TreeEntry.Build "copy.txt" filemode.Regular "blob-a"]),
             (TreeEntry.Build "b.txt" filemode.Regular "blob-c").
      simpl. tauto.
    + exists ("tree-4"%string,
              [TreeEntry.Build "b.txt" filemode.Regular "blob-c";
               TreeEntry.Build "copy.txt" filemode.Regular "blob-a"]),
             (TreeEntry.Build "copy.txt" filemode.Regular "blob-a").
      simpl. tauto.
  - intros (tree & entry & Htree & Hentry & Hmode & Hhash).
    simpl in Htree. destruct Htree as [<- | [<- | []]]; simpl in Hentry.
    + destruct Hentry as [<- | [<- | []]]; simpl in *; subst; try discriminate; tauto.
    + destruct Hentry as [<- | [<- | []]]; simpl in *; subst; try discriminate; tauto.
Qed.

Lemma flatten_complete_store_witness :
  exists out,
    flatten Acme.plain (Some 0) = Ok out
    /\ length out = 2
    /\ forall k h data,
         Blobs Acme.plain !! k = Some (h, data) ->
         exists name,
           last (regular_names (Trees Acme.plain) h) = Some name
           /\ out !! k = Some (TargetFile.Build name data (Some 0)).
Proof.
  apply (flatten_complete_store Acme.plain (Some 0)).
  - simpl. apply NoDup_ListNoDup. repeat constructor; simpl; intuition discriminate.
  - exact plain_complete.
Defined.

(* ===================================================================== *)
(** * More on the discovery                                               *)
(* ===================================================================== *)

Section Discovery.

Variable remote : list Event -> string -> HttpResult.
Variable parse : string -> option Json.JSON.

Lemma accountable_ret {A : Type} (a : A) : accountable (ret a).
Proof.
  intros tr. exists []. simpl. rewrite app_nil_r. split; [reflexivity | constructor].
Qed.

Lemma accountable_log_Fatal {A : Type} (msg : string) : accountable (@log_Fatal A msg).
Proof.
  intros tr. exists [LogFatal msg]. simpl. split; [reflexivity |].
  exists []. split; [reflexivity | constructor].
Qed.

Lemma accountable_http_Get url : accountable (http_Get remote url).
Proof.
  intros tr. exists [Get url]. simpl. split; [reflexivity |].
  repeat constructor.
Qed.

Lemma accountable_Println line : accountable (fmt_Println line).
Proof.
  intros tr. exists [Println line]. simpl. split; [reflexivity |].
  repeat constructor.
Qed.

Lemma accountable_bind {A B : Type} (m : M A) (f : A -> M B) :
  accountable m -> (forall a, accountable (f a)) -> accountable (bind m f).
Proof.
  intros Hm Hf tr. destruct (Hm tr) as (ev & Hs & Ha). unfold bind.
  destruct (m tr) as [[a | msg | msg] tr1]; simpl in *; subst tr1.
  - destruct (Hf a (tr ++ ev)) as (ev2 & Hs2 & Ha2).
    exists (ev ++ ev2). rewrite app_assoc. split; [exact Hs2 |].
    destruct (fst (f a (tr ++ ev))) as [b | msg | msg]; simpl in *.
    + now apply Forall_app.
    + destruct Ha2 as (ev0 & -> & Hq). exists (ev ++ ev0).
      rewrite app_assoc. split; [reflexivity | now apply Forall_app].
    + exact Ha2.
  - exists ev. split; [reflexivity | exact Ha].
  - contradiction.
Qed.

Lemma accountable_GetRepositories url : accountable (_GetRepositories remote parse url).
Proof.
  apply accountable_bind; [apply accountable_http_Get |].
  intros [| status body]; [apply accountable_log_Fatal |].
  destruct (status =? 403)%Z; [apply accountable_log_Fatal |].
  destruct (Json.Unmarshal_Repositories parse body);
    [apply accountable_ret | apply accountable_log_Fatal].
Qed.

Lemma accountable_GetOrganization url : accountable (GetOrganization remote parse url).
Proof.
  apply accountable_bind; [apply accountable_http_Get |].
  intros [| status body]; [apply accountable_log_Fatal |].
  destruct (status =? 403)%Z; [apply accountable_log_Fatal |].
  destruct (Json.Unmarshal_Organization parse body);
    [apply accountable_ret | apply accountable_log_Fatal].
Qed.

Lemma accountable_GetMembers org : accountable (Organization_GetMembers remote parse org).
Proof.
  apply accountable_bind; [apply accountable_http_Get |].
  intros response. apply accountable_bind; [apply accountable_Println |].
  intros _. destruct response as [| status body]; [apply accountable_log_Fatal |].
  destruct (status =? 403)%Z; [apply accountable_log_Fatal |].
  destruct (Json.Unmarshal_Users parse body); apply accountable_ret.
Qed.

Lemma accountable_append_members org users : forall repos,
  accountable (append_members remote parse org users repos).
Proof.
  induction users as [| user rest IH]; intros repos; cbn [append_members].
  - apply accountable_ret.
  - apply accountable_bind; [apply accountable_GetRepositories |].
    intros userRepos. apply IH.
Qed.

Lemma GetRepositories_Ok url tr repos tr' :
  _GetRepositories remote parse url tr = (Ok repos, tr') -> tr' = tr ++ [Get url].
Proof.
  unfold _GetRepositories, bind, http_Get, log_Fatal, ret.
  destruct (remote tr url) as [| status body]; [discriminate |].
  destruct (status =? 403)%Z; [discriminate |].
  destruct (Json.Unmarshal_Repositories parse body); [| discriminate].
  now intros [= _ <-].
Qed.

Lemma GetOrganization_Ok url tr org tr' :
  GetOrganization remote parse url tr = (Ok org, tr') -> tr' = tr ++ [Get url].
Proof.
  unfold GetOrganization, bind, http_Get, log_Fatal, ret.
  destruct (remote tr url) as [| status body]; [discriminate |].
  destruct (status =? 403)%Z; [discriminate |].
  destruct (Json.Unmarshal_Organization parse body); [| discriminate].
  now intros [= _ <-].
Qed.

Lemma GetMembers_Ok org tr users tr' :
  Organization_GetMembers remote parse org tr = (Ok users, tr') ->
  tr' = tr ++ members_events org.
Proof.
  unfold Organization_GetMembers, bind, http_Get, fmt_Println, log_Fatal, ret,
    members_events.
  destruct (remote tr (Organization.MembersUrl org)) as [| status body]; [discriminate |].
  destruct (status =? 403)%Z; [discriminate |].
  rewrite <- app_assoc. simpl.
  destruct (Json.Unmarshal_Users parse body); now intros [= _ <-].
Qed.

Lemma append_members_Ok org users : forall repos tr merged tr',
  append_members remote parse org users repos tr = (Ok merged, tr') ->
  tr' = tr ++ member_requests users.
Proof.
  induction users as [| user rest IH]; intros repos tr merged tr';
    cbn [append_members].
  - unfold ret. intros [= _ <-]. simpl. now rewrite app_nil_r.
  - unfold bind, User_GetRepositories.
    destruct (_GetRepositories remote parse (_ExtractUrl (User.ReposUrl user)) tr)
      as [[userRepos | msg | msg] tr1] eqn:Hget; try discriminate.
    intros Hrest. apply IH in Hrest. apply GetRepositories_Ok in Hget. subst.
    simpl. now rewrite <- app_assoc.
Qed.

Lemma fetch_members_append org users : forall repos tr lists tr',
  fetch_members remote parse users tr = (Ok lists, tr') ->
  append_members remote parse org users repos tr
  = (Ok (repos ++ flat_map (List.filter (kept org)) lists), tr').
Proof.
  intros repos tr lists tr' Hfetch.
  rewrite append_members_fetch. unfold bind, ret. now rewrite Hfetch.
Qed.

Lemma append_members_app org us1 us2 : forall repos tr lists tr1,
  fetch_members remote parse us1 tr = (Ok lists, tr1) ->
  append_members remote parse org (us1 ++ us2) repos tr
  = append_members remote parse org us2
      (repos ++ flat_map (List.filter (kept org)) lists) tr1.
Proof.
  induction us1 as [| user rest IH]; intros repos tr lists tr1;
    cbn [fetch_members append_members app].
  - unfold ret. intros [= <- <-]. simpl. now rewrite app_nil_r.
  - unfold bind.
    destruct (User_GetRepositories remote parse user tr)
      as [[userRepos | msg | msg] tr0]; try discriminate.
    destruct (fetch_members remote parse rest tr0) as [[others | msg | msg] tr2] eqn:Hrest;
      try discriminate.
    unfold ret. intros [= <- <-].
    rewrite (IH _ _ _ _ Hrest), append_user_repos_filter. simpl.
    now rewrite <- app_assoc.
Qed.

(** X8. The requests of a discovery that succeeds: the organisation, then
    its members under the URL as given (with the line printed), then its
    repositories under the normalised URL, then the repositories of each
    member under the normalised URL, one request per member in the order of
    the members list; nothing else happens. *)
Theorem discover_requests (url : string) (tr tr' : list Event)
    (org : Organization.t) (merged : list Repository.t) :
  FullRecon_discover remote parse url tr = (Ok (org, merged), tr') ->
  exists users,
    Organization_GetMembers remote parse org (tr ++ [Get url])
    = (Ok users, (tr ++ [Get url]) ++ members_events org)
    /\ tr' = tr ++ [Get url] ++ members_events org
                ++ [Get (_ExtractUrl (Organization.ReposUrl org))]
                ++ member_requests users.
Proof.
  unfold FullRecon_discover, bind at 1.
  destruct (GetOrganization remote parse url tr) as [[org0 | msg | msg] tr1] eqn:Horg;
    try discriminate.
  apply GetOrganization_Ok in Horg. subst tr1. unfold bind at 1.
  destruct (Organization_GetMembers remote parse org0 (tr ++ [Get url]))
    as [[users | msg | msg] tr2] eqn:Hmembers; try discriminate.
  pose proof (GetMembers_Ok _ _ _ _ Hmembers) as ->. unfold bind at 1.
  unfold Organization_GetRepositories.
  destruct (_GetRepositories remote parse (_ExtractUrl (Organization.ReposUrl org0)) _)
    as [[repos | msg | msg] tr3] eqn:Hrepos; try discriminate.
  apply GetRepositories_Ok in Hrepos. subst tr3. unfold bind.
  destruct (append_members remote parse org0 users repos _)
    as [[merged0 | msg | msg] tr4] eqn:Happend; try discriminate.
  apply append_members_Ok in Happend. subst tr4.
  unfold ret. intros [= <- <- <-].
  exists users. split; [exact Hmembers |].
  now rewrite <- !app_assoc.
Qed.

(** X9. However the discovery ends, [log.Fatal] is what ends it or does not
    happen: a discovery that returns has logged no fatal message, one that
    stops has logged its message once, as the last thing it did, and no
    request follows; the discovery never panics. *)
Theorem discover_fatal_last (url : string) (tr : list Event) :
  exists ev,
    snd (FullRecon_discover remote parse url tr) = tr ++ ev
    /\ accounts_for (fst (FullRecon_discover remote parse url tr)) ev.
Proof.
  revert tr. change (accountable (FullRecon_discover remote parse url)).
  unfold FullRecon_discover.
  apply accountable_bind; [apply accountable_GetOrganization |]. intros org.
  apply accountable_bind; [apply accountable_GetMembers |]. intros users.
  apply accountable_bind; [apply accountable_GetRepositories |]. intros repos.
  apply accountable_bind; [apply accountable_append_members |]. intros merged.
  apply accountable_ret.
Qed.

(** X10. A member whose repositories cannot be fetched stops [FullRecon]:
    after the lists of the members before it, a transport error, a status
    403 or a body that does not decode as a list of repositories ends the
    loop in [log.Fatal] right after that request, and no later member is
    asked for. *)
Theorem member_repositories_hard_fail (org : Organization.t)
    (us1 us2 : list User.t) (u : User.t) (repos : list Repository.t)
    (tr tr1 : list Event) (lists : list (list Repository.t)) (msg : string) :
  fetch_members remote parse us1 tr = (Ok lists, tr1) ->
  (remote tr1 (_ExtractUrl (User.ReposUrl u)) = TransportError
   /\ msg = "could not fetch repos"%string)
  \/ (exists body,
        remote tr1 (_ExtractUrl (User.ReposUrl u)) = Response 403 body
        /\ msg = "rate limited by github"%string)
  \/ (exists status body,
        remote tr1 (_ExtractUrl (User.ReposUrl u)) = Response status body
        /\ status <> 403%Z
        /\ Json.Unmarshal_Repositories parse body = None
        /\ msg = "could not parse json response for repos"%string) ->
  append_members remote parse org (us1 ++ u :: us2) repos tr
  = (Fatal msg, tr1 ++ [Get (_ExtractUrl (User.ReposUrl u)); LogFatal msg]).
Proof.
  intros Hfetch Hfail. rewrite (append_members_app _ _ _ _ _ _ _ Hfetch).
  cbn [append_members]. unfold bind, User_GetRepositories, _GetRepositories, bind,
    http_Get, log_Fatal.
  destruct Hfail as [[-> ->] | [(body & -> & ->) | (status & body & -> & Hs & Hd & ->)]].
  - now rewrite <- app_assoc.
  - simpl. now rewrite <- app_assoc.
  - destruct (Z.eqb_spec status 403) as [| _]; [contradiction |].
    rewrite Hd. now rewrite <- app_assoc.
Qed.

End Discovery.

Lemma discover_requests_witness :
  snd (FullRecon_discover Acme.remote_templated Acme.parse Acme.org_url [])
  = [Get "https://api.github.com/orgs/acme";
     Get "https://api.github.com/orgs/acme/members{/member}";
     Println "members url:  https://api.github.com/orgs/acme/members";
     Get "https://api.github.com/orgs/acme/repos";
     Get "https://api.github.com/users/bob/repos";
     Get "https://api.github.com/users/carol/repos"].
Proof.
  destruct (discover_requests Acme.remote_templated Acme.parse Acme.org_url []
              (snd (FullRecon_discover Acme.remote_templated Acme.parse Acme.org_url []))
              Acme.acme [Acme.r1; Acme.r2; Acme.fork; Acme.fork; Acme.r_user_acme])
    as (users & Hmembers & Htrace).
  - vm_compute. reflexivity.
  - rewrite Htrace.
    assert (Husers : users = [Acme.bob; Acme.carol]).
    { revert Hmembers. vm_compute. congruence. }
    rewrite Husers. vm_compute. reflexivity.
Defined.

Lemma member_repositories_hard_fail_witness :
  append_members Acme.remote Acme.parse Acme.acme
    [Acme.bob; Acme.acme_user; Acme.carol] [Acme.r1] []
  = (Fatal "could not parse json response for repos",
     [Get "https://api.github.com/users/bob/repos";
      Get "https://api.github.com/users/acme/repos";
      LogFatal "could not parse json response for repos"]).
Proof.
  apply (member_repositories_hard_fail Acme.remote Acme.parse Acme.acme
           [Acme.bob] [Acme.carol] Acme.acme_user [Acme.r1] []
           [Get "https://api.github.com/users/bob/repos"] [Acme.bob_repos]).
  - vm_compute. reflexivity.
  - right. right. exists 404%Z, (Acme.render Acme.doc_not_found).
    split; [vm_compute; reflexivity |]. split; [discriminate |].
    split; vm_compute; reflexivity.
Defined.

(* ===================================================================== *)
(** * More on the dispatch                                                *)
(* ===================================================================== *)

Section Scheduling.

Context {W : Type}.
Variable git_Clone : string -> option Storage.
Variable hooks : list (@Hook W).
Variable repos : list Repository.t.
Variable loopvar : nat -> addr.

Local Abbreviation step := (Dispatch.step git_Clone hooks repos loopvar).
Local Abbreviation reachable := (Dispatch.reachable git_Clone hooks repos loopvar).
Local Abbreviation state_sync_inv := (Dispatch.state_sync_inv repos loopvar).
Local Abbreviation state_memory_inv := (Dispatch.state_memory_inv loopvar).
Local Abbreviation state_exit_inv := (Dispatch.state_exit_inv git_Clone).

Implicit Types s : @State W.

Lemma pending_pos ts :
  pending ts <> 0 -> exists t task, ts !! t = Some task /\ not_done task = true.
Proof.
  unfold pending. intros Hp.
  destruct (List.filter not_done ts) as [| task rest] eqn:Hf; [contradiction |].
  assert (Hin : In task (List.filter not_done ts)) by (rewrite Hf; now left).
  apply List.filter_In in Hin. destruct Hin as [Hin Hnd].
  apply list_elem_of_In, list_elem_of_lookup_1 in Hin. destruct Hin as [t Ht].
  now exists t, task.
Qed.

Lemma state_send_inv_step s a s' :
  state_sync_inv s -> state_send_inv s -> step a s = Some s' -> state_send_inv s'.
Proof.
  unfold Dispatch.state_send_inv. intros Hsync Hsend Hstep.
  pose proof (sync_count _ _ _ _ _ _ Hsync) as Hcount.
  step_split Hstep.
  all: intros j Hj; try discriminate.
  1: { injection Hj as <-. destruct Hcount as [Hlen _].
       eexists. split; [now apply list_lookup_middle | reflexivity]. }
  all: destruct (Hsend j Hj) as (task & Htask & Hpc); exists task;
    (split; [| exact Hpc]); try exact Htask.
  all: rewrite list_lookup_insert_ne; [exact Htask |]; intros ->; congruence.
Qed.

Lemma state_memory_inv_step s a s' :
  state_sync_inv s -> state_memory_inv s -> step a s = Some s' -> state_memory_inv s'.
Proof.
  unfold Dispatch.state_memory_inv. intros Hsync Hmem Hstep.
  destruct (step_memory _ _ _ _ _ _ _ Hstep)
    as [[-> ->] | (i & repo & Hm & Hr & -> & ->)]; [exact Hmem |].
  pose proof (sync_count _ _ _ _ _ _ Hsync) as Hcount. rewrite Hm in Hcount.
  destruct Hcount as [Hlen _].
  intros j Hj. apply lookup_insert_is_Some.
  destruct (decide (j = i)) as [-> | Hne]; [now left |].
  destruct (decide (loopvar i = loopvar j)); [now left | right].
  split; [assumption | apply Hmem; lia].
Qed.

Lemma once_frame_insert (ts : list Task) (acq : list Acquisition) t task task' :
  ts !! t = Some task ->
  (has_files task = true -> has_files task' = true) ->
  (forall a, In a acq ->
             exists task, ts !! by_task a = Some task /\ has_files task = true) ->
  forall a, In a acq ->
            exists task, <[t := task']> ts !! by_task a = Some task
                         /\ has_files task = true.
Proof.
  intros Ht Himp Hacq a Ha. destruct (Hacq a Ha) as (task1 & H1 & Hf).
  destruct (decide (by_task a = t)) as [Heq | Hne].
  - exists task'. rewrite Heq in *. split.
    + apply list_lookup_insert_eq. eapply lookup_lt_Some; eauto.
    + apply Himp. congruence.
  - exists task1. split; [| exact Hf]. now rewrite list_lookup_insert_ne.
Qed.

Lemma once_new (ts : list Task) (acq : list Acquisition) t task b :
  NoDup (List.map by_task acq) ->
  (forall a, In a acq ->
             exists task, ts !! by_task a = Some task /\ has_files task = true) ->
  ts !! t = Some task -> has_files task = false -> by_task b = t ->
  NoDup (List.map by_task (acq ++ [b])).
Proof.
  intros Hnd Hacq Ht Hf Hb. rewrite map_app. apply NoDup_app.
  split; [exact Hnd |]. split; [| simpl; apply NoDup_singleton].
  intros t1 Hin Hin'. simpl in Hin'. apply list_elem_of_singleton in Hin'. subst t1.
  apply list_elem_of_In, in_map_iff in Hin. destruct Hin as (a & Hab & Ha).
  destruct (Hacq a Ha) as (task1 & H1 & Hf1). congruence.
Qed.

Lemma state_once_inv_step s a s' :
  state_once_inv s -> step a s = Some s' -> state_once_inv s'.
Proof.
  unfold Dispatch.state_once_inv. intros [Hnd Hacq] Hstep.
  step_split Hstep.
  all: match goal with He : exited _ = None |- _ => try rewrite He end.
  all: match goal with
       | |- NoDup (List.map by_task (_ ++ _)) /\ _ =>
           split; [eapply once_new; eauto; unfold has_files;
                   match goal with H : pc _ = _ |- _ => now rewrite H end |]
       | |- _ => split; [exact Hnd |]
       end.
  all: try exact Hacq.
  all: try (do 4 eexists; split; eassumption).
  all: try (eapply once_frame_insert; eauto; unfold has_files; simpl;
            match goal with H : pc _ = _ |- _ => rewrite H end;
            solve [discriminate | reflexivity]).
  - intros b Hb. destruct (Hacq b Hb) as (task & Htask & Hf).
    exists task. split; [now apply lookup_app_l_Some | exact Hf].
  - intros b Hb. apply in_app_or in Hb. destruct Hb as [Hb | [<- | []]].
    + eapply once_frame_insert; eauto.
    + simpl. eexists. split.
      * apply list_lookup_insert_eq. eapply lookup_lt_Some; eauto.
      * reflexivity.
Qed.

Lemma state_exit_inv_step s a s' :
  state_sync_inv s -> state_memory_inv s -> state_exit_inv s ->
  step a s = Some s' -> state_exit_inv s'.
Proof.
  unfold Dispatch.state_exit_inv, Dispatch.state_memory_inv.
  intros Hsync Hmem Hexit Hstep.
  pose proof (sync_ptr _ _ _ _ _ _ Hsync) as Hptr.
  step_split Hstep.
  all: intros msg0 Hmsg; try congruence.
  1, 2: eexists; split; [apply last_snoc |]; simpl;
    match goal with H : ParseRepository _ _ _ = _ |- _ => rewrite H end; exact Hmsg.
  exfalso.
  match goal with
  | Ht : tasks s !! ?t = Some ?task, Hpc : pc ?task = Cloning ?p _,
    Hnone : memory s !! ?p = None |- _ =>
      assert (Hp : p = loopvar t)
        by (apply (Hptr t task); [exact Ht | unfold task_ptr; now rewrite Hpc]);
      destruct (Hmem t (lookup_lt_Some _ _ _ Ht)) as [r Hr];
      rewrite <- Hp, Hnone in Hr; discriminate
  end.
Qed.

Lemma reachable_flow (w : W) s :
  reachable w s ->
  state_sync_inv s /\ state_send_inv s /\ state_memory_inv s
  /\ state_once_inv s /\ state_exit_inv s.
Proof.
  revert s.
  apply (reachable_invariant git_Clone hooks repos loopvar
           (fun s => state_sync_inv s /\ state_send_inv s /\ state_memory_inv s
                     /\ state_once_inv s /\ state_exit_inv s)).
  - split; [apply (reachable_sync_inv git_Clone hooks repos loopvar w); now exists [] |].
    split; [intros i Hi; discriminate |].
    split; [intros i Hi; simpl in Hi; lia |].
    split; [split; [constructor | intros a []] |].
    intros msg Hmsg. discriminate.
  - intros s0 a s1 _ (Hsync & Hsend & Hmem & Honce & Hexit) Hstep.
    split; [eapply state_sync_inv_step; eauto |].
    split; [eapply state_send_inv_step; eauto |].
    split; [eapply state_memory_inv_step; eauto |].
    split; [eapply state_once_inv_step; eauto |].
    eapply state_exit_inv_step; eauto.
Qed.

(** X13. When [FullRecon] returns, the process has not exited, the
    WaitGroup is at zero, there is one task per repository, and every task
    has cloned, flattened and called every hook on every one of its files:
    its calls are all of [task_calls]. *)
Theorem returned_complete (w : W) s :
  reachable w s -> main s = Returned ->
  exited s = None /\ wg s = 0
  /\ length (tasks s) = length repos
  /\ forall t, t < length repos ->
       exists files,
         acquired git_Clone (acquisitions s) t files
         /\ calls_of t s = task_calls t (length files) (length hooks).
Proof.
  intros Hreach Hret.
  destruct (returned_all_done git_Clone hooks repos loopvar w s Hreach Hret)
    as [Hlen Hdone].
  destruct (reachable_flow w s Hreach) as (Hsync & _ & _ & [_ Honce] & _).
  split; [| split; [| split; [exact Hlen |]]].
  - destruct (exited s) as [msg |]; [| reflexivity].
    destruct Honce as (t & task & p & l & Ht & Hpc).
    rewrite (Hdone t task Ht) in Hpc. discriminate.
  - now apply (sync_join _ _ _ _ _ _ Hsync).
  - intros t Ht. rewrite <- Hlen in Ht.
    destruct (lookup_lt_is_Some_2 _ _ Ht) as [task Htask].
    pose proof (proj2 (reachable_calls_inv git_Clone hooks repos loopvar w s Hreach)
                  t task Htask) as Hinv.
    unfold task_inv in Hinv. rewrite (Hdone t task Htask) in Hinv.
    exact Hinv.
Qed.

(** X14. The hand-over pairs iteration and task: the pointer a task has
    received, and the pointer every clone was called with, is the address
    of the loop variable of the iteration that spawned the task; the
    WaitGroup counts the tasks that have not run their [wg.Done()], and
    there are never more tasks than repositories. *)
Theorem handover_exact (w : W) s :
  reachable w s ->
  (forall t task p, tasks s !! t = Some task -> task_ptr task = Some p -> p = loopvar t)
  /\ (forall a, In a (acquisitions s) ->
                repo_ptr a = loopvar (by_task a) /\ by_task a < length (tasks s))
  /\ wg s = pending (tasks s)
  /\ length (tasks s) <= length repos.
Proof.
  intros Hreach.
  destruct (reachable_sync_inv git_Clone hooks repos loopvar w s Hreach)
    as [I1 I2 I3 I4 I5 I6].
  repeat split; try (now apply I3); try (now apply I4); try exact I5.
  destruct (main s); lia.
Qed.

(** X15. No deadlock: a state of [FullRecon] in which the process has not
    exited and [FullRecon] has not returned has a goroutine that can move. *)
Theorem no_deadlock (w : W) s :
  reachable w s -> exited s = None -> main s <> Returned ->
  exists a s', step a s = Some s'.
Proof.
  intros Hreach Hex Hret.
  destruct (reachable_flow w s Hreach) as (Hsync & Hsend & _).
  unfold Dispatch.step. rewrite Hex.
  destruct (main s) as [| i | i | |] eqn:Hm; try contradiction.
  - exists MainThread. unfold step_main. rewrite Hm. eauto.
  - exists MainThread. unfold step_main. rewrite Hm. destruct (repos !! i); eauto.
  - destruct (Hsend i Hm) as (task & Ht & Hpc).
    exists (TaskThread i). unfold step_task. rewrite Ht, Hpc, Hm. eauto.
  - destruct (Nat.eqb_spec (wg s) 0) as [Hz | Hnz].
    + exists MainThread. unfold step_main. rewrite Hm, Hz. eauto.
    + rewrite (sync_wg _ _ _ _ _ _ Hsync) in Hnz.
      destruct (pending_pos _ Hnz) as (t & task & Ht & Hnd).
      exists (TaskThread t). unfold step_task. rewrite Ht.
      pose proof (sync_recv _ _ _ _ _ _ Hsync t task Ht) as Hrecv.
      unfold not_done in Hnd.
      destruct (pc task) as [| p | p l | files n h inside |]; try discriminate.
      * specialize (Hrecv eq_refl). congruence.
      * eauto.
      * destruct (memory s !! p); [| eauto]. cbv zeta.
        destruct (ParseRepository git_Clone p t0); eauto.
      * destruct (files !! n); [| eauto].
        destruct (hooks !! h); [destruct inside |]; eauto.
Qed.

(** X16. A task clones at most once: the acquisitions are of pairwise
    different tasks, so there are at most as many as repositories. *)
Theorem clone_once (w : W) s :
  reachable w s ->
  NoDup (List.map by_task (acquisitions s))
  /\ length (acquisitions s) <= length repos.
Proof.
  intros Hreach.
  destruct (reachable_flow w s Hreach) as (Hsync & _ & _ & [Hnd _] & _).
  split; [exact Hnd |].
  assert (Hlen : length (tasks s) <= length repos).
  { pose proof (sync_count _ _ _ _ _ _ Hsync). destruct (main s); lia. }
  assert (Hsub : List.map by_task (acquisitions s) ⊆+ seq 0 (length repos)).
  { apply NoDup_submseteq; [exact Hnd |].
    intros t Ht. apply list_elem_of_In, in_map_iff in Ht.
    destruct Ht as (a & <- & Ha).
    destruct (sync_acq _ _ _ _ _ _ Hsync a Ha) as [_ Hlt].
    apply list_elem_of_In, in_seq. lia. }
  apply submseteq_length in Hsub.
  now rewrite length_map, length_seq in Hsub.
Qed.

(** X17. The process ends before [FullRecon] returns only through a clone:
    it has exited with the message of the failure of the last call of
    [ParseRepository], the [log.Fatal] of a failed clone or the panic of
    the flattener; a task never follows a nil pointer, and [FullRecon] has
    not returned. *)
Theorem exit_by_failure (w : W) s (msg : string) :
  reachable w s -> exited s = Some msg ->
  main s <> Returned
  /\ exists a,
       last (acquisitions s) = Some a
       /\ failure (ParseRepository git_Clone (repo_ptr a) (of_repo a)) = Some msg.
Proof.
  intros Hreach Hmsg.
  destruct (reachable_flow w s Hreach) as (_ & _ & _ & [_ Honce] & Hexit).
  split; [| now apply Hexit].
  intros Hret. rewrite Hmsg in Honce. destruct Honce as (t & task & p & l & Ht & Hpc).
  destruct (returned_all_done git_Clone hooks repos loopvar w s Hreach Hret) as [_ Hdone].
  rewrite (Hdone t task Ht) in Hpc. discriminate.
Qed.


End Scheduling.

Section LoopVariable.

Context {W : Type}.
Variable git_Clone : string -> option Storage.
Variable hooks : list (@Hook W).
Variable repos : list Repository.t.

Implicit Types s : @State W.

Lemma state_shared_inv_step s a s' :
  state_sync_inv repos shared_loopvar s -> state_shared_inv repos s ->
  step git_Clone hooks repos shared_loopvar a s = Some s' ->
  state_shared_inv repos s'.
Proof.
  intros Hsync [Hmem Hacq] Hstep.
  pose proof (sync_count _ _ _ _ _ _ Hsync) as Hcount.
  split.
  - destruct (step_memory _ _ _ _ _ _ _ Hstep)
      as [[-> ->] | (i & repo & Hm & Hr & -> & ->)]; [exact Hmem |].
    rewrite Hm in Hcount. destruct Hcount as [Hlen _].
    intros n [= Hn]. unfold shared_loopvar. rewrite lookup_insert_eq. congruence.
  - destruct (step_acquisitions _ _ _ _ _ _ _ Hstep)
      as [-> | (t & task & p & l & r & Ht & Hpc & Hr & ->)]; [exact Hacq |].
    intros b Hb. apply in_app_or in Hb. destruct Hb as [Hb | [<- | []]]; [auto |].
    simpl. pose proof (lookup_lt_Some _ _ _ Ht) as Hlt.
    assert (Hp : p = shared_loopvar t).
    { apply (sync_ptr _ _ _ _ _ _ Hsync t task); [exact Ht |].
      unfold task_ptr. now rewrite Hpc. }
    destruct (length (tasks s)) as [| n] eqn:Hlen; [lia |].
    exists n. split; [lia |].
    rewrite <- (Hmem n eq_refl). unfold shared_loopvar in *. now rewrite <- Hp.
Qed.

Lemma reachable_shared_inv (w : W) s :
  reachable git_Clone hooks repos shared_loopvar w s ->
  state_sync_inv repos shared_loopvar s /\ state_shared_inv repos s.
Proof.
  revert s.
  apply (reachable_invariant git_Clone hooks repos shared_loopvar
           (fun s => state_sync_inv repos shared_loopvar s /\ state_shared_inv repos s)).
  - split; [apply (reachable_sync_inv git_Clone hooks repos shared_loopvar w); now exists [] |].
    split; [intros n Hn; discriminate | intros a []].
  - intros s0 a s1 _ [Hsync Hshared] Hstep. split.
    + eapply state_sync_inv_step; eauto.
    + eapply state_shared_inv_step; eauto.
Qed.

(** X18. With a loop variable per iteration (Go from 1.22 on), every clone
    reads the repository of the iteration that spawned its task: task [t]
    clones [repos[t]]. *)
Theorem fresh_variable_own_repository (w : W) s (a : Acquisition) :
  reachable git_Clone hooks repos fresh_loopvar w s ->
  In a (acquisitions s) ->
  repos !! by_task a = Some (of_repo a) /\ repo_ptr a = fresh_loopvar (by_task a).
Proof.
  intros Hreach Ha. split.
  - apply (fresh_loopvar_own_repository git_Clone hooks repos fresh_loopvar w s); auto.
  - now apply (sync_acq _ _ _ _ _ _
                 (reachable_sync_inv git_Clone hooks repos fresh_loopvar w s Hreach)).
Qed.

(** X19. With the one loop variable of a range loop before Go 1.22, a
    clone reads the repository of the iteration of its task or of a later
    one, never of an earlier one, and always a repository of the list; so
    the task of the last iteration clones its own repository. *)
Theorem shared_variable_later_repository (w : W) s (a : Acquisition) :
  reachable git_Clone hooks repos shared_loopvar w s ->
  In a (acquisitions s) ->
  (exists j, by_task a <= j < length repos /\ repos !! j = Some (of_repo a))
  /\ (S (by_task a) = length repos -> repos !! by_task a = Some (of_repo a)).
Proof.
  intros Hreach Ha.
  destruct (reachable_shared_inv w s Hreach) as [_ [_ Hacq]].
  destruct (Hacq a Ha) as (j & Hle & Hj).
  pose proof (lookup_lt_Some _ _ _ Hj) as Hlt.
  split.
  - exists j. split; [lia | exact Hj].
  - intros Hlast. assert (j = by_task a) as -> by lia. exact Hj.
Qed.

End LoopVariable.

(* ===================================================================== *)
(** * The hook calls and what they do                                     *)
(* ===================================================================== *)

Section HookCalls.

Context {W : Type}.
Variable git_Clone : string -> option Storage.
Variable hooks : list (@Hook W).
Variable repos : list Repository.t.
Variable loopvar : nat -> addr.

Local Abbreviation step := (Dispatch.step git_Clone hooks repos loopvar).
Local Abbreviation run := (Dispatch.run git_Clone hooks repos loopvar).
Local Abbreviation reachable := (Dispatch.reachable git_Clone hooks repos loopvar).
Local Abbreviation history := (Dispatch.history git_Clone hooks repos loopvar).
Local Abbreviation files_of := (Dispatch.files_of git_Clone).
Local Abbreviation apply_call := (Dispatch.apply_call git_Clone hooks).
Local Abbreviation replay := (Dispatch.replay git_Clone hooks).
Local Abbreviation call_step := (Dispatch.call_step git_Clone hooks).
Local Abbreviation acquired := (Dispatch.acquired git_Clone).
Local Abbreviation task_inv := (Dispatch.task_inv git_Clone hooks).
Local Abbreviation state_calls_inv := (Dispatch.state_calls_inv git_Clone hooks).

Implicit Types s : @State W.

(** What a step does to the calls and to the state of the hooks, by the
    place of the task that moves. *)
Lemma step_calls s a s' :
  step a s = Some s' ->
  (calls s' = calls s /\ world s' = world s)
  \/ exists t task files n h inside file f,
       tasks s !! t = Some task /\ pc task = Ranging files n h inside
       /\ files !! n = Some file /\ hooks !! h = Some f
       /\ ((calls s' = calls s ++ [Enter t n h] /\ world s' = world s)
           \/ (calls s' = calls s ++ [Leave t n h]
               /\ world s' = f file (memory s) (world s))).
Proof.
  intros Hstep. step_split Hstep;
    first [ left; split; reflexivity
          | right; do 8 eexists;
            split; [eassumption |]; split; [eassumption |];
            split; [eassumption |]; split; [eassumption |];
            first [ left; split; reflexivity | right; split; reflexivity ] ].
Qed.

Lemma step_call_step s a s' :
  state_calls_inv s -> step a s = Some s' -> call_step s s'.
Proof.
  intros [_ Hinv] Hstep.
  destruct (step_calls s a s' Hstep)
    as [Hsame | (t & task & files & n & h & inside & file & f & Ht & Hpc & Hn & Hh & Hcase)];
    [now left | right].
  specialize (Hinv t task Ht). unfold Dispatch.task_inv in Hinv. rewrite Hpc in Hinv.
  destruct Hinv as (_ & Hacq & _).
  exists t, n, h, files, file, f. auto.
Qed.

Lemma history_snoc schedule a : forall s0 s,
  run schedule s0 = Some s ->
  history (schedule ++ [a]) s0
  = history schedule s0
    ++ match step a s with
       | Some s' => List.map (fun e => (e, memory s)) (drop (length (calls s)) (calls s'))
       | None => []
       end.
Proof.
  induction schedule as [| b rest IH]; intros s0 s Hrun; simpl in *.
  - injection Hrun as ->. destruct (step a s); [now rewrite app_nil_r | reflexivity].
  - destruct (step b s0) as [s1 |]; [| discriminate].
    now rewrite (IH s1 s Hrun), app_assoc.
Qed.

Lemma files_of_acquired acq t files :
  NoDup (List.map by_task acq) -> acquired acq t files -> files_of acq t = files.
Proof.
  intros Hnd (a & Hin & Ht & Hparse). unfold Dispatch.files_of.
  induction acq as [| b rest IH]; [contradiction |]. simpl in *.
  apply NoDup_cons in Hnd. destruct Hnd as [Hnotin Hnd].
  destruct Hin as [-> | Hin].
  - rewrite Ht, Nat.eqb_refl. now rewrite Hparse.
  - destruct (Nat.eqb_spec (by_task b) t) as [Hb | Hb]; [| now apply IH].
    exfalso. apply Hnotin. rewrite Hb, <- Ht.
    apply list_elem_of_In, in_map. exact Hin.
Qed.

Lemma files_of_snoc acq b t :
  (exists a, In a acq /\ by_task a = t) -> files_of (acq ++ [b]) t = files_of acq t.
Proof.
  intros (a & Hin & Ht). unfold Dispatch.files_of.
  induction acq as [| c rest IH]; [contradiction |]. simpl in *.
  destruct (Nat.eqb_spec (by_task c) t) as [Hc | Hc]; [reflexivity |].
  destruct Hin as [-> | Hin]; [contradiction | now apply IH].
Qed.

Lemma replay_snoc_acq acq b log : forall w0,
  (forall e m, In (e, m) log -> exists a, In a acq /\ by_task a = event_task e) ->
  replay (acq ++ [b]) log w0 = replay acq log w0.
Proof.
  unfold Dispatch.replay.
  induction log as [| [e m] rest IH]; intros w0 Hall; simpl; [reflexivity |].
  assert (He : apply_call (acq ++ [b]) e m w0 = apply_call acq e m w0).
  { destruct e as [t n h | t n h]; simpl; [reflexivity |].
    rewrite files_of_snoc; [reflexivity |]. apply (Hall (Leave t n h) m). now left. }
  rewrite He. apply IH. intros e' m' Hin. apply (Hall e' m'). now right.
Qed.

Lemma calls_have_acquisition s e :
  state_calls_inv s -> In e (calls s) ->
  exists a, In a (acquisitions s) /\ by_task a = event_task e.
Proof.
  intros [Hout Hinv] Hin.
  assert (Hf : In e (List.filter (of_task (event_task e)) (calls s))).
  { apply List.filter_In. split; [exact Hin |]. destruct e; simpl; apply Nat.eqb_refl. }
  destruct (tasks s !! event_task e) as [task |] eqn:Ht.
  - specialize (Hinv _ _ Ht). unfold Dispatch.task_inv in Hinv.
    destruct (pc task).
    1, 2, 3: rewrite Hinv in Hf; contradiction.
    + destruct Hinv as (_ & (a & Ha & Hby & _) & _). now exists a.
    + destruct Hinv as (files & (a & Ha & Hby & _) & _). now exists a.
  - apply lookup_ge_None in Ht. rewrite (Hout _ Ht) in Hf. contradiction.
Qed.

(** The state of the hooks is what the calls of the run, in their order,
    have made of the initial one. *)
Lemma world_replay (w : W) schedule : forall s,
  run schedule (initial w) = Some s ->
  List.map fst (history schedule (initial w)) = calls s
  /\ world s = replay (acquisitions s) (history schedule (initial w)) w.
Proof.
  induction schedule as [| a schedule IH] using rev_ind; intros s Hrun.
  - simpl in Hrun. injection Hrun as <-. split; reflexivity.
  - rewrite run_snoc in Hrun.
    destruct (run schedule (initial w)) as [s0 |] eqn:Hs0; [| discriminate].
    destruct (IH s0 eq_refl) as [Hcalls Hworld].
    assert (Hreach : reachable w s0) by now exists schedule.
    pose proof (reachable_calls_inv git_Clone hooks repos loopvar w s0 Hreach) as Hinv.
    destruct (reachable_flow git_Clone hooks repos loopvar w s0 Hreach)
      as (_ & _ & _ & [Hnd _] & _).
    rewrite (history_snoc schedule a (initial w) s0 Hs0), Hrun.
    assert (Hold : forall e m, In (e, m) (history schedule (initial w)) ->
                     exists b, In b (acquisitions s0) /\ by_task b = event_task e).
    { intros e m Hin. apply (calls_have_acquisition s0 e Hinv).
      rewrite <- Hcalls. apply in_map_iff. now exists (e, m). }
    assert (Hacq : forall log,
               (forall e m, In (e, m) log ->
                  exists b, In b (acquisitions s0) /\ by_task b = event_task e) ->
               replay (acquisitions s) log w = replay (acquisitions s0) log w).
    { intros log Hlog.
      destruct (step_acquisitions _ _ _ _ _ _ _ Hrun)
        as [-> | (t & task & p & l & r & _ & _ & _ & ->)]; [reflexivity |].
      now apply replay_snoc_acq. }
    destruct (step_call_step s0 a s Hinv Hrun)
      as [[Hc Hw] | (t & n & h & files & file & f & Hfiles & Hn & Hh & Hcase)].
    + rewrite Hc, drop_all. simpl. rewrite app_nil_r.
      split; [exact Hcalls |]. rewrite Hw, Hworld. symmetry. now apply Hacq.
    + assert (Hnew : forall e m,
                 event_task e = t ->
                 forall e' m', In (e', m') (history schedule (initial w) ++ [(e, m)]) ->
                   exists b, In b (acquisitions s0) /\ by_task b = event_task e').
      { intros e m He e' m' Hin. apply in_app_or in Hin.
        destruct Hin as [Hin | [[= <- <-] | []]]; [now apply (Hold e' m') |].
        destruct Hfiles as (b & Hb & Hby & _). exists b. now rewrite He. }
      destruct Hcase as [[Hc Hw] | [Hc Hw]];
        rewrite Hc, drop_app_length; simpl; (split; [rewrite map_app, Hcalls; reflexivity |]).
      * rewrite (Hacq _ (Hnew (Enter t n h) (memory s0) eq_refl)).
        unfold Dispatch.replay. rewrite fold_left_app. simpl.
        now rewrite Hw, Hworld.
      * rewrite (Hacq _ (Hnew (Leave t n h) (memory s0) eq_refl)).
        unfold Dispatch.replay. rewrite fold_left_app. simpl.
        rewrite (files_of_acquired _ _ _ Hnd Hfiles), Hh, Hn.
        now rewrite Hw, Hworld.
Qed.

(** C9. In every state [FullRecon] can reach, the hook calls of a task are
    the calls for its files in the order of the flattener's result and, for
    each file, for the hooks in list order, each call returning before the
    next one is entered: the calls so far are [calls_before] of the point the
    task stands at, all of [task_calls] once it is done, and so every call on
    file n has returned before a call on file n+1 is entered.  The calls are
    the invocations: a step that adds the call [t n h] is task [t] calling
    [hooks[h]] on file [n] of what [ParseRepository] returned to it, and the
    state of the hooks changes by that hook applied to that file when the
    call returns, and not otherwise; so after any run the state of the hooks
    is the initial one taken through the calls of the run in their order. *)
Theorem hooks_in_order (w : W) (s : State) (t : nat) (task : Task) :
  reachable w s ->
  tasks s !! t = Some task ->
  task_inv (calls s) (acquisitions s) t task
  /\ in_order t (length hooks) (calls_of t s)
  /\ (forall a s', step a s = Some s' -> call_step s s')
  /\ (forall schedule,
        run schedule (initial w) = Some s ->
        List.map fst (history schedule (initial w)) = calls s
        /\ world s = replay (acquisitions s) (history schedule (initial w)) w).
Proof.
  intros Hreach Ht.
  pose proof (reachable_calls_inv git_Clone hooks repos loopvar w s Hreach) as Hcalls.
  pose proof (proj2 Hcalls t task Ht) as Hinv.
  split; [exact Hinv |]. split; [| split].
  - destruct (task_inv_closed _ _ _ _ _ _ Hinv) as (n & h & inside & Hc & Hh & Hin).
    unfold calls_of. rewrite Hc. now apply calls_before_in_order.
  - intros a s'. now apply step_call_step.
  - intros schedule. apply world_replay.
Qed.

End HookCalls.

Lemma hooks_in_order_witness :
  task_inv Acme.git_Clone Acme.hooks (calls Acme.after_one_by_one)
    (acquisitions Acme.after_one_by_one) 0 (BuildTask 0 Done)
  /\ in_order 0 2 (calls_of 0 Acme.after_one_by_one)
  /\ world Acme.after_one_by_one
     = replay Acme.git_Clone Acme.hooks (acquisitions Acme.after_one_by_one)
         (history Acme.git_Clone Acme.hooks [Acme.r1; Acme.r2] fresh_loopvar
            Acme.one_by_one (initial [])) [].
Proof.
  destruct (hooks_in_order Acme.git_Clone Acme.hooks [Acme.r1; Acme.r2] fresh_loopvar []
              Acme.after_one_by_one 0 (BuildTask 0 Done))
    as (Hinv & Horder & _ & Hworld).
  - exact reachable_after_one_by_one.
  - vm_compute. reflexivity.
  - split; [exact Hinv |]. split; [exact Horder |].
    apply (Hworld Acme.one_by_one). vm_compute. reflexivity.
Defined.

Lemma reachable_during_late_clone :
  reachable Acme.git_Clone Acme.hooks [Acme.r1; Acme.r2] shared_loopvar []
    Acme.during_late_clone.
Proof. exists Acme.late_clone. vm_compute. reflexivity. Qed.

Lemma reachable_after_late_clone :
  reachable Acme.git_Clone Acme.hooks [Acme.r1; Acme.r2] shared_loopvar []
    Acme.after_late_clone.
Proof. exists (Acme.late_clone ++ Acme.late_clone_rest). vm_compute. reflexivity. Qed.

Lemma reachable_failed_clone :
  reachable Acme.git_Clone Acme.hooks [Acme.fork] shared_loopvar [] Acme.failed_clone.
Proof.
  exists [MainThread; MainThread; TaskThread 0; TaskThread 0; TaskThread 0].
  vm_compute. reflexivity.
Qed.

Lemma returned_complete_witness :
  exited Acme.after_one_by_one = None /\ wg Acme.after_one_by_one = 0
  /\ length (tasks Acme.after_one_by_one) = 2
  /\ forall t, t < 2 ->
       exists files,
         acquired Acme.git_Clone (acquisitions Acme.after_one_by_one) t files
         /\ calls_of t Acme.after_one_by_one = task_calls t (length files) 2.
Proof.
  apply (returned_complete Acme.git_Clone Acme.hooks [Acme.r1; Acme.r2] fresh_loopvar []
           Acme.after_one_by_one).
  - exact reachable_after_one_by_one.
  - vm_compute. reflexivity.
Defined.

Lemma handover_exact_witness :
  (forall t task p, tasks Acme.during_late_clone !! t = Some task ->
                    task_ptr task = Some p -> p = shared_loopvar t)
  /\ (forall a, In a (acquisitions Acme.during_late_clone) ->
                repo_ptr a = shared_loopvar (by_task a)
                /\ by_task a < length (tasks Acme.during_late_clone))
  /\ wg Acme.during_late_clone = pending (tasks Acme.during_late_clone)
  /\ length (tasks Acme.during_late_clone) <= 2.
Proof.
  apply (handover_exact Acme.git_Clone Acme.hooks [Acme.r1; Acme.r2] shared_loopvar []
           Acme.during_late_clone).
  exact reachable_during_late_clone.
Defined.

Lemma no_deadlock_witness :
  exists a s',
    step Acme.git_Clone Acme.hooks [Acme.r1; Acme.r2] shared_loopvar a
      Acme.during_late_clone = Some s'.
Proof.
  apply (no_deadlock Acme.git_Clone Acme.hooks [Acme.r1; Acme.r2] shared_loopvar []
           Acme.during_late_clone).
  - exact reachable_during_late_clone.
  - vm_compute. reflexivity.
  - vm_compute. discriminate.
Defined.

Lemma clone_once_witness :
  NoDup (List.map by_task (acquisitions Acme.after_one_by_one))
  /\ length (acquisitions Acme.after_one_by_one) <= 2.
Proof.
  apply (clone_once Acme.git_Clone Acme.hooks [Acme.r1; Acme.r2] fresh_loopvar []
           Acme.after_one_by_one).
  exact reachable_after_one_by_one.
Defined.

Lemma exit_by_failure_witness :
  main Acme.failed_clone <> Returned
  /\ exists a,
       last (acquisitions Acme.failed_clone) = Some a
       /\ failure (ParseRepository Acme.git_Clone (repo_ptr a) (of_repo a))
          = Some "could not fetch carol/tool"%string.
Proof.
  apply (exit_by_failure Acme.git_Clone Acme.hooks [Acme.fork] shared_loopvar []
           Acme.failed_clone).
  - exact reachable_failed_clone.
  - vm_compute. reflexivity.
Defined.

Lemma fresh_variable_own_repository_witness :
  [Acme.r1; Acme.r2] !! 1 = Some Acme.r2 /\ 1 = fresh_loopvar 1.
Proof.
  apply (fresh_variable_own_repository Acme.git_Clone Acme.hooks [Acme.r1; Acme.r2] []
           Acme.after_one_by_one (BuildAcquisition 1 1 2 0 Acme.r2)).
  - exact reachable_after_one_by_one.
  - vm_compute. tauto.
Defined.

Lemma shared_variable_later_repository_witness :
  (exists j, 0 <= j < 2 /\ [Acme.r1; Acme.r2] !! j = Some Acme.r2)
  /\ (1 = 2 -> [Acme.r1; Acme.r2] !! 0 = Some Acme.r2).
Proof.
  apply (shared_variable_later_repository Acme.git_Clone Acme.hooks [Acme.r1; Acme.r2] []
           Acme.after_late_clone (BuildAcquisition 0 0 1 0 Acme.r2)).
  - exact reachable_after_late_clone.
  - vm_compute. tauto.
Defined.

(* ===================================================================== *)
(** * More on the decoding                                                *)
(* ===================================================================== *)

Section Decoding.

Import Json.

Lemma into_struct_skip {T : Type} (set_field : T -> string -> JSON -> option T)
    (key : string) (v : JSON) :
  (forall x, set_field x key v = Some x) ->
  forall ms1 ms2 old,
    into_struct set_field (JObject (ms1 ++ (key, v) :: ms2)) old
    = into_struct set_field (JObject (ms1 ++ ms2)) old.
Proof.
  intros Hskip ms1 ms2 old. unfold into_struct. rewrite !fold_left_app. simpl.
  destruct (fold_left _ ms1 (Some old)) as [x |]; [now rewrite Hskip | reflexivity].
Qed.

(** X11. A member of a JSON object whose key matches none of the tags of a
    struct does not change what the object decodes to, wherever it stands
    and whatever its value: for [Repository] the tags are id, owner, name,
    full_name and clone_url, for [User] login, id, type and repos_url, for
    [Organization] id, login, repos_url and members_url. *)
Theorem decode_skips_foreign_key (key : string) (v : JSON) :
  (key_is "id" key = false -> key_is "owner" key = false ->
   key_is "name" key = false -> key_is "full_name" key = false ->
   key_is "clone_url" key = false ->
   forall ms1 ms2 old,
     into_Repository (JObject (ms1 ++ (key, v) :: ms2)) old
     = into_Repository (JObject (ms1 ++ ms2)) old)
  /\ (key_is "login" key = false -> key_is "id" key = false ->
      key_is "type" key = false -> key_is "repos_url" key = false ->
      forall ms1 ms2 old,
        into_User (JObject (ms1 ++ (key, v) :: ms2)) old
        = into_User (JObject (ms1 ++ ms2)) old)
  /\ (no_Organization_key key ->
      forall ms1 ms2 old,
        into_Organization (JObject (ms1 ++ (key, v) :: ms2)) old
        = into_Organization (JObject (ms1 ++ ms2)) old).
Proof.
  split; [| split].
  - intros H1 H2 H3 H4 H5. apply into_struct_skip. intros [id owner name full url].
    unfold set_Repository_field. now rewrite H1, H2, H3, H4, H5.
  - intros H1 H2 H3 H4. apply into_struct_skip. intros u.
    unfold set_User_field. now rewrite H1, H2, H3, H4.
  - intros (H1 & H2 & H3 & H4). apply into_struct_skip. intros [id login repos members].
    unfold set_Organization_field. now rewrite H1, H2, H3, H4.
Qed.

Lemma into_User_doc (u old : User.t) :
  fits_int (User.Id u) = true -> into_User (Acme.doc_User u) old = Some u.
Proof.
  intros Hid. destruct u as [login id type repos]. simpl in Hid.
  unfold into_User, into_struct, Acme.doc_User. cbn -[key_is fits_int set_User_field].
  unfold set_User_field. decide_keys. cbn -[key_is fits_int]. rewrite Hid. reflexivity.
Qed.

Lemma into_Repository_doc (r old : Repository.t) :
  fits_int (Repository.Id r) = true ->
  fits_int (User.Id (Repository.Owner r)) = true ->
  into_Repository (Acme.doc_Repository r) old = Some r.
Proof.
  intros Hid Howner. destruct r as [id owner name full url], old as [id0 owner0 ? ? ?].
  simpl in Hid, Howner.
  unfold into_Repository, into_struct, Acme.doc_Repository.
  cbn -[key_is fits_int into_User Acme.doc_User]. decide_keys.
  cbn -[key_is fits_int into_User Acme.doc_User]. rewrite Hid.
  cbn -[key_is fits_int into_User Acme.doc_User]. decide_keys.
  cbn -[key_is fits_int into_User Acme.doc_User].
  rewrite (into_User_doc owner owner0 Howner).
  repeat (cbn -[key_is fits_int into_User Acme.doc_User]; decide_keys).
  reflexivity.
Qed.

(** X12. The tags of the three structs fit the documents of the API: an
    object that carries the tagged keys, with numbers that fit in an [int],
    decodes to the record of its values, whatever the target held before,
    and an array of such repository objects decodes to the list of their
    records. *)
Theorem decode_documents :
  (forall u old, fits_int (User.Id u) = true -> into_User (Acme.doc_User u) old = Some u)
  /\ (forall r old,
        fits_int (Repository.Id r) = true ->
        fits_int (User.Id (Repository.Owner r)) = true ->
        into_Repository (Acme.doc_Repository r) old = Some r)
  /\ (forall o old,
        fits_int (Organization.Id o) = true ->
        into_Organization (Acme.doc_Organization o) old = Some o)
  /\ (forall rs,
        Forall (fun r => fits_int (Repository.Id r) = true
                         /\ fits_int (User.Id (Repository.Owner r)) = true) rs ->
        into_slice into_Repository Repository.zero
          (JArray (List.map Acme.doc_Repository rs)) = Some rs).
Proof.
  split; [exact into_User_doc |]. split; [exact into_Repository_doc |]. split.
  - intros [id login repos members] [id0 ? ? ?] Hid. simpl in Hid.
    unfold into_Organization, into_struct, Acme.doc_Organization.
    cbn -[key_is fits_int]. decide_keys. cbn -[key_is fits_int]. rewrite Hid.
    repeat (cbn -[key_is fits_int]; decide_keys). reflexivity.
  - intros rs Hall. unfold into_slice.
    induction Hall as [| r rest [Hid Howner] _ IH]; [reflexivity |].
    cbn [List.map into_elems].
    now rewrite (into_Repository_doc r Repository.zero Hid Howner), IH.
Qed.

End Decoding.

Lemma decode_skips_foreign_key_witness :
  Json.into_Repository
    (Json.JObject [("id", Json.JInt 11); ("url", Json.JString "https://api.github.com/repos/acme/site");
                   ("clone_url", Json.JString "https://github.com/acme/site.git")]%string)
    Repository.zero
  = Json.into_Repository
      (Json.JObject [("id", Json.JInt 11);
                     ("clone_url", Json.JString "https://github.com/acme/site.git")]%string)
      Repository.zero.
Proof.
  apply (proj1 (decode_skips_foreign_key "url"
                  (Json.JString "https://api.github.com/repos/acme/site"))
           ltac:(reflexivity) ltac:(reflexivity) ltac:(reflexivity) ltac:(reflexivity)
           ltac:(reflexivity)
           [("id", Json.JInt 11)]%string
           [("clone_url", Json.JString "https://github.com/acme/site.git")]%string).
Defined.

Lemma decode_documents_witness :
  Json.into_Repository (Acme.doc_Repository Acme.r2) Acme.r1 = Some Acme.r2.
Proof.
  apply (proj1 (proj2 decode_documents) Acme.r2 Acme.r1); reflexivity.
Defined.
